(** * Link Autotitle: a shallow embedding of [src/main.ts]

    The plugin ([URLEnhancerPlugin]) detects plain URLs in an editor line,
    resolves a title for each of them and rewrites the URL as a markdown
    link.  This development embeds the plugin's methods as Rocq functions
    and proves properties of them.

    Conventions.
    - A JavaScript string is a [string]: a sequence of 8-bit code units.
    - Indices, line numbers, positions, timestamps and counters are [nat]:
      the plugin only ever produces them from [RegExp] match indices, cursor
      coordinates, [Date.now()] and increments.
    - A JavaScript [Map] is an association list in insertion order with
      pairwise distinct keys ([JsMap]); a [Set] of strings is a list without
      duplicates.
    - An [async] method is cut at its [await]s: the code between two
      suspension points is one function, and the interleavings are the
      traces of a step relation ([Engine.step]).
    - [new URL], [decodeURIComponent], [fetch], the console, timers and
      the editor belong to the host: the first two are a parameter
      ([Platform.t]), the network and the timers are a [Resolver.world],
      the editor is a value ([Editor.t]).

    The file has three parts: the embedding of the source, the vocabulary
    in which the properties are stated, and the properties with their
    proofs. *)

From Stdlib Require Import String Ascii List Arith Lia Bool PeanoNat.
From Stdlib Require Import DecimalString DecimalNat Sorted.
From Equations Require Import Equations.
Import ListNotations.
Open Scope list_scope.
Open Scope string_scope.

(* ================================================================== *)
(** * Definitions *)
(* ================================================================== *)

(** ** The part of the JavaScript string library the plugin uses *)

Module JsString.

(** [WhiteSpace] and [LineTerminator] code units below 256: what the
    regular-expression class [\s] matches and what [trim] removes. *)
Definition is_space (c : ascii) : bool :=
  let n := nat_of_ascii c in
  (Nat.leb 9 n && Nat.leb n 13) || Nat.eqb n 32 || Nat.eqb n 160.

Fixpoint rev_string_onto (s acc : string) : string :=
  match s with
  | EmptyString => acc
  | String c r => rev_string_onto r (String c acc)
  end.

Definition rev_string (s : string) : string := rev_string_onto s "".

Fixpoint trimStart (s : string) : string :=
  match s with
  | EmptyString => EmptyString
  | String c r => if is_space c then trimStart r else s
  end.

Definition trimEnd (s : string) : string :=
  rev_string (trimStart (rev_string s)).

(** [s.trim()] *)
Definition trim (s : string) : string := trimEnd (trimStart s).

(** [s.startsWith(p)] *)
Fixpoint startsWith (p s : string) : bool :=
  match p, s with
  | EmptyString, _ => true
  | String _ _, EmptyString => false
  | String a p', String b s' => Ascii.eqb a b && startsWith p' s'
  end.

Fixpoint drop (n : nat) (s : string) : string :=
  match n, s with
  | 0, _ => s
  | S _, EmptyString => EmptyString
  | S n', String _ r => drop n' r
  end.

Fixpoint take (n : nat) (s : string) : string :=
  match n, s with
  | 0, _ => EmptyString
  | S _, EmptyString => EmptyString
  | S n', String c r => String c (take n' r)
  end.

(** [s.substring(a)] and [s.substring(0, b)] for non-negative integers:
    both clamp to the length of [s]. *)
Definition substring_from (a : nat) (s : string) : string := drop a s.
Definition substring_to (b : nat) (s : string) : string := take b s.

(** First index [k >= 0] of [s] at which [p] starts, counted from [base]. *)
Fixpoint search (p s : string) (base : nat) : option nat :=
  if startsWith p s then Some base
  else match s with
       | EmptyString => None
       | String _ r => search p r (S base)
       end.

(** [s.indexOf(p, from)] for a non-negative integer [from]; [None] is
    the result [-1].  [from] is clamped to the length of [s]. *)
Definition indexOf (s p : string) (from : nat) : option nat :=
  let from' := Nat.min from (String.length s) in
  search p (drop from' s) from'.

(** [s.includes(p)] *)
Definition includes (s p : string) : bool :=
  match indexOf s p 0 with Some _ => true | None => false end.

(** [s.split(sep)] for a one-character separator. *)
Fixpoint split_onto (sep : ascii) (s : string) (cur : string) : list string :=
  match s with
  | EmptyString => [rev_string cur]
  | String c r =>
      if Ascii.eqb c sep then rev_string cur :: split_onto sep r ""
      else split_onto sep r (String c cur)
  end.

Definition split (sep : ascii) (s : string) : list string :=
  split_onto sep s "".

(** [parts.join(sep)] *)
Definition join (sep : string) (parts : list string) : string :=
  String.concat sep parts.

(** [parts.pop()]: the last element, [None] for [undefined]. *)
Definition pop (parts : list string) : option string :=
  match rev parts with
  | [] => None
  | x :: _ => Some x
  end.

(** [s.replace(/[-_]/g, " ")] *)
Fixpoint map_chars (f : ascii -> ascii) (s : string) : string :=
  match s with
  | EmptyString => EmptyString
  | String c r => String (f c) (map_chars f r)
  end.

Definition is_separator (c : ascii) : bool :=
  Ascii.eqb c "-" || Ascii.eqb c "_".

Definition separators_to_spaces (s : string) : string :=
  map_chars (fun c => if is_separator c then " "%char else c) s.

(** ASCII lower-casing, for the [i] flag of a pattern made of ASCII
    letters. *)
Definition lower (c : ascii) : ascii :=
  let n := nat_of_ascii c in
  if Nat.leb 65 n && Nat.leb n 90 then ascii_of_nat (n + 32) else c.

Definition to_lower (s : string) : string := map_chars lower s.

(** Decimal rendering of a number inside a template literal. *)
Definition of_nat (n : nat) : string :=
  NilEmpty.string_of_uint (Nat.to_uint n).

End JsString.

(** ** [Map<string, V>]: insertion-ordered, distinct keys *)

Module JsMap.
Section WithValue.
Context {V : Type}.

Definition t := list (string * V).

Definition empty : t := [].

Fixpoint get (k : string) (m : t) : option V :=
  match m with
  | [] => None
  | (k', v) :: r => if String.eqb k' k then Some v else get k r
  end.

Definition has (k : string) (m : t) : bool :=
  match get k m with Some _ => true | None => false end.

(** [m.set(k, v)]: an existing key keeps its place, a new key goes
    to the end. *)
Fixpoint set (k : string) (v : V) (m : t) : t :=
  match m with
  | [] => [(k, v)]
  | (k', v') :: r =>
      if String.eqb k' k then (k', v) :: r else (k', v') :: set k v r
  end.

Fixpoint delete (k : string) (m : t) : t :=
  match m with
  | [] => []
  | (k', v') :: r =>
      if String.eqb k' k then r else (k', v') :: delete k r
  end.

Definition size (m : t) : nat := List.length m.

Definition keys (m : t) : list string := List.map fst m.

(** [m.keys().next().value]; [None] is [undefined]. *)
Definition first_key (m : t) : option string :=
  match m with
  | [] => None
  | (k, _) :: _ => Some k
  end.

(** [m.delete(m.keys().next().value)]; deleting [undefined] does
    nothing. *)
Definition delete_opt (k : option string) (m : t) : t :=
  match k with
  | Some k => delete k m
  | None => m
  end.
End WithValue.
Arguments t : clear implicits.
End JsMap.

(** ** Title cache ([urlCache], [MAX_CACHE_SIZE], [updateCache]) *)

Module Cache.

Definition MAX_CACHE_SIZE : nat := 1000.

Definition cache := JsMap.t string.

Definition updateCache (url title : string) (urlCache : cache) : cache :=
  let urlCache1 :=
    if Nat.leb MAX_CACHE_SIZE (JsMap.size urlCache)
    then JsMap.delete_opt (JsMap.first_key urlCache) urlCache
    else urlCache in
  JsMap.set url title urlCache1.

End Cache.

(** ** URL matcher ([findURLsInText]) *)

Module Matcher.
Import JsString.

Record URLMatch := mkURLMatch { url : string; index : nat }.

(** The class [[^\s)]]. *)
Definition url_char (c : ascii) : bool :=
  negb (is_space c) && negb (Ascii.eqb c ")").

(** The longest prefix made of [url_char]s: what the greedy
    [[^\s)]+] consumes. *)
Fixpoint url_chars (s : string) : string :=
  match s with
  | EmptyString => EmptyString
  | String c r => if url_char c then String c (url_chars r) else EmptyString
  end.

(** [https?:\/\/[^\s)]+] anchored at the start of [s]: the matched text.
    After [http], the optional [s] is taken when present; backtracking
    to the empty alternative then needs [:] where the [s] stands, and
    fails. *)
Definition match_core (s : string) : option string :=
  let scheme :=
    if startsWith "https://" s then Some "https://"
    else if startsWith "http://" s then Some "http://"
    else None in
  match scheme with
  | None => None
  | Some sch =>
      match url_chars (drop (String.length sch) s) with
      | EmptyString => None
      | body => Some (sch ++ body)
      end
  end.

(** The lookbehind [(?<!\]\()] at position [i]: true when the two code
    units before [i] are [](]. *)
Definition preceded_by_link_open (text : string) (i : nat) : bool :=
  Nat.leb 2 i && startsWith "](" (drop (i - 2) text).

(** The whole pattern tried at position [i]. *)
Definition match_at (text : string) (i : nat) : option string :=
  if preceded_by_link_open text i then None
  else match_core (drop i text).

(** The first position in [i, i + n] at which the pattern matches. *)
Fixpoint exec_from (text : string) (i n : nat) : option (string * nat) :=
  match match_at text i with
  | Some m => Some (m, i)
  | None =>
      match n with
      | 0 => None
      | S n' => exec_from text (S i) n'
      end
  end.

(** [urlRegex.exec(text)] with [urlRegex.lastIndex = lastIndex]:
    the match and its index, or [None] for [null]. *)
Definition exec (text : string) (lastIndex : nat)
  : option (string * nat) :=
  if Nat.ltb (String.length text) lastIndex then None
  else exec_from text lastIndex (String.length text - lastIndex).

(** A successful [exec] sets [lastIndex] to the end of the match. *)
Definition next_lastIndex (r : string * nat) : nat :=
  snd r + String.length (fst r).

Definition inspect {A} (a : A) : {b | a = b} := exist _ a eq_refl.

(** The [while ((match = urlRegex.exec(text)) !== null)] loop: each
    match is pushed with its text trimmed. *)
Equations? exec_loop (text : string) (lastIndex : nat) : list URLMatch
  by wf (S (String.length text) - lastIndex) lt :=
  exec_loop text lastIndex with inspect (exec text lastIndex) => {
    | exist _ None _ := [];
    | exist _ (Some r) _ :=
        mkURLMatch (trim (fst r)) (snd r)
          :: exec_loop text (next_lastIndex r) }.
Proof.
  (* A match is not empty and ends inside the text, so [lastIndex]
     grows and stays within the text. *)
  assert (Happend : forall a b,
             String.length (a ++ b) = String.length a + String.length b).
  { induction a as [|c a IH]; simpl; intros b; [reflexivity | now rewrite IH]. }
  assert (Hdrop : forall k t, String.length (drop k t) = String.length t - k).
  { induction k as [|k IH]; intros [|c t]; simpl; auto. }
  assert (Hchars : forall t, String.length (url_chars t) <= String.length t).
  { induction t as [|c t IH]; simpl; [lia|].
    destruct (url_char c); simpl; lia. }
  assert (Hat : forall i m,
             match_at text i = Some m ->
             0 < String.length m /\
             i + String.length m <= Nat.max i (String.length text)).
  { intros i m. unfold match_at, match_core.
    destruct (preceded_by_link_open text i); [discriminate|].
    destruct (startsWith "https://" (drop i text));
      [|destruct (startsWith "http://" (drop i text)); [|discriminate]].
    - pose proof (Hchars (drop (String.length "https://") (drop i text))) as H.
      destruct (url_chars _); [discriminate|].
      intros [= <-]. rewrite ?Happend. rewrite !Hdrop in H.
      simpl in *. lia.
    - pose proof (Hchars (drop (String.length "http://") (drop i text))) as H.
      destruct (url_chars _); [discriminate|].
      intros [= <-]. rewrite ?Happend. rewrite !Hdrop in H.
      simpl in *. lia. }
  assert (Hfrom : forall k i m j,
             exec_from text i k = Some (m, j) ->
             i <= j /\ 0 < String.length m /\
             j + String.length m <= Nat.max i (String.length text)).
  { induction k as [|k IH]; intros i m j; simpl;
      destruct (match_at text i) as [m'|] eqn:E; intros H;
      try discriminate.
    - injection H as -> ->. apply Hat in E. lia.
    - injection H as -> ->. apply Hat in E. lia.
    - apply IH in H. lia. }
  unfold exec in e.
  destruct (Nat.ltb_spec (String.length text) lastIndex) as [Hlt|Hge];
    [discriminate|].
  match type of e with
  | _ = Some (?m, ?j) => apply (Hfrom _ _ m j) in e
  end.
  unfold next_lastIndex. simpl fst. simpl snd.
  match goal with
  | |- context [?j + String.length ?m] =>
      destruct (j + String.length m) eqn:Enext
  end; destruct lastIndex; lia.
Qed.

Definition findURLsInText (text : string) : list URLMatch :=
  exec_loop text 0.

End Matcher.

(** ** Platform built-ins used by the title fallback

    [new URL(s)] and [decodeURIComponent(s)] belong to the JavaScript
    platform, not to the plugin: the embedding takes them as a parameter.
    Both may throw; [None] stands for the exception. *)

Module Platform.

Record URLObj := mkURL { pathname : string; hostname : string }.

Record t := mk {
  parseURL : string -> option URLObj;
  decodeURIComponent : string -> option string
}.

End Platform.

(** ** URL-derived fallback title ([getTitleFromURL]) *)

Module Fallback.
Import JsString.

(** [h.replace(/^www\./, "")] *)
Definition strip_www (h : string) : string :=
  if startsWith "www." h then drop 4 h else h.

(** The alternatives of [\.(html|php|aspx?)$], in lower case. *)
Definition is_extension (s : string) : bool :=
  String.eqb s ".html" || String.eqb s ".php"
  || String.eqb s ".aspx" || String.eqb s ".asp".

(** [s.replace(/\.(html|php|aspx?)$/i, "")]: the pattern is tried at each
    position from the left; it is anchored at the end of [s], so a match
    removes the rest of the string. *)
Fixpoint strip_extension (s : string) : string :=
  if is_extension (to_lower s) then EmptyString
  else match s with
       | EmptyString => EmptyString
       | String c r => String c (strip_extension r)
       end.

(** [.replace(/[_-]/g, " ").split(" ").map((word) => word.trim())
     .join(" ").trim()] *)
Definition tidy (s : string) : string :=
  trim (join " " (List.map trim (split " " (separators_to_spaces s)))).

(** [x || ""] for the result of [pop()]. *)
Definition or_empty (x : option string) : string :=
  match x with
  | Some s => s
  | None => EmptyString
  end.

Definition getTitleFromURL (P : Platform.t) (url : string) : string :=
  match Platform.parseURL P url with
  | None => url                                      (* catch (e) *)
  | Some urlObj =>
      let pathTitle := or_empty (pop (split "/" (Platform.pathname urlObj))) in
      match Platform.decodeURIComponent P pathTitle with
      | None => url                                  (* catch (e) *)
      | Some decoded =>
          let pathTitle := separators_to_spaces decoded in
          let pathTitle :=
            if String.eqb pathTitle "" || String.eqb pathTitle "/"
            then strip_www (Platform.hostname urlObj)
            else pathTitle in
          let pathTitle := tidy (strip_extension pathTitle) in
          if String.eqb pathTitle "" then Platform.hostname urlObj
          else pathTitle
      end
  end.

End Fallback.

(** ** A reference platform for closed examples

    [Reference.platform] stands in for [new URL] and [decodeURIComponent]
    in the closed examples only; no general statement rests on it.  It
    agrees with the WHATWG URL parser and with [decodeURIComponent] on
    plain web addresses and nowhere else: a lower-case [http://] or
    [https://] scheme, a host without user information and without a
    port, a path without backslashes and without dot segments, and no
    escape from [%80] on.  Outside of these it differs from the platform:
    it keeps a backslash and a dot segment in the path and a port in the
    host name, and it rejects every escape from [%80] on. *)

Module Reference.
Import JsString.

Definition is_delimiter (stops : string) (c : ascii) : bool :=
  match String.index 0 (String c EmptyString) stops with
  | Some _ => true
  | None => false
  end.

Fixpoint until (stops : string) (s : string) : string :=
  match s with
  | EmptyString => EmptyString
  | String c r =>
      if is_delimiter stops c then EmptyString else String c (until stops r)
  end.

Definition parseURL (s : string) : option Platform.URLObj :=
  let rest :=
    if startsWith "https://" s then Some (drop 8 s)
    else if startsWith "http://" s then Some (drop 7 s)
    else None in
  match rest with
  | None => None
  | Some rest =>
      let host := until "/?#" rest in
      let path := until "?#" (drop (String.length host) rest) in
      if String.eqb host "" then None
      else Some (Platform.mkURL (if String.eqb path "" then "/" else path)
                                (to_lower host))
  end.

Definition hex_value (c : ascii) : option nat :=
  let n := nat_of_ascii c in
  if Nat.leb 48 n && Nat.leb n 57 then Some (n - 48)
  else if Nat.leb 65 n && Nat.leb n 70 then Some (n - 55)
  else if Nat.leb 97 n && Nat.leb n 102 then Some (n - 87)
  else None.

Fixpoint decodeURIComponent (s : string) : option string :=
  match s with
  | EmptyString => Some EmptyString
  | String "%" (String a (String b r)) =>
      match hex_value a, hex_value b with
      | Some h, Some l =>
          if Nat.ltb (16 * h + l) 128
          then option_map (String (ascii_of_nat (16 * h + l)))
                          (decodeURIComponent r)
          else None
      | _, _ => None
      end
  | String "%" _ => None
  | String c r => option_map (String c) (decodeURIComponent r)
  end.

Definition platform : Platform.t := Platform.mk parseURL decodeURIComponent.

End Reference.

(** ** Title resolver ([fetcher], [fetchPageTitleWithRetry])

    The resolver talks to the network and to the console and waits on
    timers.  Its embedding is a state-and-exception monad over a [world]:
    the network answers the n-th [fetch] call as [network n url] says, and
    every effect is appended to a trace. *)

Module Resolver.
Import JsString.

Record error := mkError { is_Error : bool; message : string }.

Inductive outcome (A : Type) : Type :=
| Return (a : A)
| Throw (e : error).
Arguments Return {A} a.
Arguments Throw {A} e.

(** The fields of the embed service's JSON answer that the code reads;
    [None] is a missing field. *)
Record EmbedData := mkEmbedData {
  title : option string;
  provider_name : option string
}.

Record Response := mkResponse {
  ok : bool;
  opaque : bool;                      (* response.type === "opaque" *)
  json : outcome EmbedData;           (* await response.json() *)
  text : outcome string               (* await response.text() *)
}.

Inductive event :=
| Fetch (url : string)
| Wait (ms : nat)
| Console (level : string).

Record world := mkWorld {
  network : nat -> string -> outcome Response;
  calls : nat;
  trace : list event
}.

Definition M (A : Type) : Type := world -> outcome A * world.

Definition ret {A} (a : A) : M A := fun w => (Return a, w).

Definition bind {A B} (m : M A) (k : A -> M B) : M B :=
  fun w =>
    match m w with
    | (Return a, w1) => k a w1
    | (Throw e, w1) => (Throw e, w1)
    end.

Definition try_catch {A} (m : M A) (handler : error -> M A) : M A :=
  fun w =>
    match m w with
    | (Return a, w1) => (Return a, w1)
    | (Throw e, w1) => handler e w1
    end.

Definition settle {A} (o : outcome A) : M A := fun w => (o, w).

Definition emit (e : event) : M unit :=
  fun w => (Return tt, mkWorld (network w) (calls w) (trace w ++ [e])%list).

Notation "x <- m ;; k" := (bind m (fun x => k))
  (at level 61, m at next level, right associativity).
Notation "m ;;; k" := (bind m (fun _ => k))
  (at level 61, right associativity).

(** [await fetch(url, ...)] *)
Definition fetch (url : string) : M Response :=
  fun w =>
    (network w (calls w) url,
     mkWorld (network w) (S (calls w)) (trace w ++ [Fetch url])%list).

(** [await new Promise((resolve) => setTimeout(resolve, ms))] *)
Definition sleep (ms : nat) : M unit := emit (Wait ms).

Definition console (level : string) : M unit := emit (Console level).

Definition fetcher (url : string) : M Response :=
  console "log" ;;; fetch url.

(** Truthiness of an optional string field. *)
Definition truthy (x : option string) : bool :=
  match x with
  | Some s => negb (String.eqb s "")
  | None => false
  end.

Definition or_empty (x : option string) : string :=
  match x with
  | Some s => s
  | None => EmptyString
  end.

Definition is_line_terminator (c : ascii) : bool :=
  Ascii.eqb c "010" || Ascii.eqb c "013".

Fixpoint startsWith_ci (p s : string) : bool :=
  match p, s with
  | EmptyString, _ => true
  | String _ _, EmptyString => false
  | String a p', String b s' =>
      Ascii.eqb (lower a) (lower b) && startsWith_ci p' s'
  end.

(** The lazy group [(.*?)] followed by the closing tag: the shortest run
    of characters other than line terminators that the closing tag
    follows. *)
Fixpoint title_body (s : string) : option string :=
  if startsWith_ci "</title>" s then Some EmptyString
  else match s with
       | EmptyString => None
       | String c r =>
           if is_line_terminator c then None
           else option_map (String c) (title_body r)
       end.

(** [html.match(/<title>(.*?)<\/title>/i)]: capture group 1 of the
    leftmost match. *)
Fixpoint match_title (html : string) : option string :=
  let here :=
    if startsWith_ci "<title>" html then title_body (drop 7 html) else None in
  match here with
  | Some body => Some body
  | None =>
      match html with
      | EmptyString => None
      | String _ r => match_title r
      end
  end.

Section WithPlatform.
Variable P : Platform.t.

(** [this.getTitleFromURL(url)], with its [console.info]. *)
Definition getTitleFromURL (url : string) : M string :=
  console "info" ;;; ret (Fallback.getTitleFromURL P url).

(** The embed lookup at the head of [fetchPageTitleWithRetry]:
    [Some t] when the method returns [t] from inside the [try]. *)
Definition oEmbed (url : string) : M (option string) :=
  try_catch
    (oEmbedResponse <- fetcher ("https://noembed.com/embed?url=" ++ url) ;;
     if ok oEmbedResponse then
       data <- settle (json oEmbedResponse) ;;
       if truthy (title data) && truthy (provider_name data)
       then ret (Some (or_empty (provider_name data) ++ " - "
                         ++ or_empty (title data)))
       else ret None
     else ret None)
    (fun e => console "warn" ;;; ret None).

(** The body of one loop iteration, up to the outer [catch]. *)
Definition attempt_body (url : string) : M string :=
  early <-
    try_catch
      (response <- fetch url ;;
       if opaque response then
         t <- getTitleFromURL url ;; ret (Some t)
       else if ok response then
         html <- settle (text response) ;;
         match match_title html with
         | Some captured => ret (Some (trim captured))
         | None => ret None
         end
       else ret None)
      (fun e => console "warn" ;;; ret None) ;;
  match early with
  | Some t => ret t
  | None => getTitleFromURL url
  end.

(** [for (let attempt = 0; attempt <= retries; attempt++)], with
    [remaining] iterations left. *)
Fixpoint attempts (url : string) (retries delay remaining attempt : nat)
  : M string :=
  match remaining with
  | 0 => ret url
  | S remaining' =>
      try_catch (attempt_body url)
        (fun error =>
           if Nat.eqb attempt retries then settle (Throw error)
           else
             console "warn" ;;;
             sleep (delay * 2 ^ attempt) ;;;
             attempts url retries delay remaining' (S attempt))
  end.

Definition fetchPageTitleWithRetry (url : string) (retries delay : nat)
  : M string :=
  early <- oEmbed url ;;
  match early with
  | Some t => ret t
  | None => attempts url retries delay (S retries) 0
  end.

(** The default arguments [retries = 3, delay = 1000]. *)
Definition resolve (url : string) : M string :=
  fetchPageTitleWithRetry url 3 1000.

End WithPlatform.

(** A network on which every [fetch] rejects, as a browser does when the
    connection cannot be made. *)
Definition failed_to_fetch : error := mkError true "Failed to fetch".

Definition unreachable_network : nat -> string -> outcome Response :=
  fun _ _ => Throw failed_to_fetch.

Definition fresh_world (net : nat -> string -> outcome Response) : world :=
  mkWorld net 0 [].

End Resolver.

(** ** The editor

    The host's text buffer, as far as the plugin touches it: lines
    addressed by number, and a cursor. *)

Module Editor.
Import JsString.

Record t := mk {
  lines : list string;
  cursor_line : nat;
  cursor_ch : nat
}.

(** [editor.getLine(n)]; [None] when there is no such line. *)
Definition getLine (n : nat) (ed : t) : option string := nth_error (lines ed) n.

Fixpoint replace_nth (n : nat) (x : string) (l : list string) : list string :=
  match n, l with
  | _, [] => []
  | 0, _ :: r => x :: r
  | S n', y :: r => y :: replace_nth n' x r
  end.

(** [editor.setLine(n, text)] *)
Definition setLine (n : nat) (text : string) (ed : t) : t :=
  mk (replace_nth n text (lines ed)) (cursor_line ed) (cursor_ch ed).

(** [editor.replaceSelection(text)] with an empty selection: [text] is
    inserted at the cursor, and the cursor moves to its end. *)
Definition replaceSelection (text : string) (ed : t) : t :=
  let line := nth (cursor_line ed) (lines ed) "" in
  let pieces :=
    split "010" (take (cursor_ch ed) line ++ text ++ drop (cursor_ch ed) line) in
  let inserted := split "010" text in
  mk (firstn (cursor_line ed) (lines ed) ++ pieces
        ++ skipn (S (cursor_line ed)) (lines ed))%list
     (cursor_line ed + (List.length inserted - 1))
     (match inserted with
      | [only] => cursor_ch ed + String.length only
      | _ => String.length (last inserted "")
      end).

End Editor.

(** ** The plugin ([URLEnhancerPlugin]) *)

Module Engine.
Import JsString.
Import Resolver.

Record ProcessingTask := mkTask {
  url : string;
  lineNumber : nat;
  position : nat;
  timestamp : nat
}.

Record RetryQueueItem := mkItem {
  task : ProcessingTask;
  retries : nat;
  nextRetry : nat
}.

(** The [processQueue] coroutine between two suspension points. *)
Inductive drainer :=
| DrainAwait (t : ProcessingTask) (key : string)
    (* inside [task()]: [processURL] awaits [fetchPageTitleWithRetry] *)
| DrainPause.
    (* awaits the 100 ms timer *)

(** The [processRetryQueue] coroutine between two suspension points. *)
Inductive retrier :=
| RetrySleep
    (* waits for the 5000 ms timer *)
| RetryAwait (rest : list (string * RetryQueueItem))
             (key : string) (item : RetryQueueItem).
    (* inside the [for] loop: [processURL] awaits the resolver; [rest]
       are the entries of the snapshot still to be visited *)

Record state := mkState {
  (* fields of the plugin object *)
  urlCache : Cache.cache;
  processingUrls : list string;
  processingQueue : list ProcessingTask;
  isProcessing : bool;
  debounceTimeout : option nat;        (* deadline of the armed timer *)
  retryQueue : JsMap.t RetryQueueItem;
  (* the host *)
  editor : Editor.t;
  editorActive : bool;                 (* [getActiveEditor()] finds it *)
  errorLog : list string;              (* [console.error] calls *)
  (* the coroutines that are suspended *)
  drainers : list drainer;
  scheduler : retrier
}.

Definition DEBOUNCE_DELAY : nat := 500.

Definition with_urlCache (f : Cache.cache -> Cache.cache) (s : state) :=
  mkState (f (urlCache s)) (processingUrls s) (processingQueue s)
    (isProcessing s) (debounceTimeout s) (retryQueue s) (editor s)
    (editorActive s) (errorLog s) (drainers s) (scheduler s).

Definition with_processingUrls (f : list string -> list string) (s : state) :=
  mkState (urlCache s) (f (processingUrls s)) (processingQueue s)
    (isProcessing s) (debounceTimeout s) (retryQueue s) (editor s)
    (editorActive s) (errorLog s) (drainers s) (scheduler s).

Definition with_processingQueue
  (f : list ProcessingTask -> list ProcessingTask) (s : state) :=
  mkState (urlCache s) (processingUrls s) (f (processingQueue s))
    (isProcessing s) (debounceTimeout s) (retryQueue s) (editor s)
    (editorActive s) (errorLog s) (drainers s) (scheduler s).

Definition with_isProcessing (b : bool) (s : state) :=
  mkState (urlCache s) (processingUrls s) (processingQueue s)
    b (debounceTimeout s) (retryQueue s) (editor s)
    (editorActive s) (errorLog s) (drainers s) (scheduler s).

Definition with_debounceTimeout (d : option nat) (s : state) :=
  mkState (urlCache s) (processingUrls s) (processingQueue s)
    (isProcessing s) d (retryQueue s) (editor s)
    (editorActive s) (errorLog s) (drainers s) (scheduler s).

Definition with_retryQueue
  (f : JsMap.t RetryQueueItem -> JsMap.t RetryQueueItem) (s : state) :=
  mkState (urlCache s) (processingUrls s) (processingQueue s)
    (isProcessing s) (debounceTimeout s) (f (retryQueue s)) (editor s)
    (editorActive s) (errorLog s) (drainers s) (scheduler s).

Definition with_editor (f : Editor.t -> Editor.t) (s : state) :=
  mkState (urlCache s) (processingUrls s) (processingQueue s)
    (isProcessing s) (debounceTimeout s) (retryQueue s) (f (editor s))
    (editorActive s) (errorLog s) (drainers s) (scheduler s).

Definition with_editorActive (b : bool) (s : state) :=
  mkState (urlCache s) (processingUrls s) (processingQueue s)
    (isProcessing s) (debounceTimeout s) (retryQueue s) (editor s)
    b (errorLog s) (drainers s) (scheduler s).

Definition with_errorLog (f : list string -> list string) (s : state) :=
  mkState (urlCache s) (processingUrls s) (processingQueue s)
    (isProcessing s) (debounceTimeout s) (retryQueue s) (editor s)
    (editorActive s) (f (errorLog s)) (drainers s) (scheduler s).

Definition with_drainers (f : list drainer -> list drainer) (s : state) :=
  mkState (urlCache s) (processingUrls s) (processingQueue s)
    (isProcessing s) (debounceTimeout s) (retryQueue s) (editor s)
    (editorActive s) (errorLog s) (f (drainers s)) (scheduler s).

Definition with_scheduler (r : retrier) (s : state) :=
  mkState (urlCache s) (processingUrls s) (processingQueue s)
    (isProcessing s) (debounceTimeout s) (retryQueue s) (editor s)
    (editorActive s) (errorLog s) (drainers s) r.

(** *** Keys *)

(** [`${task.url}-${task.lineNumber}`] *)
Definition batch_key (t : ProcessingTask) : string :=
  url t ++ "-" ++ of_nat (lineNumber t).

(** [`${task.url}-${task.lineNumber}-${task.position}`] *)
Definition retry_key (t : ProcessingTask) : string :=
  url t ++ "-" ++ of_nat (lineNumber t) ++ "-" ++ of_nat (position t).

(** [`${task.url}-${task.lineNumber}-${task.position}-${task.timestamp}`] *)
Definition inflight_key (t : ProcessingTask) : string :=
  url t ++ "-" ++ of_nat (lineNumber t) ++ "-" ++ of_nat (position t)
    ++ "-" ++ of_nat (timestamp t).

(** *** [Set<string>] *)

Definition set_has (k : string) (l : list string) : bool :=
  existsb (String.eqb k) l.

Definition set_add (k : string) (l : list string) : list string :=
  if set_has k l then l else (l ++ [k])%list.

Definition set_delete (k : string) (l : list string) : list string :=
  List.filter (fun x => negb (String.eqb k x)) l.

(** *** [replaceURLWithMarkdown] *)

Definition falsy (line : option string) : bool :=
  match line with
  | None => true
  | Some l => String.eqb l ""
  end.

Definition replaceURLWithMarkdown
  (t : ProcessingTask) (markdownLink : string) (ed : Editor.t) : Editor.t :=
  match Editor.getLine (lineNumber t) ed with
  | None => ed
  | Some line =>
      if String.eqb line "" then ed
      else
        let before := substring_to (position t) line in
        let after := substring_from (position t + String.length (url t)) line in
        Editor.setLine (lineNumber t) (before ++ markdownLink ++ after) ed
  end.

(** [`[${title}](${task.url})`] *)
Definition markdownLink (title : string) (t : ProcessingTask) : string :=
  "[" ++ title ++ "](" ++ url t ++ ")".

(** *** [processURL], cut at its [await] *)

(** [!currentLine || currentLine.indexOf(task.url, task.position) !==
    task.position] *)
Definition stale (t : ProcessingTask) (ed : Editor.t) : bool :=
  match Editor.getLine (lineNumber t) ed with
  | None => true
  | Some currentLine =>
      String.eqb currentLine ""
      || negb (match indexOf currentLine (url t) (position t) with
               | Some i => Nat.eqb i (position t)
               | None => false
               end)
  end.

Inductive begun :=
| Finished (r : outcome unit) (s : state)
    (* [processURL] settled without suspending *)
| Awaiting (s : state).
    (* [processURL] is suspended in [fetchPageTitleWithRetry(task.url)] *)

(** The [finally] block. *)
Definition release (key : string) (s : state) : state :=
  with_processingUrls (set_delete key) s.

Definition processURL_begin (s : state) (t : ProcessingTask) (key : string)
  : begun :=
  let s := with_processingUrls (set_add key) s in
  if stale t (editor s) then Finished (Return tt) (release key s)
  else if JsMap.has (url t) (urlCache s) then
    match JsMap.get (url t) (urlCache s) with
    | Some cachedTitle =>
        Finished (Return tt)
          (release key
             (with_editor
                (replaceURLWithMarkdown t (markdownLink cachedTitle t)) s))
    | None =>
        Finished (Throw (mkError true "Invalid cache entry")) (release key s)
    end
  else Awaiting s.

(** The rest of [processURL], once the resolver has settled with [r]. *)
Definition processURL_resume
  (s : state) (t : ProcessingTask) (key : string) (r : outcome string)
  : outcome unit * state :=
  match r with
  | Return title =>
      let s := with_urlCache (Cache.updateCache (url t) title) s in
      let s := with_editor (replaceURLWithMarkdown t (markdownLink title t)) s in
      (Return tt, release key s)
  | Throw e => (Throw e, release key s)
  end.

(** [processURL] run without interleaving, over a given resolver. *)
Definition processURL
  (resolver : string -> M string)
  (s : state) (t : ProcessingTask) (key : string)
  : world -> (outcome unit * state) * world :=
  fun w =>
    match processURL_begin s t key with
    | Finished r s1 => ((r, s1), w)
    | Awaiting s1 =>
        let '(r, w1) := resolver (url t) w in
        (processURL_resume s1 t key r, w1)
    end.

(** *** [addToRetryQueue] *)

Definition addToRetryQueue (now : nat) (t : ProcessingTask) (s : state)
  : state :=
  let key := retry_key t in
  let existing := JsMap.get key (retryQueue s) in
  let previous :=
    match existing with
    | Some item => retries item
    | None => 0
    end in
  let allowed :=
    match existing with
    | Some item => Nat.ltb (retries item) 3
    | None => true
    end in
  if allowed then
    with_retryQueue
      (JsMap.set key (mkItem t (previous + 1) (now + 2 ^ previous * 1000))) s
  else s.

(** *** The queued closure of [addToProcessingQueue] *)

(** Its [catch] block. *)
Definition task_catch (now : nat) (t : ProcessingTask) (e : error) (s : state)
  : state :=
  let s := with_errorLog (fun l => (l ++ [url t])%list) s in
  if is_Error e && includes (message e) "fetch"
  then addToRetryQueue now t s
  else s.

(** The closure up to its first suspension: the new state, and the key
    under which [processURL] is suspended, if it is. *)
Definition task_begin (now : nat) (t : ProcessingTask) (s : state)
  : state * option string :=
  let key := inflight_key t in
  if set_has key (processingUrls s) then (s, None)
  else
    match processURL_begin s t key with
    | Finished (Return _) s1 => (s1, None)
    | Finished (Throw e) s1 => (task_catch now t e s1, None)
    | Awaiting s1 => (s1, Some key)
    end.

(** The closure after the resolver has settled. *)
Definition task_resume
  (now : nat) (t : ProcessingTask) (key : string) (r : outcome string)
  (s : state) : state :=
  match processURL_resume s t key r with
  | (Return _, s1) => s1
  | (Throw e, s1) => task_catch now t e s1
  end.

(** *** [addToProcessingQueue] *)

(** [[...tasks].sort((a, b) => a.position - b.position)]: the sort is
    stable, so it is the insertion of each task behind the tasks that do
    not lie after it. *)
Fixpoint insert_by_position (t : ProcessingTask) (sorted : list ProcessingTask)
  : list ProcessingTask :=
  match sorted with
  | [] => [t]
  | u :: r =>
      if Nat.leb (position u) (position t)
      then u :: insert_by_position t r
      else t :: u :: r
  end.

Definition sort_by_position (tasks : list ProcessingTask)
  : list ProcessingTask :=
  fold_left (fun sorted t => insert_by_position t sorted) tasks [].

(** The [for (const task of sortedTasks)] loop that fills [uniqueTasks]. *)
Definition collect_unique (sortedTasks : list ProcessingTask)
  : JsMap.t ProcessingTask :=
  fold_left
    (fun uniqueTasks t =>
       let key := batch_key t in
       if JsMap.has key uniqueTasks then uniqueTasks
       else JsMap.set key t uniqueTasks)
    sortedTasks JsMap.empty.

(** [Array.from(uniqueTasks.values())] *)
Definition unique_tasks (tasks : list ProcessingTask) : list ProcessingTask :=
  List.map snd (collect_unique (sort_by_position tasks)).

(** One turn of the [while] loop of [processQueue], up to the next
    suspension; [None] when the loop ends. *)
Definition drain_next (now : nat) (s : state) : state * option drainer :=
  match processingQueue s with
  | [] => (with_isProcessing false s, None)
  | t :: rest =>
      let s := with_processingQueue (fun _ => rest) s in
      match task_begin now t s with
      | (s1, Some key) => (s1, Some (DrainAwait t key))
      | (s1, None) => (s1, Some DrainPause)
      end
  end.

Definition spawn (d : option drainer) (s : state) : state :=
  match d with
  | Some d => with_drainers (fun l => (l ++ [d])%list) s
  | None => s
  end.

(** A call of [processQueue()], up to its first suspension. *)
Definition processQueue (now : nat) (s : state) : state :=
  if isProcessing s || Nat.eqb (List.length (processingQueue s)) 0 then s
  else
    let '(s1, d) := drain_next now (with_isProcessing true s) in
    spawn d s1.

Definition addToProcessingQueue
  (now : nat) (tasks : list ProcessingTask) (s : state) : state :=
  let s := with_processingQueue (fun q => (q ++ unique_tasks tasks)%list) s in
  if isProcessing s then s else processQueue now s.

(** *** [handleChange] and [handlePaste] *)

(** The event handler proper only (re)arms the debounce timer. *)
Definition handleChange (now : nat) (s : state) : state :=
  with_debounceTimeout (Some (now + DEBOUNCE_DELAY)) s.

(** The callback the timer runs. *)
Definition handleChange_callback (now : nat) (s : state) : state :=
  let line := Editor.cursor_line (editor s) in
  match Editor.getLine line (editor s) with
  | None => s
  | Some currentLine =>
      if Nat.leb (String.length currentLine) 10 then s
      else
        let urlMatches := Matcher.findURLsInText currentLine in
        if Nat.eqb (List.length urlMatches) 0 then s
        else
          let processingTasks :=
            List.map
              (fun m => mkTask (Matcher.url m) line (Matcher.index m) now)
              urlMatches in
          addToProcessingQueue now processingTasks s
  end.

(** [pastedText] is [None] when the clipboard holds no text. *)
Definition handlePaste (now : nat) (pastedText : option string) (s : state)
  : state :=
  match pastedText with
  | None => s
  | Some pastedText =>
      if String.eqb pastedText "" then s
      else
        let urlMatches := Matcher.findURLsInText pastedText in
        if Nat.ltb 0 (List.length urlMatches) then
          let line := Editor.cursor_line (editor s) in
          let ch := Editor.cursor_ch (editor s) in
          let processingTasks :=
            List.map
              (fun m => mkTask (Matcher.url m) line (ch + Matcher.index m) now)
              urlMatches in
          let s := addToProcessingQueue now processingTasks s in
          with_editor (Editor.replaceSelection pastedText) s
        else s
  end.

(** *** [processRetryQueue] *)

Definition due (now : nat) (entry : string * RetryQueueItem) : bool :=
  Nat.leb (nextRetry (snd entry)) now.

(** What follows [await this.processURL(editor, item.task, key)] in the
    loop body: the deletion after it, or the [catch] block. *)
Definition retry_settled
  (key : string) (item : RetryQueueItem) (r : outcome unit) (s : state)
  : state :=
  match r with
  | Return _ => with_retryQueue (JsMap.delete key) s
  | Throw _ =>
      if Nat.leb 3 (retries item)
      then with_retryQueue (JsMap.delete key) s
      else s
  end.

(** The [for (const [key, item] of retries)] loop, up to the next
    suspension; at its end the timer is set and the coroutine sleeps. *)
Fixpoint retry_run (entries : list (string * RetryQueueItem)) (s : state)
  : state * retrier :=
  match entries with
  | [] => (s, RetrySleep)
  | (key, item) :: rest =>
      if editorActive s then
        match processURL_begin s (task item) key with
        | Awaiting s1 => (s1, RetryAwait rest key item)
        | Finished r s1 => retry_run rest (retry_settled key item r s1)
        end
      else retry_run rest s
  end.

Definition install (r : state * retrier) : state :=
  with_scheduler (snd r) (fst r).

(** A call of [processRetryQueue()], up to its first suspension. *)
Definition processRetryQueue (now : nat) (s : state) : state :=
  install (retry_run (List.filter (due now) (retryQueue s)) s).

(** [processRetryQueue] after the resolver has settled with [r]. *)
Definition retry_resume
  (rest : list (string * RetryQueueItem)) (key : string)
  (item : RetryQueueItem) (r : outcome string) (s : state) : state :=
  let '(o, s1) := processURL_resume s (task item) key r in
  install (retry_run rest (retry_settled key item o s1)).

(** *** The interleavings

    The plugin runs on one thread: between two suspension points a method
    runs to its end.  A step is one such run, started by the host (a change
    event, the debounce timer, a paste, an edit by the user, a change of
    focus) or by the completion of what a coroutine waits for (the
    resolver, the 100 ms pause, the 5000 ms timer).  The clock reading [now]
    of a step is given by the host.  An [await] on a promise that is
    already settled resumes before any other step and is not a step of its
    own.  The relation covers the life of the plugin between [onload] and
    [onunload]. *)

(** After [onload]: everything is empty, and the first call of
    [processRetryQueue] has found nothing and set its timer. *)
Definition initial (ed : Editor.t) : state :=
  mkState JsMap.empty [] [] false None JsMap.empty ed true [] [] RetrySleep.

Fixpoint remove_nth {A} (n : nat) (l : list A) : list A :=
  match n, l with
  | _, [] => []
  | 0, _ :: r => r
  | S n', x :: r => x :: remove_nth n' r
  end.

(** The drainer at index [i] awaited the resolver, which has settled with
    [r]: the closure finishes and the loop pauses. *)
Definition drainer_resolved
  (now : nat) (i : nat) (r : outcome string) (s : state) : option state :=
  match nth_error (drainers s) i with
  | Some (DrainAwait t key) =>
      Some (with_drainers (fun l => (remove_nth i l ++ [DrainPause])%list)
              (task_resume now t key r s))
  | _ => None
  end.

(** The drainer at index [i] paused, and its timer has fired: the loop
    takes its next turn. *)
Definition drainer_wakes (now : nat) (i : nat) (s : state) : option state :=
  match nth_error (drainers s) i with
  | Some DrainPause =>
      let '(s1, d) := drain_next now (with_drainers (remove_nth i) s) in
      Some (spawn d s1)
  | _ => None
  end.

Section Steps.

(** [resolves u r]: the resolver, asked for [u], can settle with [r]. *)
Variable resolves : string -> outcome string -> Prop.

Inductive step : state -> state -> Prop :=
| step_change now s :
    step s (handleChange now s)
| step_debounce now s deadline :
    debounceTimeout s = Some deadline -> deadline <= now ->
    step s (handleChange_callback now (with_debounceTimeout None s))
| step_paste now text s :
    step s (handlePaste now text s)
| step_edit ed s :
    step s (with_editor (fun _ => ed) s)
| step_focus b s :
    step s (with_editorActive b s)
| step_drain_resolved now i t key r s s' :
    nth_error (drainers s) i = Some (DrainAwait t key) ->
    resolves (url t) r ->
    drainer_resolved now i r s = Some s' ->
    step s s'
| step_drain_wakes now i s s' :
    drainer_wakes now i s = Some s' ->
    step s s'
| step_tick now s :
    scheduler s = RetrySleep ->
    step s (processRetryQueue now s)
| step_retry_resolved rest key item r s :
    scheduler s = RetryAwait rest key item ->
    resolves (url (task item)) r ->
    step s (retry_resume rest key item r s).

Inductive reachable : state -> Prop :=
| reachable_initial ed : reachable (initial ed)
| reachable_step s s' : reachable s -> step s s' -> reachable s'.

End Steps.

(** What the resolver of the source can answer for [u]: the result of
    [fetchPageTitleWithRetry(u)] on some network. *)
Definition source_resolver (P : Platform.t) (u : string) (r : outcome string)
  : Prop :=
  exists w, fst (resolve P u w) = r.

(** The plugin as it is: the engine over its own resolver. *)
Definition plugin_reachable (P : Platform.t) : state -> Prop :=
  reachable (source_resolver P).

(** A resolver about which nothing is assumed. *)
Definition any_resolver (u : string) (r : outcome string) : Prop := True.

(** The resolutions in flight: each suspended [processURL], with the task
    it works on. *)
Definition drainer_task (d : drainer) : list ProcessingTask :=
  match d with
  | DrainAwait t _ => [t]
  | DrainPause => []
  end.

Definition in_flight (s : state) : list ProcessingTask :=
  (flat_map drainer_task (drainers s)
   ++ match scheduler s with
      | RetryAwait _ _ item => [task item]
      | RetrySleep => []
      end)%list.

(** *** Runs without interleaving, over a given resolver *)

(** The queued closure. *)
Definition run_task
  (resolver : string -> M string) (now : nat) (t : ProcessingTask) (s : state)
  : world -> state * world :=
  fun w =>
    match task_begin now t s with
    | (s1, None) => (s1, w)
    | (s1, Some key) =>
        let '(r, w1) := resolver (url t) w in
        (task_resume now t key r s1, w1)
    end.

(** The loop of [processRetryQueue]. *)
Fixpoint run_retries
  (resolver : string -> M string)
  (entries : list (string * RetryQueueItem)) (s : state)
  : world -> state * world :=
  fun w =>
    match entries with
    | [] => (s, w)
    | (key, item) :: rest =>
        if editorActive s then
          let '((r, s1), w1) := processURL resolver s (task item) key w in
          run_retries resolver rest (retry_settled key item r s1) w1
        else run_retries resolver rest s w
    end.

(** One tick of the retry scheduler at time [now]. *)
Definition run_tick
  (resolver : string -> M string) (now : nat) (s : state)
  : world -> state * world :=
  run_retries resolver (List.filter (due now) (retryQueue s)) s.

(** A resolver that raises [e] whenever it is asked; each call leaves a
    [Fetch] in the trace. *)
Definition failing_resolver (e : error) : string -> M string :=
  fun u => emit (Fetch u) ;;; settle (Throw e).

End Engine.

(** ** Unloading ([onunload])

    The armed debounce timer is cleared and the fields of the plugin are
    reset.  Nothing in [onunload] reaches the coroutines of [processQueue]
    and [processRetryQueue] that are suspended, or the timer of the
    latter. *)

Module Unload.
Import Engine.

Definition onunload (s : state) : state :=
  let s := with_debounceTimeout None s in
  let s := with_processingQueue (fun _ => []) s in
  let s := with_processingUrls (fun _ => []) s in
  let s := with_urlCache (fun _ => JsMap.empty) s in
  let s := with_retryQueue (fun _ => JsMap.empty) s in
  with_isProcessing false s.

End Unload.

(* ================================================================== *)
(** * Vocabulary of the properties *)
(* ================================================================== *)

(** ** Strings *)

Module StringTerms.
Import JsString.

(** [u] occurs in [line] starting exactly at offset [p]. *)
Definition occurs_at (u : string) (p : nat) (line : string) : Prop :=
  exists before after,
    line = before ++ u ++ after /\ String.length before = p.

(** Every character of [s] passes the test [p]. *)
Fixpoint all_chars (p : ascii -> bool) (s : string) : Prop :=
  match s with
  | EmptyString => True
  | String c r => p c = true /\ all_chars p r
  end.

(** Tests on single characters. *)
Definition not_space (c : ascii) : bool := negb (is_space c).

(** [s] holds no [-]: the decimal rendering of a number does not. *)
Fixpoint no_dash (s : string) : Prop :=
  match s with
  | EmptyString => True
  | String c r => c <> "-"%char /\ no_dash r
  end.

Definition no_slash (c : ascii) : bool := negb (Ascii.eqb c "/").

Definition no_dot (c : ascii) : bool := negb (Ascii.eqb c ".").

End StringTerms.

(** ** Title cache *)

Module CacheTerms.
Import JsMap Cache.

(** A run of [updateCache] calls, starting from the cache [c]. *)
Definition fill (c : cache) (entries : list (string * string)) : cache :=
  fold_left (fun c e => updateCache (fst e) (snd e) c) entries c.

(** The cache after a step: what it was, or what it was with one more
    [updateCache]. *)
Definition cache_step (before after : cache) : Prop :=
  after = before \/ exists u title, after = updateCache u title before.

(** A run of [updateCache] calls on an initially empty cache. *)
Definition insert_all (entries : list (string * string)) : cache :=
  fill JsMap.empty entries.

(** Distinct URLs for tests: [url_n 7 = "https://e.org/7"]. *)
Definition url_n (n : nat) : string := "https://e.org/" ++ JsString.of_nat n.

(** The first [n] of them, each with a title. *)
Definition numbered_entries (n : nat) : list (string * string) :=
  List.map (fun i => (url_n i, "title")) (seq 0 n).

(** The strings of [l] are pairwise distinct. *)
Fixpoint distinctb (l : list string) : bool :=
  match l with
  | [] => true
  | x :: r => negb (existsb (String.eqb x) r) && distinctb r
  end.

End CacheTerms.

(** ** URL matcher *)

Module MatcherTerms.
Import JsString StringTerms Matcher.

(** The shape of a text the pattern matches in full: a scheme and a
    non-empty run of characters that are neither spaces nor [)]. *)
Definition url_token (u : string) : Prop :=
  exists body,
    (u = "http://" ++ body \/ u = "https://" ++ body) /\
    body <> "" /\ all_chars url_char body.

(** [pre] is empty or ends in a character that cannot be part of a
    match (a space or [)]); likewise for the start of [post]. *)
Definition boundary_before (pre : string) : Prop :=
  pre = "" \/ exists p c, pre = p ++ String c "" /\ url_char c = false.

Definition boundary_after (post : string) : Prop :=
  post = "" \/ exists c r, post = String c r /\ url_char c = false.

(** The claim of the specification for links, as it is worded: no
    reported occurrence lies inside a markdown link [[label](target)]. *)
Definition reports_nothing_inside_links : Prop :=
  forall pre label target post m,
    In m (findURLsInText (pre ++ "[" ++ label ++ "](" ++ target ++ ")" ++ post)) ->
    ~ (String.length pre <= index m /\
       index m + String.length (url m)
       <= String.length (pre ++ "[" ++ label ++ "](" ++ target ++ ")")).

End MatcherTerms.

(** ** Fallback title *)

Module FallbackTerms.
Import JsString StringTerms Fallback.

(** The last segment of [path] that is not empty; empty when there is
    none. *)
Definition last_nonempty_segment (path : string) : string :=
  or_empty (pop (List.filter (fun x => negb (String.eqb x ""))
                             (split "/" path))).

Definition ends_with (suffix s : string) : bool :=
  String.eqb (drop (String.length s - String.length suffix) s) suffix.

(** [s] without a final [.html], [.php] or [.aspx]. *)
Definition strip_listed_extension (s : string) : string :=
  let cut ext := take (String.length s - String.length ext) s in
  if ends_with ".html" s then cut ".html"
  else if ends_with ".aspx" s then cut ".aspx"
  else if ends_with ".php" s then cut ".php"
  else s.

(** The fallback title as the specification words it, to be compared
    with [Fallback.getTitleFromURL]: "take the last non-empty path segment;
    percent-decode it; replace the separators - and _ with spaces; strip
    the common extensions .html, .php, .aspx; if the segment is empty or
    the path is root, use the hostname minus a leading www. instead; return
    the cleaned text, or the hostname if cleaning produces an empty string,
    or the original input if it does not parse as a URL". *)
Definition specified_title (P : Platform.t) (url : string) : string :=
  match Platform.parseURL P url with
  | None => url
  | Some urlObj =>
      let segment := last_nonempty_segment (Platform.pathname urlObj) in
      match Platform.decodeURIComponent P segment with
      | None => url
      | Some decoded =>
          let text := strip_listed_extension (separators_to_spaces decoded) in
          let text :=
            if String.eqb segment ""
            then strip_www (Platform.hostname urlObj) else text in
          let cleaned := trim text in
          if String.eqb cleaned "" then Platform.hostname urlObj
          else cleaned
      end
  end.

(** [seg] is what follows the last [/] of [path], or all of [path] when it
    has no [/]. *)
Definition last_segment (path seg : string) : Prop :=
  all_chars no_slash seg /\
  (path = seg \/ exists pre, path = pre ++ "/" ++ seg).

(** [ext] is [.html], [.php], [.asp] or [.aspx] in any mix of upper and
    lower case. *)
Definition extension (ext : string) : Prop :=
  is_extension (to_lower ext) = true.

(** The text the title is made from, once the last segment has been
    decoded: the segment with its separators turned into spaces, or the
    host name without a leading [www.] when that is empty (or a lone
    [/]). *)
Definition title_source (decoded host : string) : string :=
  let text := separators_to_spaces decoded in
  if String.eqb text "" || String.eqb text "/" then strip_www host else text.

End FallbackTerms.

(** ** Title resolver *)

Module ResolverTerms.
Import Resolver.

(** The event is not a timer wait. *)
Definition no_wait (e : event) : Prop :=
  match e with
  | Wait _ => False
  | _ => True
  end.

(** [w'] continues [w]: same network, and a trace that extends the trace
    of [w] by [added]. *)
Definition extends (w w' : world) (added : list event) : Prop :=
  network w' = network w /\ trace w' = (trace w ++ added)%list.

(** What the trace of a resolution looks like when no [fetch] gets an
    answer. *)
Definition unanswered_trace (url : string) : list event :=
  [Console "log"; Fetch ("https://noembed.com/embed?url=" ++ url);
   Console "warn"; Fetch url; Console "warn"; Console "info"].

End ResolverTerms.

(** ** The plugin *)

Module EngineTerms.
Import JsString JsMap Resolver Engine.

(** The state a stale task leaves behind: only the in-flight mark was
    set and cleared again. *)
Definition abandoned (key : string) (s : state) : state :=
  release key (with_processingUrls (set_add key) s).

(** The order of the sort in [addToProcessingQueue]. *)
Definition by_position (a b : ProcessingTask) : Prop :=
  position a <= position b.

(** The map built by the loop, seen from an accumulator [acc] whose
    entries are filed under their own keys. *)
Definition collect_from (acc : JsMap.t ProcessingTask)
  (sortedTasks : list ProcessingTask) : JsMap.t ProcessingTask :=
  fold_left
    (fun uniqueTasks t =>
       let key := batch_key t in
       if has key uniqueTasks then uniqueTasks else set key t uniqueTasks)
    sortedTasks acc.

(** The first task of [l] that is filed under the key [k]. *)
Definition first_with_key (k : string) (l : list ProcessingTask)
  : option ProcessingTask :=
  List.find (fun t => String.eqb (batch_key t) k) l.

(** The keys of [m] are distinct and every task sits under its own
    key. *)
Definition filed (m : JsMap.t ProcessingTask) : Prop :=
  NoDup (keys m) /\ forall k t, In (k, t) m -> k = batch_key t.

(** The three shapes of the queue's consumer: there is at most one
    [processQueue] coroutine, [isProcessing] says whether there is one,
    and the in-flight set holds the key of the one resolution that is
    awaited, if any. *)
Inductive drained : state -> Prop :=
| drained_idle s :
    isProcessing s = false -> drainers s = [] -> processingUrls s = [] ->
    drained s
| drained_pausing s :
    isProcessing s = true -> drainers s = [DrainPause] ->
    processingUrls s = [] ->
    drained s
| drained_awaiting s t :
    isProcessing s = true ->
    drainers s = [DrainAwait t (inflight_key t)] ->
    processingUrls s = [inflight_key t] ->
    drained s.

(** What holds between any two steps: the retry queue is empty, its
    scheduler sleeps, and the queue has one consumer at most. *)
Definition invariant (s : state) : Prop :=
  retryQueue s = [] /\ scheduler s = RetrySleep /\ drained s.

(** Ticks of the scheduler at the given times, one after the other. *)
Definition run_ticks
  (resolver : string -> M string) (ticks : list nat) (s : state) (w : world)
  : state * world :=
  fold_left (fun sw now => run_tick resolver now (fst sw) (snd sw)) ticks (s, w).

(** The scheduler holds [item] under [key], and a resolution of its task
    would go to the resolver: the editor is there, the line still carries
    the URL, and the URL is not cached. *)
Definition holds (key : string) (item : RetryQueueItem) (s : state) : Prop :=
  retryQueue s = [(key, item)] /\
  editorActive s = true /\
  stale (task item) (editor s) = false /\
  JsMap.has (url (task item)) (urlCache s) = false.

(** The world after one call of [failing_resolver] for [u]. *)
Definition fetched (u : string) (w : world) : world :=
  mkWorld (network w) (calls w) (trace w ++ [Fetch u])%list.

(** The errors the closure of [addToProcessingQueue] hands to the retry
    queue: [error instanceof Error && error.message.includes("fetch")]. *)
Definition transient (e : error) : Prop :=
  is_Error e = true /\ includes (message e) "fetch" = true.

End EngineTerms.

(** ** More vocabulary: occurrences, batches *)

Module OrderTerms.
Import JsString Matcher Engine.

(** The occurrences [ms] lie one after the other, the first one at or
    after [from]: each starts where the one before it has ended, or
    later. *)
Fixpoint apart (from : nat) (ms : list URLMatch) : Prop :=
  match ms with
  | [] => True
  | m :: r =>
      from <= Matcher.index m /\
      apart (Matcher.index m + String.length (Matcher.url m)) r
  end.

(** The tasks of [l] that are the first of their key, given the keys
    [seen] so far. *)
Fixpoint keep_first (seen : list string) (l : list ProcessingTask)
  : list ProcessingTask :=
  match l with
  | [] => []
  | t :: r =>
      if existsb (String.eqb (batch_key t)) seen then keep_first seen r
      else t :: keep_first (batch_key t :: seen) r
  end.

End OrderTerms.

(** ** Runs of the plugin *)

Module RunTerms.
Import Resolver Engine.

(** [s'] is reached from [s] by zero or more steps. *)
Inductive runs (resolves : string -> outcome string -> Prop)
  : state -> state -> Prop :=
| runs_here s : runs resolves s s
| runs_step s s1 s' :
    step resolves s s1 -> runs resolves s1 s' -> runs resolves s s'.

(** Nothing is queued, nothing is in flight, and no coroutine of
    [processQueue] is left. *)
Definition quiet (s : state) : Prop :=
  processingQueue s = [] /\ isProcessing s = false /\
  drainers s = [] /\ processingUrls s = [].

(** The work the queue's consumer has before it: two steps for each
    queued task (its resolution and the pause after it), and what is left
    of the turn it is in. *)
Definition pending (s : state) : nat :=
  2 * List.length (processingQueue s)
  + match drainers s with
    | DrainAwait _ _ :: _ => 2
    | DrainPause :: _ => 1
    | [] => 0
    end.

End RunTerms.

(** ** What the resolver answers *)

Module AnswerTerms.
Import JsString Resolver.

(** The address of the embed lookup for [url]. *)
Definition embed_url (url : string) : string :=
  "https://noembed.com/embed?url=" ++ url.

(** The title the embed service's answer gives, if it gives one: the
    request was answered with a status in the 200s, the body was JSON, and
    [title] and [provider_name] are both there and not empty. *)
Definition embed_title (answer : outcome Response) : option string :=
  match answer with
  | Return response =>
      if ok response then
        match json response with
        | Return data =>
            match title data, provider_name data with
            | Some t, Some p =>
                if String.eqb t "" || String.eqb p "" then None
                else Some (p ++ " - " ++ t)
            | _, _ => None
            end
        | Throw _ => None
        end
      else None
  | Throw _ => None
  end.

(** The title the page's own answer gives, if it gives one: the answer
    is readable (not opaque), its status is in the 200s, its body could be
    read, and the body has a [<title>] element. *)
Definition page_title (answer : outcome Response) : option string :=
  match answer with
  | Return response =>
      if opaque response then None
      else if ok response then
        match text response with
        | Return html => option_map trim (match_title html)
        | Throw _ => None
        end
      else None
  | Throw _ => None
  end.

(** The [fetch] calls of a trace, in order. *)
Fixpoint fetches (l : list event) : list string :=
  match l with
  | [] => []
  | Fetch u :: r => u :: fetches r
  | _ :: r => fetches r
  end.

(** [p] starts somewhere in [s], letter case aside. *)
Fixpoint occurs_ci (p s : string) : bool :=
  startsWith_ci p s
  || match s with
     | EmptyString => false
     | String _ r => occurs_ci p r
     end.

Definition no_line_terminator (c : ascii) : bool :=
  negb (is_line_terminator c).

End AnswerTerms.

(** ** The retry queue *)

Module RetryTerms.
Import JsMap Engine.

(** Every item of the retry queue is filed once, under the retry key of
    its task, with a count of 1, 2 or 3. *)
Definition well_filed (q : JsMap.t RetryQueueItem) : Prop :=
  NoDup (keys q) /\
  forall k item,
    In (k, item) q -> k = retry_key (task item) /\ 1 <= retries item <= 3.

End RetryTerms.

(* ================================================================== *)
(** * Properties *)
(* ================================================================== *)

(** ** [Map] *)

Module JsMapFacts.
Import JsMap.

Section WithValue.
Context {V : Type}.
Implicit Types (m : JsMap.t V) (k : string) (v : V).

Lemma size_keys m : size m = List.length (keys m).
Proof. unfold size, keys. now rewrite length_map. Qed.

Lemma get_None_iff k m : get k m = None <-> ~ In k (keys m).
Proof.
  induction m as [|[k' v'] m IH]; simpl.
  - tauto.
  - destruct (String.eqb_spec k' k) as [->|Hne].
    + split; [discriminate | tauto].
    + rewrite IH. tauto.
Qed.

Lemma has_true_iff k m : has k m = true <-> In k (keys m).
Proof.
  unfold has. destruct (get k m) eqn:E.
  - split; [intros _ | reflexivity].
    destruct (in_dec string_dec k (keys m)) as [Hin|Hout]; [assumption|].
    apply get_None_iff in Hout. congruence.
  - apply get_None_iff in E. split; [discriminate | tauto].
Qed.

Lemma has_false_iff k m : has k m = false <-> ~ In k (keys m).
Proof.
  rewrite <- has_true_iff. destruct (has k m); split; congruence.
Qed.

Lemma keys_set_fresh k v m :
  ~ In k (keys m) -> keys (set k v m) = (keys m ++ [k])%list.
Proof.
  induction m as [|[k' v'] m IH]; simpl; intros Hout.
  - reflexivity.
  - destruct (String.eqb_spec k' k) as [->|Hne]; [tauto|].
    simpl. f_equal. apply IH. tauto.
Qed.

Lemma keys_set_present k v m : In k (keys m) -> keys (set k v m) = keys m.
Proof.
  induction m as [|[k' v'] m IH]; simpl; intros Hin.
  - contradiction.
  - destruct (String.eqb_spec k' k) as [->|Hne]; [reflexivity|].
    simpl. f_equal. apply IH. destruct Hin; congruence.
Qed.

Lemma get_set_same k v m : get k (set k v m) = Some v.
Proof.
  induction m as [|[k' v'] m IH]; simpl.
  - now rewrite String.eqb_refl.
  - destruct (String.eqb_spec k' k) as [->|Hne]; simpl.
    + now rewrite String.eqb_refl.
    + destruct (String.eqb_spec k' k); [contradiction | exact IH].
Qed.

Lemma get_set_other k k' v m : k <> k' -> get k' (set k v m) = get k' m.
Proof.
  intros Hne. induction m as [|[k0 v0] m IH]; simpl.
  - destruct (String.eqb_spec k k'); [contradiction | reflexivity].
  - destruct (String.eqb_spec k0 k) as [->|Hne0]; simpl.
    + destruct (String.eqb_spec k k'); [contradiction | reflexivity].
    + destruct (String.eqb_spec k0 k'); [reflexivity | exact IH].
Qed.

Lemma size_set_le k v m : size (set k v m) <= S (size m).
Proof.
  unfold size. induction m as [|[k' v'] m IH]; simpl; [lia|].
  destruct (String.eqb k' k); simpl; lia.
Qed.

Lemma delete_first m k :
  first_key m = Some k -> delete k m = List.tl m.
Proof.
  destruct m as [|[k' v'] m]; simpl; [discriminate|].
  intros [= ->]. now rewrite String.eqb_refl.
Qed.

Lemma first_key_Some m : m <> [] -> exists k, first_key m = Some k.
Proof. destruct m as [|[k v] m]; [congruence | simpl; eauto]. Qed.

Lemma delete_absent k m : ~ In k (keys m) -> delete k m = m.
Proof.
  induction m as [|[k' v'] m IH]; simpl; intros Hout; [reflexivity|].
  destruct (String.eqb_spec k' k) as [->|Hne]; [tauto|].
  f_equal. apply IH. tauto.
Qed.

End WithValue.
End JsMapFacts.

(** ** Title cache *)

Module CacheFacts.
Import JsMap JsMapFacts Cache CacheTerms.

Lemma MAX_CACHE_SIZE_pos : 0 < MAX_CACHE_SIZE.
Proof. unfold MAX_CACHE_SIZE. apply Nat.lt_0_succ. Qed.

Lemma MAX_CACHE_SIZE_value : MAX_CACHE_SIZE = 1000.
Proof. reflexivity. Qed.

#[local] Opaque MAX_CACHE_SIZE.

Lemma size_cons (e : string * string) (c : cache) :
  size (e :: c) = S (size c).
Proof. reflexivity. Qed.

Lemma size_empty : size (@empty string) = 0.
Proof. reflexivity. Qed.

Lemma tl_keys (c : cache) : keys (List.tl c) = List.tl (keys c).
Proof. destruct c; reflexivity. Qed.

(** Below capacity nothing is evicted. *)
Lemma updateCache_below url title (c : cache) :
  size c < MAX_CACHE_SIZE -> updateCache url title c = set url title c.
Proof.
  intros Hlt. unfold updateCache.
  destruct (Nat.leb_spec MAX_CACHE_SIZE (size c)); [lia | reflexivity].
Qed.

(** At capacity the entry inserted first goes. *)
Lemma updateCache_full url title (c : cache) :
  MAX_CACHE_SIZE <= size c ->
  updateCache url title c = set url title (List.tl c).
Proof.
  intros Hge. unfold updateCache.
  destruct (Nat.leb_spec MAX_CACHE_SIZE (size c)); [|lia].
  destruct c as [|[k v] c].
  - pose proof MAX_CACHE_SIZE_pos. change (size []) with 0 in Hge. lia.
  - simpl. now rewrite String.eqb_refl.
Qed.

Lemma updateCache_size url title (c : cache) :
  size c <= MAX_CACHE_SIZE -> size (updateCache url title c) <= MAX_CACHE_SIZE.
Proof.
  intros Hle. destruct (Nat.lt_ge_cases (size c) MAX_CACHE_SIZE) as [Hlt|Hge].
  - rewrite updateCache_below by assumption.
    pose proof (size_set_le url title c). lia.
  - rewrite updateCache_full by assumption.
    pose proof (size_set_le url title (List.tl c)).
    pose proof MAX_CACHE_SIZE_pos.
    destruct c as [|e c]; [change (size []) with 0 in *; lia|].
    rewrite size_cons in *. simpl List.tl in *. lia.
Qed.

Lemma updateCache_get url title (c : cache) :
  get url (updateCache url title c) = Some title.
Proof. unfold updateCache. apply get_set_same. Qed.

Lemma fill_size entries : forall c,
  size c <= MAX_CACHE_SIZE -> size (fill c entries) <= MAX_CACHE_SIZE.
Proof.
  induction entries as [|e entries IH]; simpl; intros c Hle; [assumption|].
  apply IH. now apply updateCache_size.
Qed.

(** First in, first out: after any run of insertions of distinct fresh
    URLs the cache holds the most recent ones, in insertion order. *)
Lemma fill_keys entries : forall c,
  size c <= MAX_CACHE_SIZE ->
  NoDup (keys c ++ List.map fst entries) ->
  keys (fill c entries)
  = skipn (size c + List.length entries - MAX_CACHE_SIZE)
          (keys c ++ List.map fst entries).
Proof.
  induction entries as [|[u t] entries IH]; simpl; intros c Hle Hnd.
  - replace (size c + 0 - MAX_CACHE_SIZE) with 0 by lia.
    now rewrite app_nil_r.
  - assert (Hfresh : ~ In u (keys c)).
    { apply NoDup_remove_2 in Hnd. intros Hin. apply Hnd.
      apply in_or_app. now left. }
    destruct (Nat.lt_ge_cases (size c) MAX_CACHE_SIZE) as [Hlt|Hge].
    + rewrite updateCache_below by assumption.
      assert (Hk : keys (set u t c) = (keys c ++ [u])%list)
        by now apply keys_set_fresh.
      rewrite IH.
      * rewrite Hk, <- app_assoc. simpl.
        assert (Hsz : size (set u t c) = S (size c)).
        { rewrite !size_keys, Hk, length_app. simpl. lia. }
        rewrite Hsz. f_equal. lia.
      * rewrite size_keys, Hk, length_app. simpl.
        rewrite <- size_keys. lia.
      * rewrite Hk, <- app_assoc. exact Hnd.
    + rewrite updateCache_full by assumption.
      pose proof MAX_CACHE_SIZE_pos as Hpos.
      destruct c as [|[k0 v0] c]; [change (size []) with 0 in Hge; lia|].
      rewrite size_cons in *.
      simpl List.tl. simpl in Hnd, Hfresh.
      assert (Hfresh' : ~ In u (keys c)) by tauto.
      assert (Hk : keys (set u t c) = (keys c ++ [u])%list)
        by now apply keys_set_fresh.
      assert (Hsz : size (set u t c) = S (size c)).
      { rewrite !size_keys, Hk, length_app. simpl. lia. }
      rewrite IH.
      * rewrite Hk, <- app_assoc, Hsz.
        replace (S (size c) + S (List.length entries) - MAX_CACHE_SIZE)
          with (S (S (size c) + List.length entries - MAX_CACHE_SIZE))
          by lia.
        reflexivity.
      * lia.
      * rewrite Hk, <- app_assoc. simpl. now apply NoDup_cons_iff in Hnd.
Qed.

Lemma distinctb_NoDup l : distinctb l = true -> NoDup l.
Proof.
  induction l as [|x l IH]; simpl; intros H; constructor.
  - apply andb_true_iff in H as [H _].
    intros Hin. apply negb_true_iff in H.
    assert (existsb (String.eqb x) l = true); [|congruence].
    apply existsb_exists. exists x. split; [assumption|apply String.eqb_refl].
  - apply IH. now apply andb_true_iff in H as [_ H].
Qed.

End CacheFacts.

(** ** [indexOf] *)

Module JsStringFacts.
Import JsString StringTerms.

Lemma length_append (a b : string) :
  String.length (a ++ b) = String.length a + String.length b.
Proof. induction a as [|c a IH]; simpl; [reflexivity | now rewrite IH]. Qed.

Lemma append_nil_r (a : string) : a ++ "" = a.
Proof. induction a as [|c a IH]; simpl; [reflexivity | now rewrite IH]. Qed.

Lemma append_assoc (a b c : string) : (a ++ b) ++ c = a ++ b ++ c.
Proof. induction a as [|x a IH]; simpl; [reflexivity | now rewrite IH]. Qed.

Lemma startsWith_iff (p s : string) :
  startsWith p s = true <-> exists r, s = p ++ r.
Proof.
  revert s; induction p as [|a p IH]; simpl; intros s.
  - split; [intros _; now exists s | reflexivity].
  - destruct s as [|b s].
    + split; [discriminate | intros [r Hr]; discriminate].
    + rewrite andb_true_iff, IH. split.
      * intros [Hab [r ->]]. apply Ascii.eqb_eq in Hab. subst b.
        now exists r.
      * intros [r [= -> ->]]. split; [apply Ascii.eqb_refl | now exists r].
Qed.

Lemma drop_append (p r : string) : drop (String.length p) (p ++ r) = r.
Proof. induction p as [|a p IH]; simpl; [reflexivity | exact IH]. Qed.

Lemma length_drop (n : nat) (s : string) :
  String.length (drop n s) = String.length s - n.
Proof. revert s; induction n as [|n IH]; intros [|c s]; simpl; auto. Qed.

Lemma length_take (n : nat) (s : string) :
  String.length (take n s) = Nat.min n (String.length s).
Proof. revert s; induction n as [|n IH]; intros [|c s]; simpl; auto. Qed.

Lemma take_drop (n : nat) (s : string) : take n s ++ drop n s = s.
Proof.
  revert s; induction n as [|n IH]; intros [|c s]; simpl; auto.
  now rewrite IH.
Qed.

Lemma take_append (p r : string) : take (String.length p) (p ++ r) = p.
Proof. induction p as [|a p IH]; simpl; [reflexivity | now rewrite IH]. Qed.

Lemma drop_drop (n m : nat) (s : string) : drop n (drop m s) = drop (m + n) s.
Proof.
  revert s; induction m as [|m IH]; intros s; simpl; [reflexivity|].
  destruct s as [|c s]; [now destruct n | apply IH].
Qed.

Lemma search_found u : forall s base i,
  search u s base = Some i ->
  base <= i <= base + String.length s /\
  startsWith u (drop (i - base) s) = true.
Proof.
  induction s as [|c s IH]; intros base i; simpl.
  - destruct (startsWith u "") eqn:E; [|discriminate].
    intros [= <-]. rewrite Nat.sub_diag. simpl. split; [lia | exact E].
  - destruct (startsWith u (String c s)) eqn:E.
    + intros [= <-]. rewrite Nat.sub_diag. simpl. split; [lia | exact E].
    + intros H. apply IH in H as [Hrange Hstart].
      split; [lia|].
      replace (i - base) with (S (i - S base)) by lia. exact Hstart.
Qed.

Lemma search_here u s base :
  startsWith u s = true -> search u s base = Some base.
Proof. intros H. destruct s; simpl; now rewrite H. Qed.

Lemma indexOf_at_iff line u p :
  indexOf line u p = Some p <-> occurs_at u p line.
Proof.
  unfold indexOf, occurs_at. split.
  - intros H. apply search_found in H as [Hrange Hstart].
    rewrite length_drop in Hrange.
    assert (Hp : Nat.min p (String.length line) = p) by lia.
    rewrite Hp, Nat.sub_diag in Hstart. simpl in Hstart.
    apply startsWith_iff in Hstart as [after Hafter].
    exists (take p line), after. split.
    + rewrite <- Hafter. symmetry. apply take_drop.
    + rewrite length_take. lia.
  - intros (before & after & -> & <-).
    rewrite length_append.
    replace (Nat.min _ _) with (String.length before) by lia.
    rewrite drop_append. apply search_here.
    apply startsWith_iff. now exists after.
Qed.

End JsStringFacts.

(** ** The per-task pipeline *)

Module EngineFacts.
Import JsString JsStringFacts Resolver Engine StringTerms EngineTerms.

(** The code's staleness test says exactly that the line is missing or
    empty, or that the URL does not stand at the task's position. *)
Lemma stale_false_iff t ed :
  stale t ed = false <->
  exists line,
    Editor.getLine (lineNumber t) ed = Some line /\ line <> "" /\
    occurs_at (url t) (position t) line.
Proof.
  unfold stale. destruct (Editor.getLine (lineNumber t) ed) as [line|].
  - rewrite orb_false_iff, negb_false_iff. split.
    + intros [Hne Hidx]. exists line. split; [reflexivity|].
      split; [now apply String.eqb_neq|].
      apply indexOf_at_iff.
      destruct (indexOf line (url t) (position t)) as [i|]; [|discriminate].
      apply Nat.eqb_eq in Hidx. now subst.
    + intros (line' & [= <-] & Hne & Hocc). split.
      * now apply String.eqb_neq.
      * apply indexOf_at_iff in Hocc. rewrite Hocc. apply Nat.eqb_refl.
  - split; [discriminate | intros (line & H & _); discriminate].
Qed.

Lemma stale_when_moved t ed :
  Editor.getLine (lineNumber t) ed = None \/
  (exists line, Editor.getLine (lineNumber t) ed = Some line /\
                ~ occurs_at (url t) (position t) line) ->
  stale t ed = true.
Proof.
  intros H. destruct (stale t ed) eqn:E; [reflexivity|].
  apply stale_false_iff in E as (line & Hline & _ & Hocc).
  destruct H as [H | (line' & H & Hnot)]; rewrite Hline in H.
  - discriminate.
  - injection H as <-. contradiction.
Qed.

Lemma processURL_begin_stale s t key :
  stale t (editor s) = true ->
  processURL_begin s t key = Finished (Return tt) (abandoned key s).
Proof. intros H. unfold processURL_begin. simpl. now rewrite H. Qed.

(** C9. A task whose line is gone, or no longer carries the task's URL
    at the task's position, is abandoned: [processURL] returns normally
    without calling the resolver and leaves the document, the cache and
    the retry queue as they are; the queued closure around it logs no
    error and hands nothing to the retry queue; and the retry scheduler,
    for which the call succeeded, only removes its entry. *)
Theorem stale_task_is_silently_abandoned s t :
  Editor.getLine (lineNumber t) (editor s) = None \/
  (exists line, Editor.getLine (lineNumber t) (editor s) = Some line /\
                ~ occurs_at (url t) (position t) line) ->
  (forall resolver key w,
      processURL resolver s t key w = ((Return tt, abandoned key s), w) /\
      editor (abandoned key s) = editor s /\
      urlCache (abandoned key s) = urlCache s /\
      retryQueue (abandoned key s) = retryQueue s /\
      errorLog (abandoned key s) = errorLog s) /\
  (forall resolver now w,
      let '(s', w') := run_task resolver now t s w in
      w' = w /\
      editor s' = editor s /\ urlCache s' = urlCache s /\
      retryQueue s' = retryQueue s /\ errorLog s' = errorLog s) /\
  (forall key item rest,
      task item = t -> editorActive s = true ->
      retry_run ((key, item) :: rest) s
      = retry_run rest (with_retryQueue (JsMap.delete key) (abandoned key s))).
Proof.
  intros Hmoved. apply stale_when_moved in Hmoved.
  split; [|split].
  - intros resolver key w. unfold processURL.
    rewrite processURL_begin_stale by assumption. repeat split.
  - intros resolver now w. unfold run_task, task_begin.
    destruct (set_has (inflight_key t) (processingUrls s)).
    + repeat split.
    + rewrite processURL_begin_stale by assumption. repeat split.
  - intros key item rest <- Hactive. simpl. rewrite Hactive.
    now rewrite processURL_begin_stale.
Qed.

(** C9 at a task for [https://a.b/c] on line 0, offset 4, after the line
    was replaced by other text. *)
Lemma stale_task_is_silently_abandoned_witness :
  let s := initial (Editor.mk ["something else"] 0 0) in
  let t := mkTask "https://a.b/c" 0 4 17 in
  processURL (resolve Reference.platform) s t (inflight_key t)
             (fresh_world unreachable_network)
  = ((Return tt, abandoned (inflight_key t) s),
     fresh_world unreachable_network).
Proof.
  intros s t.
  apply (stale_task_is_silently_abandoned s t).
  right. exists "something else". split; [reflexivity|].
  intros (before & after & Hline & Hlen).
  destruct before as [|c0 [|c1 [|c2 [|c3 [|c4 before]]]]];
    simpl in Hlen, Hline; discriminate.
Defined.

(** C10. When the line under the cursor has at most 10 characters, the
    debounced callback of [handleChange] returns at once: the state is
    unchanged, so nothing is queued; the handler itself only arms the
    timer.  A URL can be that short: [http://a.b] has 10 characters and
    the matcher reports it, yet a line consisting of it is skipped. *)
Theorem short_line_is_never_enqueued :
  (forall now s line,
      Editor.getLine (Editor.cursor_line (editor s)) (editor s) = Some line ->
      String.length line <= 10 ->
      handleChange_callback now s = s) /\
  (forall now s,
      handleChange now s = with_debounceTimeout (Some (now + 500)) s) /\
  String.length "http://a.b" = 10 /\
  Matcher.findURLsInText "http://a.b" = [Matcher.mkURLMatch "http://a.b" 0].
Proof.
  split; [|split; [|split]].
  - intros now s line Hline Hshort. unfold handleChange_callback.
    rewrite Hline.
    destruct (Nat.leb_spec (String.length line) 10); [reflexivity | lia].
  - reflexivity.
  - reflexivity.
  - reflexivity.
Qed.

(** C10 at a document whose only line is [http://a.b]. *)
Lemma short_line_is_never_enqueued_witness :
  handleChange_callback 1000 (initial (Editor.mk ["http://a.b"] 0 10))
  = initial (Editor.mk ["http://a.b"] 0 10).
Proof.
  destruct short_line_is_never_enqueued as [Hshort _].
  apply (Hshort 1000 _ "http://a.b"); [reflexivity | simpl; lia].
Defined.

Lemma processURL_begin_cached s t key title :
  stale t (editor s) = false ->
  JsMap.get (url t) (urlCache s) = Some title ->
  processURL_begin s t key
  = Finished (Return tt)
      (release key
         (with_editor (replaceURLWithMarkdown t (markdownLink title t))
            (with_processingUrls (set_add key) s))).
Proof.
  intros Hfresh Hget. unfold processURL_begin. simpl.
  rewrite Hfresh. unfold JsMap.has. now rewrite Hget.
Qed.

Lemma processURL_begin_miss s t key :
  stale t (editor s) = false ->
  JsMap.has (url t) (urlCache s) = false ->
  processURL_begin s t key = Awaiting (with_processingUrls (set_add key) s).
Proof.
  intros Hfresh Hmiss. unfold processURL_begin. simpl.
  now rewrite Hfresh, Hmiss.
Qed.

(** C8. Resolving the same URL twice gives the same title, and the
    second resolution does not touch the network.  The first run of
    [processURL], on a cache miss, asks the resolver, writes the link with
    the title it answers and stores that title under the URL.  Any later
    run for that URL, in any state whose cache still maps the URL to that
    title, settles at once: the world (network calls, waits, console) is
    unchanged, the cache is unchanged, and the link it writes carries the
    same title. *)
Theorem second_resolution_is_a_cache_hit
  (P : Platform.t) (s s' : state) (t t' : ProcessingTask)
  (key key' : string) (w w1 w' : world) (title : string) :
  url t' = url t ->
  stale t (editor s) = false ->
  JsMap.has (url t) (urlCache s) = false ->
  resolve P (url t) w = (Return title, w1) ->
  (exists s1,
      processURL (resolve P) s t key w = ((Return tt, s1), w1) /\
      JsMap.get (url t) (urlCache s1) = Some title /\
      editor s1
      = replaceURLWithMarkdown t (markdownLink title t) (editor s)) /\
  (stale t' (editor s') = false ->
   JsMap.get (url t) (urlCache s') = Some title ->
   exists s2,
      processURL (resolve P) s' t' key' w' = ((Return tt, s2), w') /\
      urlCache s2 = urlCache s' /\
      editor s2
      = replaceURLWithMarkdown t' (markdownLink title t') (editor s')).
Proof.
  intros Hurl Hfresh Hmiss Hresolve. split.
  - eexists. unfold processURL.
    rewrite processURL_begin_miss by assumption.
    rewrite Hresolve. simpl. split; [reflexivity|].
    split; [apply CacheFacts.updateCache_get | reflexivity].
  - intros Hfresh' Hget. rewrite <- Hurl in Hget.
    eexists. unfold processURL.
    rewrite (processURL_begin_cached _ _ _ title) by assumption.
    split; [reflexivity|]. split; reflexivity.
Qed.

(** C8 on [see https://example.org/My_Report.html], with a network that
    is down: the resolver answers the fallback title [My Report], and the
    second run, on line 1, reuses it. *)
Lemma second_resolution_is_a_cache_hit_witness :
  let P := Reference.platform in
  let u := "https://example.org/My_Report.html" in
  let ed := Editor.mk ["see " ++ u; u] 0 0 in
  let t := mkTask u 0 4 10 in
  let t' := mkTask u 1 0 20 in
  let w := fresh_world unreachable_network in
  exists s1 w1,
    processURL (resolve P) (initial ed) t (inflight_key t) w
    = ((Return tt, s1), w1) /\
    JsMap.get u (urlCache s1) = Some "My Report" /\
    exists s2,
      processURL (resolve P) s1 t' (inflight_key t') w1
      = ((Return tt, s2), w1) /\
      Editor.lines (editor s2)
      = ["see [My Report](" ++ u ++ ")"; "[My Report](" ++ u ++ ")"].
Proof.
  intros P u ed t t' w.
  pose (r := resolve P u w).
  pose (s1 := snd (fst (processURL (resolve P) (initial ed) t
                          (inflight_key t) w))).
  destruct (second_resolution_is_a_cache_hit P (initial ed) s1 t t'
              (inflight_key t) (inflight_key t') w (snd r) (snd r)
              "My Report")
    as [(s1' & Hrun & Hget & Hed) Hsecond];
    try (vm_compute; reflexivity).
  exists s1', (snd r). split; [exact Hrun|]. split; [exact Hget|].
  assert (Hs1 : s1' = s1) by (unfold s1; now rewrite Hrun).
  subst s1'.
  destruct Hsecond as (s2 & Hrun2 & _ & Hed2);
    try (vm_compute; reflexivity).
  exists s2. split; [exact Hrun2|].
  rewrite Hed2. vm_compute. reflexivity.
Defined.

End EngineFacts.

(** ** The cache inside the plugin *)

Module EngineCacheFacts.
Import JsMap JsMapFacts Cache CacheTerms CacheFacts.
Import Resolver Engine.

#[local] Opaque MAX_CACHE_SIZE.

(** Only the resumption of [processURL] with a title writes to the
    cache, and it does so through [updateCache]. *)

Lemma processURL_begin_cache s t key :
  match processURL_begin s t key with
  | Finished _ s1 => urlCache s1 = urlCache s
  | Awaiting s1 => urlCache s1 = urlCache s
  end.
Proof.
  unfold processURL_begin.
  cbn [editor urlCache with_processingUrls].
  destruct (stale t (editor s)); [reflexivity|].
  destruct (has (url t) (urlCache s)); [|reflexivity].
  destruct (get (url t) (urlCache s)); reflexivity.
Qed.

Lemma task_catch_cache now t e s :
  urlCache (task_catch now t e s) = urlCache s.
Proof.
  unfold task_catch, addToRetryQueue.
  destruct (is_Error e && JsString.includes (message e) "fetch");
    [|reflexivity].
  match goal with |- context [if ?b then _ else _] => destruct b end;
    reflexivity.
Qed.

Lemma task_begin_cache now t s :
  urlCache (fst (task_begin now t s)) = urlCache s.
Proof.
  unfold task_begin.
  destruct (set_has (inflight_key t) (processingUrls s)); [reflexivity|].
  pose proof (processURL_begin_cache s t (inflight_key t)) as H.
  destruct (processURL_begin s t (inflight_key t)) as [[[]|e] s1|s1];
    cbn [fst]; try assumption.
  now rewrite task_catch_cache.
Qed.

Lemma spawn_cache d s : urlCache (spawn d s) = urlCache s.
Proof. now destruct d. Qed.

Lemma drain_next_cache now s :
  urlCache (fst (drain_next now s)) = urlCache s.
Proof.
  unfold drain_next. destruct (processingQueue s) as [|t rest];
    [reflexivity|].
  pose proof (task_begin_cache now t
                (with_processingQueue (fun _ => rest) s)) as H.
  destruct (task_begin now t (with_processingQueue (fun _ => rest) s))
    as [s1 [key|]]; exact H.
Qed.

Lemma processQueue_cache now s : urlCache (processQueue now s) = urlCache s.
Proof.
  unfold processQueue.
  destruct (isProcessing s || Nat.eqb (List.length (processingQueue s)) 0);
    [reflexivity|].
  pose proof (drain_next_cache now (with_isProcessing true s)) as H.
  destruct (drain_next now (with_isProcessing true s)) as [s1 d].
  now rewrite spawn_cache.
Qed.

Lemma addToProcessingQueue_cache now tasks s :
  urlCache (addToProcessingQueue now tasks s) = urlCache s.
Proof.
  unfold addToProcessingQueue.
  match goal with |- context [if ?b then _ else _] => destruct b end;
    [reflexivity | now rewrite processQueue_cache].
Qed.

Lemma handleChange_callback_cache now s :
  urlCache (handleChange_callback now s) = urlCache s.
Proof.
  unfold handleChange_callback.
  destruct (Editor.getLine _ _); [|reflexivity].
  destruct (Nat.leb _ 10); [reflexivity|].
  destruct (Nat.eqb _ 0); [reflexivity|].
  apply addToProcessingQueue_cache.
Qed.

Lemma handlePaste_cache now text s :
  urlCache (handlePaste now text s) = urlCache s.
Proof.
  unfold handlePaste. destruct text as [pastedText|]; [|reflexivity].
  destruct (String.eqb pastedText ""); [reflexivity|].
  destruct (Nat.ltb 0 _); [|reflexivity].
  cbn [urlCache with_editor]. apply addToProcessingQueue_cache.
Qed.

Lemma retry_settled_cache key item r s :
  urlCache (retry_settled key item r s) = urlCache s.
Proof.
  unfold retry_settled. destruct r; [reflexivity|].
  destruct (Nat.leb 3 (retries item)); reflexivity.
Qed.

Lemma retry_run_cache entries : forall s,
  urlCache (fst (retry_run entries s)) = urlCache s.
Proof.
  induction entries as [|[key item] rest IH]; intros s; cbn [retry_run];
    [reflexivity|].
  destruct (editorActive s); [|apply IH].
  pose proof (processURL_begin_cache s (task item) key) as H.
  destruct (processURL_begin s (task item) key) as [r s1|s1].
  - now rewrite IH, retry_settled_cache.
  - exact H.
Qed.

Lemma processURL_resume_cache s t key r :
  cache_step (urlCache s) (urlCache (snd (processURL_resume s t key r))).
Proof.
  unfold processURL_resume. destruct r as [title|e]; cbn.
  - right. now exists (url t), title.
  - now left.
Qed.

Lemma step_cache R s s' :
  step R s s' -> cache_step (urlCache s) (urlCache s').
Proof.
  intros Hstep.
  destruct Hstep
    as [now s | now s deadline Harmed Hdue | now text s | ed s | b s
        | now i t key r s s' Hnth Hres Hgo
        | now i s s' Hgo
        | now s Hsleep
        | rest key item r s Hawait Hres].
  - now left.
  - left. now rewrite handleChange_callback_cache.
  - left. apply handlePaste_cache.
  - now left.
  - now left.
  - unfold drainer_resolved in Hgo. rewrite Hnth in Hgo.
    injection Hgo as <-. cbn [urlCache with_drainers].
    unfold task_resume.
    pose proof (processURL_resume_cache s t key r) as H.
    destruct (processURL_resume s t key r) as [[[]|e] s1]; cbn [snd] in H.
    + exact H.
    + now rewrite task_catch_cache.
  - unfold drainer_wakes in Hgo.
    destruct (nth_error (drainers s) i) as [[t key|]|]; try discriminate.
    pose proof (drain_next_cache now (with_drainers (remove_nth i) s)) as H.
    destruct (drain_next now (with_drainers (remove_nth i) s)) as [s1 d].
    injection Hgo as <-. left. now rewrite spawn_cache.
  - left. unfold processRetryQueue, install. cbn [urlCache with_scheduler].
    apply retry_run_cache.
  - unfold retry_resume.
    pose proof (processURL_resume_cache s (task item) key r) as H.
    destruct (processURL_resume s (task item) key r) as [o s1].
    cbn [snd] in H. unfold install. cbn [urlCache with_scheduler].
    now rewrite retry_run_cache, retry_settled_cache.
Qed.

Lemma reachable_cache_bound R s :
  reachable R s -> size (urlCache s) <= MAX_CACHE_SIZE.
Proof.
  induction 1 as [ed|s s' _ IH Hstep].
  - cbn. apply Nat.le_0_l.
  - destruct (step_cache R s s' Hstep) as [->|(u & title & ->)];
      [assumption | now apply updateCache_size].
Qed.

(** C4. The title cache never holds more than [MAX_CACHE_SIZE] = 1000
    entries, whatever is inserted; inserting capacity + 1 distinct URLs
    leaves exactly 1000 entries, namely all but the one inserted first,
    in insertion order; writing an existing key again does not move it,
    so the eviction order is the insertion order; and in every state the
    plugin can reach, whatever its resolver answers, the cache holds at
    most 1000 entries. *)
Theorem cache_bounded_and_first_in_first_out :
  MAX_CACHE_SIZE = 1000 /\
  (forall entries, size (insert_all entries) <= MAX_CACHE_SIZE) /\
  (forall (c : cache) url title,
      size c <= MAX_CACHE_SIZE ->
      size (updateCache url title c) <= MAX_CACHE_SIZE) /\
  (forall entries,
      NoDup (List.map fst entries) ->
      List.length entries = MAX_CACHE_SIZE + 1 ->
      size (insert_all entries) = MAX_CACHE_SIZE /\
      keys (insert_all entries) = List.tl (List.map fst entries) /\
      has (hd "" (List.map fst entries)) (insert_all entries) = false) /\
  (forall (c : cache) url title,
      In url (keys c) -> keys (set url title c) = keys c) /\
  (forall resolves s,
      Engine.reachable resolves s ->
      size (Engine.urlCache s) <= MAX_CACHE_SIZE).
Proof.
  split; [exact MAX_CACHE_SIZE_value|].
  split; [|split; [|split; [|split]]].
  - intros entries. apply (fill_size entries empty).
    rewrite size_empty. lia.
  - intros c url title. apply updateCache_size.
  - intros entries Hnd Hlen.
    assert (Hkeys : keys (insert_all entries) = List.tl (List.map fst entries)).
    { unfold insert_all. change (fold_left _ entries empty) with (fill empty entries).
      rewrite fill_keys.
      - rewrite size_empty, Hlen.
        replace (0 + (MAX_CACHE_SIZE + 1) - MAX_CACHE_SIZE) with 1 by lia.
        reflexivity.
      - rewrite size_empty. lia.
      - exact Hnd. }
    split; [|split].
    + rewrite size_keys, Hkeys.
      destruct entries as [|e entries]; simpl in *; [lia|].
      rewrite length_map. lia.
    + exact Hkeys.
    + apply has_false_iff. rewrite Hkeys.
      destruct entries as [|e entries]; simpl in *; [lia|].
      now apply NoDup_cons_iff in Hnd.
  - intros c url title. apply keys_set_present.
  - apply reachable_cache_bound.
Qed.

(** C4 at the 1001 URLs [https://e.org/0] ... [https://e.org/1000]. *)
Lemma cache_bounded_and_first_in_first_out_witness :
  size (insert_all (numbered_entries 1001)) = 1000 /\
  keys (insert_all (numbered_entries 1001))
  = List.tl (List.map fst (numbered_entries 1001)) /\
  has "https://e.org/0" (insert_all (numbered_entries 1001)) = false.
Proof.
  destruct cache_bounded_and_first_in_first_out as (_ & _ & _ & Hfifo & _).
  apply (Hfifo (numbered_entries 1001)).
  - apply distinctb_NoDup. vm_compute. reflexivity.
  - vm_compute. reflexivity.
Defined.

End EngineCacheFacts.

(** ** Keys *)

Module KeyFacts.
Import JsString JsStringFacts Engine StringTerms.

Lemma no_dash_of_nat n : no_dash (of_nat n).
Proof.
  unfold of_nat. induction (Nat.to_uint n); simpl; auto;
    (split; [discriminate | assumption]).
Qed.

Lemma of_nat_inj n m : of_nat n = of_nat m -> n = m.
Proof.
  unfold of_nat. intros H.
  assert (Hu : Nat.to_uint n = Nat.to_uint m).
  { apply (f_equal NilEmpty.uint_of_string) in H.
    rewrite !NilEmpty.usu in H. congruence. }
  apply (f_equal Nat.of_uint) in Hu.
  now rewrite !DecimalNat.Unsigned.of_to in Hu.
Qed.

Lemma no_dash_not_split d a b : no_dash d -> d <> a ++ "-" ++ b.
Proof.
  revert d; induction a as [|c a IH]; intros [|x d]; simpl; try discriminate.
  - intros [Hx _] [= -> _]. congruence.
  - intros [_ Hd] [= _ H]. exact (IH _ Hd H).
Qed.

(** A text followed by a dash and a number can be split in one way
    only. *)
Lemma dash_suffix_inj a b d e :
  no_dash d -> no_dash e ->
  a ++ "-" ++ d = b ++ "-" ++ e -> a = b /\ d = e.
Proof.
  revert b; induction a as [|x a IH]; intros [|y b] Hd He; simpl.
  - intros [= H]. now split.
  - intros [= <- H]. exfalso. exact (no_dash_not_split _ _ _ Hd H).
  - intros [= -> H]. exfalso. symmetry in H.
    exact (no_dash_not_split _ _ _ He H).
  - intros [= -> H]. destruct (IH b Hd He H) as [-> ->]. now split.
Qed.

Lemma batch_key_inj t u :
  batch_key t = batch_key u <->
  url t = url u /\ lineNumber t = lineNumber u.
Proof.
  unfold batch_key. split.
  - intros H. apply dash_suffix_inj in H as [Hu Hl];
      auto using no_dash_of_nat.
    split; [assumption | now apply of_nat_inj].
  - intros [-> ->]. reflexivity.
Qed.

End KeyFacts.

(** ** Deduplication of a batch *)

Module DedupFacts.
Import JsString JsMap JsMapFacts Engine KeyFacts StringTerms EngineTerms.

#[local] Arguments batch_key : simpl never.

Lemma insert_by_position_In t x sorted :
  In x (insert_by_position t sorted) <-> x = t \/ In x sorted.
Proof.
  induction sorted as [|u r IH]; simpl.
  - intuition.
  - destruct (Nat.leb (position u) (position t)); simpl.
    + rewrite IH. intuition.
    + intuition.
Qed.

Lemma insert_by_position_sorted t sorted :
  StronglySorted by_position sorted ->
  StronglySorted by_position (insert_by_position t sorted).
Proof.
  induction 1 as [|u r Hr IH Hall]; simpl.
  - repeat constructor.
  - destruct (Nat.leb_spec (position u) (position t)) as [Hle|Hgt].
    + constructor; [assumption|].
      apply Forall_forall. intros x Hx.
      apply insert_by_position_In in Hx as [->|Hx]; [exact Hle|].
      rewrite Forall_forall in Hall. now apply Hall.
    + constructor; [now constructor|].
      constructor; [unfold by_position; lia|].
      rewrite Forall_forall in *. intros x Hx.
      specialize (Hall x Hx). unfold by_position in *. lia.
Qed.

Lemma sort_from_spec tasks : forall acc,
  StronglySorted by_position acc ->
  StronglySorted by_position
    (fold_left (fun sorted t => insert_by_position t sorted) tasks acc) /\
  (forall x,
      In x (fold_left (fun sorted t => insert_by_position t sorted) tasks acc)
      <-> In x tasks \/ In x acc).
Proof.
  induction tasks as [|t tasks IH]; simpl; intros acc Hacc.
  - split; [assumption | intuition].
  - destruct (IH (insert_by_position t acc)) as [Hs Hin].
    { now apply insert_by_position_sorted. }
    split; [assumption|].
    intros x. rewrite Hin, insert_by_position_In. intuition.
Qed.

Lemma sort_by_position_sorted tasks :
  StronglySorted by_position (sort_by_position tasks).
Proof. apply sort_from_spec. constructor. Qed.

Lemma sort_by_position_In tasks x :
  In x (sort_by_position tasks) <-> In x tasks.
Proof.
  unfold sort_by_position.
  destruct (sort_from_spec tasks []) as [_ H]; [constructor|].
  rewrite H. simpl. intuition.
Qed.

Lemma collect_from_get k l : forall acc,
  get k (collect_from acc l)
  = match get k acc with
    | Some t => Some t
    | None => first_with_key k l
    end.
Proof.
  induction l as [|t l IH]; simpl; intros acc.
  - now destruct (get k acc).
  - rewrite IH. unfold has.
    destruct (get (batch_key t) acc) as [t0|] eqn:Eacc.
    + destruct (get k acc) eqn:Ek; [reflexivity|].
      destruct (String.eqb_spec (batch_key t) k) as [Hk|Hne];
        [congruence | reflexivity].
    + destruct (String.eqb_spec (batch_key t) k) as [Hk|Hne].
      * subst k. now rewrite get_set_same, Eacc.
      * rewrite get_set_other by assumption. now destruct (get k acc).
Qed.

Lemma set_filed_fresh (m : JsMap.t ProcessingTask) t :
  filed m -> ~ In (batch_key t) (keys m) ->
  filed (set (batch_key t) t m) /\
  set (batch_key t) t m = (m ++ [(batch_key t, t)])%list.
Proof.
  intros [Hnd Hfiled] Hfresh.
  assert (Heq : set (batch_key t) t m = (m ++ [(batch_key t, t)])%list).
  { clear Hnd Hfiled. induction m as [|[k v] m IH]; simpl in *.
    - reflexivity.
    - destruct (String.eqb_spec k (batch_key t)) as [->|Hne]; [tauto|].
      f_equal. apply IH. tauto. }
  split; [|exact Heq]. rewrite Heq. split.
  - unfold keys. rewrite map_app. simpl.
    apply NoDup_app; [exact Hnd | repeat constructor; simpl; tauto |].
    intros x Hx [<-|[]]. exact (Hfresh Hx).
  - intros k t' Hin. apply in_app_or in Hin as [Hin|[[= <- <-]|[]]];
      [now apply Hfiled | reflexivity].
Qed.

Lemma collect_from_filed l : forall acc,
  filed acc -> filed (collect_from acc l).
Proof.
  induction l as [|t l IH]; simpl; intros acc Hacc; [assumption|].
  apply IH. destruct (has (batch_key t) acc) eqn:E; [assumption|].
  apply set_filed_fresh; [assumption | now apply has_false_iff].
Qed.

Lemma get_of_In (m : JsMap.t ProcessingTask) k t :
  NoDup (keys m) -> In (k, t) m -> get k m = Some t.
Proof.
  induction m as [|[k' t'] m IH]; simpl; intros Hnd Hin; [contradiction|].
  apply NoDup_cons_iff in Hnd as [Hfresh Hnd].
  destruct Hin as [[= -> ->]|Hin].
  - now rewrite String.eqb_refl.
  - destruct (String.eqb_spec k' k) as [->|Hne]; [|now apply IH].
    exfalso. apply Hfresh. unfold keys. apply in_map_iff.
    now exists (k, t).
Qed.

Lemma In_of_get (m : JsMap.t ProcessingTask) k t :
  get k m = Some t -> In t (List.map snd m).
Proof.
  induction m as [|[k' t'] m IH]; simpl; [discriminate|].
  destruct (String.eqb k' k); [intros [= ->]; now left | auto].
Qed.

(** A task survives exactly when it is the first of its key in the
    sorted batch. *)
Lemma unique_tasks_In tasks t :
  In t (unique_tasks tasks) <->
  first_with_key (batch_key t) (sort_by_position tasks) = Some t.
Proof.
  unfold unique_tasks, collect_unique.
  change (fold_left _ (sort_by_position tasks) empty)
    with (collect_from empty (sort_by_position tasks)).
  assert (Hfiled : filed (collect_from empty (sort_by_position tasks))).
  { apply collect_from_filed. split; [constructor | intros ? ? []]. }
  pose proof (collect_from_get (batch_key t) (sort_by_position tasks) empty)
    as Hget. simpl in Hget.
  split.
  - intros Hin. apply in_map_iff in Hin as ([k t'] & Ht & Hin).
    simpl in Ht. subst t'.
    destruct Hfiled as [Hnd Hkeys].
    assert (k = batch_key t) by now apply Hkeys. subst k.
    rewrite <- Hget. now apply get_of_In.
  - intros Hfirst. rewrite <- Hget in Hfirst. now apply In_of_get in Hfirst.
Qed.

Lemma first_with_key_Some k l t :
  first_with_key k l = Some t -> In t l /\ batch_key t = k.
Proof.
  intros H. apply find_some in H as [Hin Hk].
  split; [assumption | now apply String.eqb_eq].
Qed.

(** In a sorted list the first task of a key lies at or before every
    other task of that key. *)
Lemma first_with_key_earliest k l t u :
  StronglySorted by_position l ->
  first_with_key k l = Some t -> In u l -> batch_key u = k ->
  position t <= position u.
Proof.
  induction 1 as [|x r Hr IH Hall]; simpl; [discriminate|].
  destruct (String.eqb_spec (batch_key x) k) as [Hx|Hx].
  - intros [= <-] [<-|Hu] _; [lia|].
    rewrite Forall_forall in Hall. now apply Hall.
  - intros Hfirst [<-|Hu] Hk; [contradiction | now apply IH].
Qed.

Lemma first_with_key_exists k l u :
  In u l -> batch_key u = k -> exists t, first_with_key k l = Some t.
Proof.
  intros Hin Hk. destruct (first_with_key k l) as [t|] eqn:E; [eauto|].
  exfalso. unfold first_with_key in E.
  apply (find_none _ _ E) in Hin. apply String.eqb_neq in Hin. contradiction.
Qed.



End DedupFacts.

(** ** URL matcher *)

Module MatcherFacts.
Import JsString JsStringFacts Matcher StringTerms MatcherTerms.

(** *** Progress of the loop *)

Lemma length_url_chars (s : string) :
  String.length (url_chars s) <= String.length s.
Proof.
  induction s as [|c s IH]; simpl; [lia|].
  destruct (url_char c); simpl; lia.
Qed.

Lemma match_core_bounds s m :
  match_core s = Some m ->
  0 < String.length m /\ String.length m <= String.length s.
Proof.
  unfold match_core.
  destruct (startsWith "https://" s) eqn:E1;
    [|destruct (startsWith "http://" s) eqn:E2; [|discriminate]].
  - apply startsWith_iff in E1 as [r ->]. rewrite drop_append.
    pose proof (length_url_chars r) as Hchars.
    destruct (url_chars r) eqn:E; [discriminate|].
    intros [= <-]. rewrite !length_append. simpl in *. lia.
  - apply startsWith_iff in E2 as [r ->]. rewrite drop_append.
    pose proof (length_url_chars r) as Hchars.
    destruct (url_chars r) eqn:E; [discriminate|].
    intros [= <-]. rewrite !length_append. simpl in *. lia.
Qed.

Lemma match_at_bounds text i m :
  match_at text i = Some m ->
  0 < String.length m /\ i + String.length m <= Nat.max i (String.length text).
Proof.
  unfold match_at. destruct (preceded_by_link_open text i); [discriminate|].
  intros E. apply match_core_bounds in E. rewrite length_drop in E. lia.
Qed.

Lemma exec_from_bounds text n i m j :
  exec_from text i n = Some (m, j) ->
  i <= j /\ 0 < String.length m /\ j + String.length m <= Nat.max i (String.length text).
Proof.
  revert i; induction n as [|n IH]; intros i; simpl;
    destruct (match_at text i) as [m'|] eqn:E; intros H;
    try discriminate.
  - injection H as -> ->. apply match_at_bounds in E. lia.
  - injection H as -> ->. apply match_at_bounds in E. lia.
  - apply IH in H. lia.
Qed.

Lemma exec_progress text lastIndex r :
  exec text lastIndex = Some r ->
  lastIndex < next_lastIndex r <= String.length text.
Proof.
  unfold exec, next_lastIndex. destruct r as [m j]; simpl.
  destruct (Nat.ltb_spec (String.length text) lastIndex) as [Hlt|Hge];
    [discriminate|].
  intros H. apply exec_from_bounds in H. lia.
Qed.

Lemma all_chars_append p a b :
  all_chars p (a ++ b) <-> all_chars p a /\ all_chars p b.
Proof. induction a as [|c a IH]; simpl; [tauto | rewrite IH; tauto]. Qed.

Lemma all_chars_get p s : forall k,
  all_chars p s -> k < String.length s ->
  exists c, String.get k s = Some c /\ p c = true.
Proof.
  induction s as [|c s IH]; simpl; intros k Hall Hk; [lia|].
  destruct Hall as [Hc Hall]. destruct k as [|k]; [eauto|].
  apply IH; [assumption | lia].
Qed.

Lemma get_append_left a b : forall k,
  k < String.length a -> String.get k (a ++ b) = String.get k a.
Proof.
  induction a as [|c a IH]; simpl; intros k Hk; [lia|].
  destruct k as [|k]; [reflexivity | apply IH; lia].
Qed.

Lemma get_append_right a b k :
  String.get (String.length a + k) (a ++ b) = String.get k b.
Proof. induction a as [|c a IH]; simpl; [reflexivity | exact IH]. Qed.

Lemma get_drop j : forall s k, String.get k (drop j s) = String.get (j + k) s.
Proof.
  induction j as [|j IH]; intros s k; simpl; [reflexivity|].
  destruct s as [|c s]; [now destruct k | apply IH].
Qed.

(** *** Trimming a text without spaces *)

Lemma rev_string_onto_twice s : forall a b,
  rev_string_onto (rev_string_onto s a) b = rev_string_onto a (s ++ b).
Proof.
  induction s as [|c s IH]; simpl; intros a b; [reflexivity|].
  now rewrite IH.
Qed.

Lemma rev_string_involutive s : rev_string (rev_string s) = s.
Proof.
  unfold rev_string. rewrite rev_string_onto_twice. simpl.
  apply append_nil_r.
Qed.

Lemma all_chars_rev_onto p s : forall acc,
  all_chars p s -> all_chars p acc -> all_chars p (rev_string_onto s acc).
Proof.
  induction s as [|c s IH]; simpl; intros acc Hs Hacc; [assumption|].
  apply IH; [tauto | simpl; tauto].
Qed.

Lemma trimStart_no_space s : all_chars not_space s -> trimStart s = s.
Proof.
  destruct s as [|c s]; simpl; [reflexivity|].
  unfold not_space. intros [Hc _].
  apply negb_true_iff in Hc. now rewrite Hc.
Qed.

Lemma trim_no_space s : all_chars not_space s -> trim s = s.
Proof.
  intros Hs. unfold trim, trimEnd.
  rewrite (trimStart_no_space s) by assumption.
  rewrite trimStart_no_space; [apply rev_string_involutive|].
  apply all_chars_rev_onto; simpl; auto.
Qed.

Lemma url_char_not_space s : all_chars url_char s -> all_chars not_space s.
Proof.
  induction s as [|c s IH]; simpl; [auto|].
  intros [Hc Hs]. split; [|auto].
  unfold url_char in Hc. now apply andb_true_iff in Hc.
Qed.

(** *** What one match is *)

Lemma url_chars_spec s :
  all_chars url_char (url_chars s) /\
  exists rest,
    s = url_chars s ++ rest /\
    (rest = "" \/ exists c r, rest = String c r /\ url_char c = false).
Proof.
  induction s as [|c s [IHall (rest & IHeq & IHrest)]]; simpl.
  - split; [exact I | exists ""; auto].
  - destruct (url_char c) eqn:E; simpl.
    + split; [tauto|]. exists rest. split; [now f_equal | assumption].
    + split; [exact I|]. exists (String c s). split; [reflexivity|].
      right. eauto.
Qed.

Lemma url_chars_maximal body rest :
  all_chars url_char body ->
  (rest = "" \/ exists c r, rest = String c r /\ url_char c = false) ->
  url_chars (body ++ rest) = body.
Proof.
  intros Hbody Hrest. induction body as [|c body IH]; simpl.
  - destruct Hrest as [->|(c & r & -> & Hc)]; simpl; [reflexivity|].
    now rewrite Hc.
  - destruct Hbody as [Hc Hbody]. rewrite Hc. f_equal. now apply IH.
Qed.

Lemma url_token_chars u : url_token u -> all_chars url_char u.
Proof.
  intros (body & [->| ->] & _ & Hbody);
    apply all_chars_append; split; try assumption;
    simpl; repeat split; reflexivity.
Qed.

Lemma match_core_Some s u :
  match_core s = Some u ->
  url_token u /\
  exists rest,
    s = u ++ rest /\
    (rest = "" \/ exists c r, rest = String c r /\ url_char c = false).
Proof.
  unfold match_core.
  destruct (startsWith "https://" s) eqn:E1;
    [|destruct (startsWith "http://" s) eqn:E2; [|discriminate]].
  - apply startsWith_iff in E1 as [r ->]. rewrite drop_append.
    destruct (url_chars_spec r) as [Hall (rest & Hr & Hrest)].
    destruct (url_chars r) as [|c body] eqn:E; [discriminate|].
    intros [= <-]. split.
    + exists (String c body). split; [now right|]. split; [discriminate|].
      exact Hall.
    + exists rest. split; [|assumption].
      rewrite Hr at 1. reflexivity.
  - apply startsWith_iff in E2 as [r ->]. rewrite drop_append.
    destruct (url_chars_spec r) as [Hall (rest & Hr & Hrest)].
    destruct (url_chars r) as [|c body] eqn:E; [discriminate|].
    intros [= <-]. split.
    + exists (String c body). split; [now left|]. split; [discriminate|].
      exact Hall.
    + exists rest. split; [|assumption].
      rewrite Hr at 1. reflexivity.
Qed.

Lemma match_core_token u rest :
  url_token u ->
  (rest = "" \/ exists c r, rest = String c r /\ url_char c = false) ->
  match_core (u ++ rest) = Some u.
Proof.
  intros (body & Hu & Hne & Hbody) Hrest. unfold match_core.
  destruct Hu as [-> | ->].
  - change (startsWith "https://" (("http://" ++ body) ++ rest)) with false.
    assert (E : startsWith "http://" (("http://" ++ body) ++ rest) = true).
    { apply startsWith_iff. exists (body ++ rest). apply append_assoc. }
    rewrite E. rewrite append_assoc, drop_append.
    rewrite url_chars_maximal by assumption.
    destruct body; [congruence | reflexivity].
  - assert (E : startsWith "https://" (("https://" ++ body) ++ rest) = true).
    { apply startsWith_iff. exists (body ++ rest). apply append_assoc. }
    rewrite E. rewrite append_assoc, drop_append.
    rewrite url_chars_maximal by assumption.
    destruct body; [congruence | reflexivity].
Qed.

Lemma match_at_Some text i u :
  match_at text i = Some u ->
  preceded_by_link_open text i = false /\
  url_token u /\ exists rest, drop i text = u ++ rest.
Proof.
  unfold match_at. destruct (preceded_by_link_open text i); [discriminate|].
  intros H. apply match_core_Some in H as [Htok (rest & Hrest & _)].
  split; [reflexivity|]. split; [assumption | eauto].
Qed.

Lemma match_at_inside text i u :
  match_at text i = Some u -> i < String.length text.
Proof.
  intros H. apply match_at_bounds in H. lia.
Qed.

(** *** What [exec] and the loop find *)

Lemma exec_from_Some text n : forall i m j,
  exec_from text i n = Some (m, j) ->
  i <= j /\ match_at text j = Some m /\
  forall k, i <= k < j -> match_at text k = None.
Proof.
  induction n as [|n IH]; intros i m j; simpl;
    destruct (match_at text i) as [m'|] eqn:E; intros H;
    try discriminate.
  - injection H as -> ->. split; [lia|]. split; [assumption|]. intros; lia.
  - injection H as -> ->. split; [lia|]. split; [assumption|]. intros; lia.
  - apply IH in H as (Hij & Hm & Hnone).
    split; [lia|]. split; [assumption|].
    intros k Hk. destruct (Nat.eq_dec k i) as [->|Hne]; [assumption|].
    apply Hnone. lia.
Qed.

Lemma exec_from_None text n : forall i,
  exec_from text i n = None ->
  forall k, i <= k <= i + n -> match_at text k = None.
Proof.
  induction n as [|n IH]; intros i; simpl;
    destruct (match_at text i) as [m'|] eqn:E; intros H k Hk;
    try discriminate.
  - now replace k with i by lia.
  - destruct (Nat.eq_dec k i) as [->|Hne]; [assumption|].
    apply (IH (S i)); [assumption | lia].
Qed.

Lemma exec_Some text lastIndex m j :
  exec text lastIndex = Some (m, j) ->
  lastIndex <= j /\ match_at text j = Some m /\
  forall k, lastIndex <= k < j -> match_at text k = None.
Proof.
  unfold exec.
  destruct (Nat.ltb (String.length text) lastIndex); [discriminate|].
  apply exec_from_Some.
Qed.

Lemma exec_None text lastIndex k :
  exec text lastIndex = None -> lastIndex <= k -> match_at text k = None.
Proof.
  unfold exec. intros H Hk.
  destruct (match_at text k) as [u|] eqn:E; [|reflexivity].
  pose proof (match_at_inside _ _ _ E) as Hin.
  destruct (Nat.ltb_spec (String.length text) lastIndex); [lia|].
  rewrite <- E. apply (exec_from_None _ _ _ H). lia.
Qed.

Lemma exec_loop_unfold text lastIndex :
  exec_loop text lastIndex
  = match exec text lastIndex with
    | None => []
    | Some r =>
        mkURLMatch (trim (fst r)) (snd r)
          :: exec_loop text (next_lastIndex r)
    end.
Proof.
  rewrite exec_loop_equation_1. unfold exec_loop_unfold_clause_1.
  destruct (exec text lastIndex); reflexivity.
Qed.

(** Every reported occurrence is a match of the pattern at its index,
    reported as it stands. *)
Lemma exec_loop_sound text : forall n lastIndex m,
  S (String.length text) - lastIndex <= n ->
  In m (exec_loop text lastIndex) ->
  lastIndex <= index m /\ match_at text (index m) = Some (url m).
Proof.
  induction n as [|n IH]; intros lastIndex m Hn;
    rewrite exec_loop_unfold;
    destruct (exec text lastIndex) as [[u j]|] eqn:E; simpl;
    try contradiction.
  - apply exec_progress in E. unfold next_lastIndex in E. simpl in E. lia.
  - pose proof (exec_progress _ _ _ E) as Hprog.
    pose proof (exec_Some _ _ _ _ E) as (Hle & Hmatch & _).
    intros [<-|Hin]; simpl.
    + split; [assumption|].
      rewrite trim_no_space; [assumption|].
      apply url_char_not_space, url_token_chars.
      now apply match_at_Some in Hmatch.
    + apply IH in Hin; [|lia].
      unfold next_lastIndex in *. simpl in *. split; [lia | tauto].
Qed.

(** A match that no earlier match runs into is reported. *)
Lemma exec_loop_complete text i u :
  match_at text i = Some u ->
  (forall j m, j < i -> match_at text j = Some m ->
               j + String.length m <= i) ->
  forall n lastIndex,
    i - lastIndex <= n -> lastIndex <= i ->
    In (mkURLMatch u i) (exec_loop text lastIndex).
Proof.
  intros Hmatch Hclear.
  induction n as [|n IH]; intros lastIndex Hn Hle;
    rewrite exec_loop_unfold;
    destruct (exec text lastIndex) as [[m j]|] eqn:E.
  - apply exec_Some in E as (Hj & Hm & Hnone).
    assert (j = i).
    { destruct (Nat.eq_dec j i); [assumption|].
      rewrite (Hnone i) in Hmatch by lia. discriminate. }
    subst j. simpl. left. rewrite Hm in Hmatch. injection Hmatch as ->.
    f_equal. apply trim_no_space, url_char_not_space, url_token_chars.
    now apply match_at_Some in Hm.
  - rewrite (exec_None _ _ i E) in Hmatch by lia. discriminate.
  - pose proof (exec_Some _ _ _ _ E) as (Hj & Hm & Hnone).
    destruct (Nat.lt_trichotomy j i) as [Hlt|[->|Hgt]].
    + right. apply IH; unfold next_lastIndex; simpl.
      * pose proof (match_at_bounds _ _ _ Hm). lia.
      * now apply (Hclear j m).
    + simpl. left. rewrite Hm in Hmatch. injection Hmatch as ->.
      f_equal. apply trim_no_space, url_char_not_space, url_token_chars.
      now apply match_at_Some in Hm.
    + rewrite (Hnone i) in Hmatch by lia. discriminate.
  - rewrite (exec_None _ _ i E) in Hmatch by lia. discriminate.
Qed.

(** *** Boundaries *)

Lemma get_last p c rest :
  String.get (String.length p) ((p ++ String c "") ++ rest) = Some c.
Proof.
  rewrite append_assoc.
  replace (String.length p) with (String.length p + 0) by lia.
  now rewrite get_append_right.
Qed.

Lemma preceded_by_link_open_true text i :
  preceded_by_link_open text i = true <->
  exists before after,
    text = before ++ "](" ++ after /\ String.length before + 2 = i.
Proof.
  unfold preceded_by_link_open. rewrite andb_true_iff, startsWith_iff. split.
  - intros [Hi [after Hafter]]. apply Nat.leb_le in Hi.
    exists (take (i - 2) text), after. split.
    + rewrite <- Hafter. symmetry. apply take_drop.
    + rewrite length_take.
      assert (i - 2 <= String.length text); [|lia].
      pose proof (length_drop (i - 2) text) as Hlen.
      rewrite Hafter, length_append in Hlen. simpl in Hlen. lia.
  - intros (before & after & -> & <-). split; [apply Nat.leb_le; lia|].
    exists after. replace (String.length before + 2 - 2)
      with (String.length before) by lia.
    apply drop_append.
Qed.

Lemma boundary_not_link_open pre rest :
  boundary_before pre ->
  preceded_by_link_open (pre ++ rest) (String.length pre) = false.
Proof.
  intros [->|(p & c & -> & Hc)]; [reflexivity|].
  destruct (preceded_by_link_open _ _) eqn:E; [|reflexivity].
  apply preceded_by_link_open_true in E as (before & after & Htext & Hlen).
  rewrite length_append in Hlen. simpl in Hlen.
  assert (Hget : String.get (String.length p) ((p ++ String c "") ++ rest)
                 = Some "("%char).
  { rewrite Htext. replace (String.length p) with (String.length before + 1)
      by lia. now rewrite get_append_right. }
  rewrite get_last in Hget. injection Hget as ->. discriminate.
Qed.

Lemma boundary_stops_matches pre rest j m :
  boundary_before pre ->
  j < String.length pre ->
  match_at (pre ++ rest) j = Some m ->
  j + String.length m <= String.length pre.
Proof.
  intros [->|(p & c & -> & Hc)] Hj Hm; [simpl in Hj; lia|].
  rewrite length_append in *. simpl in *.
  destruct (Nat.le_gt_cases (j + String.length m) (String.length p + 1))
    as [Hle|Hgt]; [assumption|].
  exfalso.
  apply match_at_Some in Hm as (_ & Htok & tail & Hdrop).
  apply url_token_chars in Htok.
  destruct (all_chars_get _ _ (String.length p - j) Htok) as (x & Hx & Hux);
    [lia|].
  assert (Hget : String.get (String.length p) ((p ++ String c "") ++ rest)
                 = Some x).
  { replace (String.length p) with (j + (String.length p - j)) at 1 by lia.
    rewrite <- get_drop, Hdrop, get_append_left by lia. exact Hx. }
  rewrite get_last in Hget. injection Hget as ->. congruence.
Qed.

(** C6, evaluated on the code.  A URL inside a well-formed markdown link is
    reported whenever it does not start directly behind [](]: the lookbehind
    of the pattern rejects a match at that one place only.  On
    [[Archived](https://web.archive.org/web/2020/https://example.com/)] the
    second address inside the target is reported at index 44; on
    [[https://a.b](https://c.d)], and on every link whose label is a URL,
    what is reported starts inside the label at index 1 and runs through
    the [](] to the end of the target.  The debounced handler then rewrites
    inside the link: the line [[https://a.b](https://c.d)] becomes
    [[[T](https://a.b](https://c.d))] for the title [T]. *)
Theorem url_inside_link_is_reported :
  findURLsInText
    "[Archived](https://web.archive.org/web/2020/https://example.com/)"
  = [mkURLMatch "https://example.com/" 44] /\
  findURLsInText "[https://a.b](https://c.d)"
  = [mkURLMatch "https://a.b](https://c.d" 1] /\
  ~ reports_nothing_inside_links /\
  (forall u v,
      url_token u -> all_chars url_char v ->
      In (mkURLMatch (u ++ "](" ++ v) 1)
         (findURLsInText ("[" ++ u ++ "](" ++ v ++ ")"))) /\
  (let s :=
     Engine.handleChange_callback 600
       (Engine.initial (Editor.mk ["[https://a.b](https://c.d)"] 0 0)) in
   exists s',
     Engine.drainer_resolved 900 0 (Resolver.Return "T") s = Some s' /\
     Editor.lines (Engine.editor s') = ["[[T](https://a.b](https://c.d))"]).
Proof.
  split; [reflexivity|]. split; [reflexivity|]. split; [|split].
  - intros Hclaim.
    apply (Hclaim "" "Archived"
             "https://web.archive.org/web/2020/https://example.com/" ""
             (mkURLMatch "https://example.com/" 44)).
    + simpl. left. reflexivity.
    + simpl. lia.
  - intros u v Hu Hv.
    assert (Htoken : url_token (u ++ "](" ++ v)).
    { destruct Hu as (body & Hscheme & Hne & Hbody).
      exists (body ++ "](" ++ v). split; [|split].
      - destruct Hscheme as [-> | ->]; [left | right]; apply append_assoc.
      - destruct body; [congruence | discriminate].
      - apply all_chars_append. split; [assumption|].
        simpl. repeat split; assumption. }
    apply (exec_loop_complete _ 1 _) with (n := 1); [| |lia|lia].
    + unfold match_at.
      change (preceded_by_link_open ("[" ++ u ++ "](" ++ v ++ ")") 1)
        with false.
      change (drop 1 ("[" ++ u ++ "](" ++ v ++ ")"))
        with (u ++ "](" ++ v ++ ")").
      replace (u ++ "](" ++ v ++ ")") with ((u ++ "](" ++ v) ++ ")")
        by now rewrite !append_assoc.
      apply match_core_token; [exact Htoken|].
      right. exists ")"%char, "". split; reflexivity.
    + intros j m Hj Hm. assert (j = 0) by lia. subst j.
      discriminate Hm.
  - eexists. split; vm_compute; reflexivity.
Qed.

(** X20. What the matcher reports.  Every reported occurrence is a match
    of [https?://[^\s)]+] standing at its index and not directly preceded
    by [](]; so the target of a markdown link [[label](target)] is never
    reported at its own start offset.  A match of the pattern that no
    earlier match runs into is reported, with the index of its first
    character.  In particular a URL token (the scheme and one or more
    characters other than spaces and [)]) that starts at the beginning of
    the text or behind a space or [)], and ends at the end of the text or
    before a space or [)], is reported with the index of its first
    character. *)
Theorem matcher_skips_link_targets_and_reports_bare_urls :
  (forall text m,
      In m (findURLsInText text) ->
      url_token (url m) /\
      occurs_at (url m) (index m) text /\
      preceded_by_link_open text (index m) = false) /\
  (forall pre label target rest m,
      In m (findURLsInText (pre ++ "[" ++ label ++ "](" ++ target ++ rest)) ->
      index m <> String.length (pre ++ "[" ++ label ++ "](")) /\
  (forall pre u post,
      url_token u -> boundary_before pre -> boundary_after post ->
      In (mkURLMatch u (String.length pre))
         (findURLsInText (pre ++ u ++ post))) /\
  (forall text i u,
      match_at text i = Some u ->
      (forall j m, j < i -> match_at text j = Some m ->
                   j + String.length m <= i) ->
      In (mkURLMatch u i) (findURLsInText text)).
Proof.
  assert (Hsound : forall text m,
             In m (findURLsInText text) ->
             match_at text (index m) = Some (url m)).
  { intros text m Hin.
    apply (exec_loop_sound text (S (String.length text)) 0 m); [lia|].
    exact Hin. }
  split; [|split; [|split]].
  - intros text m Hin. apply Hsound in Hin.
    pose proof (match_at_inside _ _ _ Hin) as Hlt.
    apply match_at_Some in Hin as (Hopen & Htok & rest & Hdrop).
    split; [assumption|]. split; [|assumption].
    exists (take (index m) text), rest. split.
    + rewrite <- Hdrop. symmetry. apply take_drop.
    + rewrite length_take. lia.
  - intros pre label target rest m Hin Hidx. apply Hsound in Hin.
    apply match_at_Some in Hin as (Hopen & _).
    assert (Htrue : preceded_by_link_open
                      (pre ++ "[" ++ label ++ "](" ++ target ++ rest)
                      (index m) = true); [|congruence].
    apply preceded_by_link_open_true.
    exists (pre ++ "[" ++ label), (target ++ rest). split.
    + now rewrite !append_assoc.
    + rewrite Hidx. repeat (rewrite length_append; simpl). lia.
  - intros pre u post Htok Hpre Hpost.
    apply (exec_loop_complete _ _ _) with (n := String.length pre).
    + unfold match_at. rewrite boundary_not_link_open by assumption.
      rewrite drop_append. now apply match_core_token.
    + intros j m Hj Hm. now apply (boundary_stops_matches pre (u ++ post)).
    + lia.
    + lia.
  - intros text i u Hm Hclear.
    apply (exec_loop_complete text i u Hm Hclear i 0); lia.
Qed.

(** X20 on [see https://example.com/cool-page for info]. *)
Lemma matcher_skips_link_targets_and_reports_bare_urls_witness :
  In (mkURLMatch "https://example.com/cool-page" 4)
     (findURLsInText "see https://example.com/cool-page for info").
Proof.
  destruct matcher_skips_link_targets_and_reports_bare_urls
    as (_ & _ & Hbare & _).
  apply (Hbare "see " "https://example.com/cool-page" " for info").
  - exists "example.com/cool-page". split; [now right|].
    split; [discriminate|]. simpl. repeat split.
  - right. exists "see", " "%char. split; reflexivity.
  - right. exists " "%char, "for info". split; reflexivity.
Defined.

End MatcherFacts.

(** ** URL-derived fallback title *)

Module FallbackFacts.
Import JsString JsStringFacts Fallback MatcherFacts StringTerms FallbackTerms.

(** *** The last path segment *)

Lemma rev_string_onto_append s : forall acc,
  rev_string_onto s acc = rev_string s ++ acc.
Proof.
  unfold rev_string. induction s as [|c s IH]; simpl; intros acc.
  - reflexivity.
  - rewrite IH, (IH (String c "")), append_assoc. reflexivity.
Qed.

Lemma split_onto_segment seg : forall cur,
  all_chars no_slash seg ->
  split_onto "/" seg cur = [rev_string cur ++ seg].
Proof.
  induction seg as [|c seg IH]; simpl; intros cur Hseg.
  - now rewrite append_nil_r.
  - destruct Hseg as [Hc Hseg]. unfold no_slash in Hc.
    apply negb_true_iff in Hc. rewrite Hc, IH by assumption.
    unfold rev_string. simpl.
    now rewrite rev_string_onto_append, append_assoc.
Qed.

Lemma split_onto_last pre seg : forall cur,
  all_chars no_slash seg ->
  exists front,
    split_onto "/" (pre ++ String "/" seg) cur = (front ++ [seg])%list.
Proof.
  induction pre as [|c pre IH]; simpl; intros cur Hseg.
  - exists [rev_string cur]. now rewrite split_onto_segment.
  - destruct (Ascii.eqb c "/").
    + destruct (IH "" Hseg) as [front ->]. now exists (rev_string cur :: front).
    + apply IH, Hseg.
Qed.

Lemma pop_snoc front x : pop (front ++ [x]) = Some x.
Proof. unfold pop. now rewrite rev_app_distr. Qed.

Lemma pop_split_last_segment path seg :
  last_segment path seg -> or_empty (pop (split "/" path)) = seg.
Proof.
  intros [Hseg [->|[pre ->]]]; unfold split.
  - now rewrite split_onto_segment.
  - change (pre ++ "/" ++ seg) with (pre ++ String "/" seg).
    destruct (split_onto_last pre seg "" Hseg) as [front ->].
    now rewrite pop_snoc.
Qed.

(** Every path has a last segment. *)
Lemma last_segment_exists path : exists seg, last_segment path seg.
Proof.
  induction path as [|c path (seg & Hseg & Hpath)].
  - exists "". split; [exact I | now left].
  - destruct (Ascii.eqb_spec c "/") as [->|Hne].
    + destruct Hpath as [->|[pre ->]].
      * exists seg. split; [assumption|]. right. now exists "".
      * exists seg. split; [assumption|]. right. now exists (String "/" pre).
    + destruct Hpath as [->|[pre ->]].
      * exists (String c seg). split; [|now left]. simpl. split; [|assumption].
        unfold no_slash. apply negb_true_iff. now apply Ascii.eqb_neq.
      * exists seg. split; [assumption|]. right. now exists (String c pre).
Qed.

(** *** Extensions *)

Lemma to_lower_append a b : to_lower (a ++ b) = to_lower a ++ to_lower b.
Proof.
  unfold to_lower. induction a as [|c a IH]; simpl; [reflexivity|].
  now rewrite IH.
Qed.

Lemma is_extension_shape e :
  is_extension e = true -> exists r, e = String "." r /\ all_chars no_dot r.
Proof.
  unfold is_extension. rewrite !orb_true_iff, !String.eqb_eq.
  intros [[[-> | ->] | ->] | ->]; eexists; (split; [reflexivity|]);
    simpl; repeat split.
Qed.

Lemma suffix_no_dot a : forall b r,
  a ++ b = r -> all_chars no_dot r -> all_chars no_dot b.
Proof.
  induction a as [|c a IH]; simpl; intros b r <-; [auto|].
  simpl. intros [_ H]. now apply (IH b (a ++ b)).
Qed.

(** A proper suffix of an extension is not an extension. *)
Lemma extension_proper_suffix c a b :
  extension (String c a ++ b) -> ~ extension b.
Proof.
  unfold extension. intros Hwhole Hb.
  apply is_extension_shape in Hwhole as (r & Hr & Hdots).
  apply is_extension_shape in Hb as (r' & Hr' & _).
  rewrite to_lower_append in Hr. simpl in Hr. injection Hr as _ Hr.
  apply (suffix_no_dot _ _ _ Hr) in Hdots.
  rewrite Hr' in Hdots. simpl in Hdots. destruct Hdots as [Hdot _].
  discriminate.
Qed.

Lemma strip_extension_unfold s :
  strip_extension s
  = if is_extension (to_lower s) then ""
    else match s with
         | EmptyString => ""
         | String c r => String c (strip_extension r)
         end.
Proof. destruct s; reflexivity. Qed.

Lemma strip_extension_suffix stem : forall ext,
  extension ext -> strip_extension (stem ++ ext) = stem.
Proof.
  induction stem as [|c stem IH]; intros ext Hext;
    rewrite strip_extension_unfold.
  - simpl. unfold extension in Hext. now rewrite Hext.
  - assert (Hnot : is_extension (to_lower (String c stem ++ ext)) = false).
    { destruct (is_extension (to_lower (String c stem ++ ext))) eqn:E;
        [|reflexivity].
      exfalso. exact (extension_proper_suffix c stem ext E Hext). }
    rewrite Hnot. simpl. f_equal. now apply IH.
Qed.

Lemma strip_extension_none s :
  (forall stem ext, s = stem ++ ext -> ~ extension ext) ->
  strip_extension s = s.
Proof.
  induction s as [|c s IH]; intros Hnone.
  - reflexivity.
  - assert (Hnot : is_extension (to_lower (String c s)) = false).
    { destruct (is_extension (to_lower (String c s))) eqn:E; [|reflexivity].
      exfalso. exact (Hnone "" (String c s) eq_refl E). }
    rewrite strip_extension_unfold, Hnot. f_equal. apply IH.
    intros stem ext ->. apply (Hnone (String c stem) ext). reflexivity.
Qed.

(** *** The fallback title *)

(** The claim of the specification, as it is worded, does not describe
    the code: with a trailing slash the code takes the empty last segment
    and falls back to the host name, where the claim takes the last
    non-empty segment; and the code also strips [.asp] and extensions in
    upper case. *)
Lemma fallback_differs_from_specified_title :
  getTitleFromURL Reference.platform "https://example.org/docs/"
  = "example.org" /\
  specified_title Reference.platform "https://example.org/docs/" = "docs" /\
  getTitleFromURL Reference.platform "https://example.org/a/page.asp"
  = "page" /\
  specified_title Reference.platform "https://example.org/a/page.asp"
  = "page.asp" /\
  getTitleFromURL Reference.platform "https://example.org/Index.HTML"
  = "Index" /\
  specified_title Reference.platform "https://example.org/Index.HTML"
  = "Index.HTML" /\
  ~ (forall url,
        getTitleFromURL Reference.platform url
        = specified_title Reference.platform url).
Proof.
  repeat (split; [reflexivity|]).
  intros H. specialize (H "https://example.org/docs/"). discriminate H.
Qed.

(** C7, as the code has it.  [getTitleFromURL] returns its input when
    the input does not parse as a URL or its last path segment cannot be
    percent-decoded.  Otherwise it takes the last path segment (what
    follows the last [/], empty when the path ends in [/]), decodes it and
    replaces [-] and [_] by spaces; when nothing is left (or a lone [/]) it
    takes the host name without a leading [www.] instead; from that text it
    strips a final [.html], [.php], [.asp] or [.aspx] in any case, replaces
    [-] and [_] by spaces and trims; it returns the result, or the host name
    when the result is empty.  In particular
    [https://example.org/My_Report.html] gives [My Report] and
    [https://example.org/] gives [example.org]. *)
Theorem fallback_title_from_last_segment (P : Platform.t) :
  (forall url,
      Platform.parseURL P url = None -> getTitleFromURL P url = url) /\
  (forall url urlObj seg,
      Platform.parseURL P url = Some urlObj ->
      last_segment (Platform.pathname urlObj) seg ->
      (Platform.decodeURIComponent P seg = None ->
       getTitleFromURL P url = url) /\
      (forall decoded,
          Platform.decodeURIComponent P seg = Some decoded ->
          let cleaned :=
            tidy (strip_extension
                    (title_source decoded (Platform.hostname urlObj))) in
          getTitleFromURL P url
          = if String.eqb cleaned "" then Platform.hostname urlObj
            else cleaned)) /\
  (forall stem ext, extension ext -> strip_extension (stem ++ ext) = stem) /\
  (forall s, (forall stem ext, s = stem ++ ext -> ~ extension ext) ->
             strip_extension s = s) /\
  (Platform.parseURL P "https://example.org/My_Report.html"
   = Some (Platform.mkURL "/My_Report.html" "example.org") ->
   Platform.decodeURIComponent P "My_Report.html" = Some "My_Report.html" ->
   getTitleFromURL P "https://example.org/My_Report.html" = "My Report") /\
  (Platform.parseURL P "https://example.org/"
   = Some (Platform.mkURL "/" "example.org") ->
   Platform.decodeURIComponent P "" = Some "" ->
   getTitleFromURL P "https://example.org/" = "example.org").
Proof.
  split; [|split; [|split; [|split; [|split]]]].
  - intros url Hparse. unfold getTitleFromURL. now rewrite Hparse.
  - intros url urlObj seg Hparse Hseg.
    apply pop_split_last_segment in Hseg.
    unfold getTitleFromURL. rewrite Hparse. unfold or_empty in *.
    rewrite Hseg. split.
    + intros Hdecode. now rewrite Hdecode.
    + intros decoded Hdecode. now rewrite Hdecode.
  - intros stem ext. apply strip_extension_suffix.
  - apply strip_extension_none.
  - intros Hparse Hdecode. unfold getTitleFromURL. rewrite Hparse.
    cbn [Platform.pathname Platform.hostname].
    change (or_empty (pop (split "/" "/My_Report.html")))
      with "My_Report.html".
    rewrite Hdecode. reflexivity.
  - intros Hparse Hdecode. unfold getTitleFromURL. rewrite Hparse.
    cbn [Platform.pathname Platform.hostname].
    change (or_empty (pop (split "/" "/"))) with "".
    rewrite Hdecode. reflexivity.
Qed.

(** C7 on the reference platform. *)
Lemma fallback_title_from_last_segment_witness :
  getTitleFromURL Reference.platform "https://example.org/My_Report.html"
  = "My Report" /\
  getTitleFromURL Reference.platform "https://example.org/"
  = "example.org" /\
  getTitleFromURL Reference.platform "https://example.org/docs/"
  = "example.org".
Proof.
  destruct (fallback_title_from_last_segment Reference.platform)
    as (_ & Hgeneral & _ & _ & HB & HC).
  split; [apply HB; reflexivity|].
  split; [apply HC; reflexivity|].
  destruct (Hgeneral "https://example.org/docs/"
              (Platform.mkURL "/docs/" "example.org") "") as [_ Hdecoded].
  - reflexivity.
  - split; [exact I|]. right. now exists "/docs".
  - apply (Hdecoded ""). reflexivity.
Defined.

End FallbackFacts.

(** ** Title resolver *)

Module ResolverFacts.
Import JsString Resolver ResolverTerms.

Lemma extends_refl w : extends w w [].
Proof. split; [reflexivity | now rewrite app_nil_r]. Qed.

Lemma extends_trans w1 w2 w3 a b :
  extends w1 w2 a -> extends w2 w3 b -> extends w1 w3 (a ++ b).
Proof.
  intros [Hn1 Ht1] [Hn2 Ht2]. split; [congruence|].
  now rewrite Ht2, Ht1, app_assoc.
Qed.

Section WithPlatform.
Variable P : Platform.t.

(** One iteration of the loop always returns a title: a rejected
    [fetch], or a rejected [text()], is caught by the inner [try], and the
    fallback title follows. *)
Lemma attempt_body_returns url w :
  exists t w' added,
    attempt_body P url w = (Return t, w') /\
    extends w w' added /\ Forall no_wait added.
Proof.
  unfold attempt_body, bind, try_catch, fetch, getTitleFromURL, console,
    emit, ret, settle, bind.
  destruct (network w (calls w) url) as [response|e]; simpl.
  - destruct (opaque response); simpl.
    + do 3 eexists. split; [reflexivity|]. split.
      * split; simpl; [reflexivity|]. now rewrite <- app_assoc.
      * repeat constructor.
    + destruct (ok response); simpl.
      * destruct (text response) as [html|e]; simpl.
        -- destruct (match_title html); simpl.
           ++ do 3 eexists. split; [reflexivity|]. split.
              ** split; simpl; reflexivity.
              ** repeat constructor.
           ++ do 3 eexists. split; [reflexivity|]. split.
              ** split; simpl; [reflexivity|]. now rewrite <- app_assoc.
              ** repeat constructor.
        -- do 3 eexists. split; [reflexivity|]. split.
           ++ split; simpl; [reflexivity|]. now rewrite <- !app_assoc.
           ++ repeat constructor.
      * do 3 eexists. split; [reflexivity|]. split.
        -- split; simpl; [reflexivity|]. now rewrite <- app_assoc.
        -- repeat constructor.
  - do 3 eexists. split; [reflexivity|]. split.
    + split; simpl; [reflexivity|]. now rewrite <- !app_assoc.
    + repeat constructor.
Qed.

(** So the loop ends in its first iteration: no retry, no backoff wait,
    no exception. *)
Lemma attempts_returns url retries delay remaining attempt w :
  exists t w' added,
    attempts P url retries delay remaining attempt w = (Return t, w') /\
    extends w w' added /\ Forall no_wait added.
Proof.
  destruct remaining as [|remaining]; simpl.
  - exists url, w, []. split; [reflexivity|].
    split; [apply extends_refl | constructor].
  - unfold try_catch.
    destruct (attempt_body_returns url w) as (t & w' & added & -> & H).
    now exists t, w', added.
Qed.

Lemma oEmbed_returns url w :
  exists r w' added,
    oEmbed url w = (Return r, w') /\
    extends w w' added /\ Forall no_wait added.
Proof.
  unfold oEmbed, bind, try_catch, fetcher, fetch, console, emit, ret,
    settle, bind. simpl.
  destruct (network w (calls w) _) as [response|e]; simpl.
  - destruct (ok response); simpl.
    + destruct (json response) as [data|e]; simpl.
      * destruct (truthy (title data) && truthy (provider_name data)).
        -- do 3 eexists. split; [reflexivity|]. split.
           ++ split; simpl; [reflexivity|]. now rewrite <- app_assoc.
           ++ repeat constructor.
        -- do 3 eexists. split; [reflexivity|]. split.
           ++ split; simpl; [reflexivity|]. now rewrite <- app_assoc.
           ++ repeat constructor.
      * do 3 eexists. split; [reflexivity|]. split.
        -- split; simpl; [reflexivity|]. now rewrite <- !app_assoc.
        -- repeat constructor.
    + do 3 eexists. split; [reflexivity|]. split.
      * split; simpl; [reflexivity|]. now rewrite <- app_assoc.
      * repeat constructor.
  - do 3 eexists. split; [reflexivity|]. split.
    + split; simpl; [reflexivity|]. now rewrite <- !app_assoc.
    + repeat constructor.
Qed.

(** [fetchPageTitleWithRetry] never throws and never waits, whatever the
    network does. *)
Lemma fetchPageTitleWithRetry_returns url retries delay w :
  exists t w' added,
    fetchPageTitleWithRetry P url retries delay w = (Return t, w') /\
    extends w w' added /\ Forall no_wait added.
Proof.
  unfold fetchPageTitleWithRetry, bind.
  destruct (oEmbed_returns url w) as (r & w1 & a1 & -> & Hext1 & Hnw1).
  destruct r as [t|].
  - now exists t, w1, a1.
  - destruct (attempts_returns url retries delay (S retries) 0 w1)
      as (t & w2 & a2 & -> & Hext2 & Hnw2).
    exists t, w2, (a1 ++ a2)%list. split; [reflexivity|].
    split; [now apply (extends_trans w w1 w2) | now apply Forall_app].
Qed.

Lemma resolve_returns url w :
  exists t, fst (resolve P url w) = Return t.
Proof.
  destruct (fetchPageTitleWithRetry_returns url 3 1000 w)
    as (t & w' & added & H & _).
  exists t. unfold resolve. now rewrite H.
Qed.

End WithPlatform.

(** C1, evaluated on the code.  When the embed lookup fails and every
    direct [fetch] rejects, [fetchPageTitleWithRetry] does not wait and
    retry, and does not throw: the rejection of the first direct [fetch] is
    caught inside the loop body, and the method returns the URL-derived
    fallback title after that single attempt.  The trace holds the two
    [fetch] calls and no [Wait]. *)
Theorem rejected_fetch_yields_fallback_without_retry
  (P : Platform.t) (url : string) (retries delay : nat) (w : world) :
  (forall n u, exists e, network w n u = Throw e) ->
  fetchPageTitleWithRetry P url retries delay w
  = (Return (Fallback.getTitleFromURL P url),
     mkWorld (network w) (calls w + 2)
             (trace w ++ unanswered_trace url)) /\
  Forall no_wait (unanswered_trace url).
Proof.
  intros Hdown. split; [|repeat constructor].
  unfold fetchPageTitleWithRetry, oEmbed, bind, try_catch, fetcher, fetch,
    console, emit, ret, settle, bind.
  cbn [network calls trace].
  destruct (Hdown (calls w) ("https://noembed.com/embed?url=" ++ url))
    as [e1 ->].
  cbn [attempts].
  unfold try_catch, attempt_body, bind, try_catch, fetch, getTitleFromURL,
    console, emit, ret, settle, bind.
  cbn [network calls trace].
  destruct (Hdown (S (calls w)) url) as [e2 ->].
  cbn [network calls trace].
  unfold unanswered_trace.
  f_equal. f_equal; [lia|].
  rewrite <- !app_assoc. reflexivity.
Qed.

(** C1 for [https://example.org/My_Report.html] with the default
    [retries = 3] and [delay = 1000], on a network that is down: the
    method returns ["My Report"]. *)
Lemma rejected_fetch_yields_fallback_without_retry_witness :
  resolve Reference.platform "https://example.org/My_Report.html"
          (fresh_world unreachable_network)
  = (Return "My Report",
     mkWorld unreachable_network 2
       (unanswered_trace "https://example.org/My_Report.html")).
Proof.
  apply (rejected_fetch_yields_fallback_without_retry
           Reference.platform
           "https://example.org/My_Report.html" 3 1000
           (fresh_world unreachable_network)).
  intros n u. now exists failed_to_fetch.
Defined.

End ResolverFacts.

(** ** The engine's reachable states *)

Module InvariantFacts.
Import JsString Resolver Engine EngineTerms.

(** Reduce the projections of updated states. *)
Ltac fields :=
  cbn [urlCache processingUrls processingQueue isProcessing debounceTimeout
       retryQueue editor editorActive errorLog drainers scheduler
       with_urlCache with_processingUrls with_processingQueue
       with_isProcessing with_debounceTimeout with_retryQueue with_editor
       with_editorActive with_errorLog with_drainers with_scheduler
       release spawn install fst snd app remove_nth] in *.

Ltac establish := unfold invariant; fields.

Lemma set_delete_add_empty key : set_delete key (set_add key []) = [].
Proof.
  unfold set_add, set_delete. simpl. now rewrite String.eqb_refl.
Qed.

Lemma set_delete_single key : set_delete key [key] = [].
Proof. unfold set_delete. simpl. now rewrite String.eqb_refl. Qed.

Lemma has_get_Some {V} k (m : JsMap.t V) :
  JsMap.has k m = true -> exists v, JsMap.get k m = Some v.
Proof.
  unfold JsMap.has. destruct (JsMap.get k m) as [v|]; [eauto | discriminate].
Qed.

(** [processURL] entered while nothing is in flight: it settles at once
    and leaves the in-flight set empty, or it awaits the resolver with
    just its key in the set.  It never throws. *)
Lemma processURL_begin_idle s t key :
  processingUrls s = [] ->
  (exists s1,
      processURL_begin s t key = Finished (Return tt) s1 /\
      processingUrls s1 = [] /\
      retryQueue s1 = retryQueue s /\ scheduler s1 = scheduler s /\
      drainers s1 = drainers s /\ isProcessing s1 = isProcessing s /\
      errorLog s1 = errorLog s /\ processingQueue s1 = processingQueue s) \/
  (exists s1,
      processURL_begin s t key = Awaiting s1 /\
      processingUrls s1 = [key] /\
      retryQueue s1 = retryQueue s /\ scheduler s1 = scheduler s /\
      drainers s1 = drainers s /\ isProcessing s1 = isProcessing s /\
      errorLog s1 = errorLog s /\ processingQueue s1 = processingQueue s).
Proof.
  intros Hempty. unfold processURL_begin.
  cbn [editor urlCache with_processingUrls].
  destruct (stale t (editor s)).
  - left. eexists. split; [reflexivity|].
    fields. rewrite Hempty. split; [apply set_delete_add_empty|].
    repeat split.
  - destruct (JsMap.has (url t) (urlCache s)) eqn:Ehas.
    + apply has_get_Some in Ehas as [cachedTitle ->].
      left. eexists. split; [reflexivity|].
      fields. rewrite Hempty. split; [apply set_delete_add_empty|].
      repeat split.
    + right. eexists. split; [reflexivity|].
      fields. rewrite Hempty. repeat split.
Qed.

Lemma task_begin_idle now t s :
  processingUrls s = [] ->
  let '(s1, awaited) := task_begin now t s in
  retryQueue s1 = retryQueue s /\ scheduler s1 = scheduler s /\
  drainers s1 = drainers s /\ isProcessing s1 = isProcessing s /\
  errorLog s1 = errorLog s /\ processingQueue s1 = processingQueue s /\
  ((awaited = None /\ processingUrls s1 = []) \/
   (awaited = Some (inflight_key t) /\
    processingUrls s1 = [inflight_key t])).
Proof.
  intros Hempty. unfold task_begin. rewrite Hempty. cbn [set_has existsb].
  destruct (processURL_begin_idle s t (inflight_key t) Hempty)
    as [(s1 & -> & Hset & H)|(s1 & -> & Hset & H)].
  - repeat split; try tauto.
  - repeat split; try tauto.
Qed.

Lemma drain_next_idle now s :
  processingUrls s = [] -> drainers s = [] -> isProcessing s = true ->
  retryQueue s = [] -> scheduler s = RetrySleep ->
  let '(s1, d) := drain_next now s in invariant (spawn d s1).
Proof.
  intros Hset Hdrainers Hflag Hretry Hsched. unfold drain_next.
  destruct (processingQueue s) as [|t rest] eqn:Equeue.
  - establish. split; [assumption|]. split; [assumption|].
    now apply drained_idle.
  - pose proof (task_begin_idle now t
                  (with_processingQueue (fun _ => rest) s) Hset) as Hbegin.
    destruct (task_begin now t (with_processingQueue (fun _ => rest) s))
      as [s1 awaited].
    fields.
    destruct Hbegin as (Hr & Hs & Hd & Hp & _ & _ & Hcases).
    destruct Hcases as [[-> Hset1]|[-> Hset1]]; establish.
    + split; [congruence|]. split; [congruence|].
      apply drained_pausing; fields; [congruence | | assumption].
      now rewrite Hd, Hdrainers.
    + split; [congruence|]. split; [congruence|].
      apply (drained_awaiting _ t); fields; [congruence | | assumption].
      now rewrite Hd, Hdrainers.
Qed.

Lemma processQueue_invariant now s :
  invariant s -> invariant (processQueue now s).
Proof.
  intros (Hretry & Hsched & Hdrained). unfold processQueue.
  destruct (isProcessing s) eqn:Eflag; cbn [orb].
  - now repeat split.
  - destruct (Nat.eqb (List.length (processingQueue s)) 0);
      [now repeat split|].
    inversion Hdrained as [s0 Hf Hd Hset|s0 Hf|s0 t Hf]; subst s0;
      try congruence.
    pose proof (drain_next_idle now (with_isProcessing true s)) as Hnext.
    destruct (drain_next now (with_isProcessing true s)) as [s1 d].
    now apply Hnext.
Qed.

Lemma addToProcessingQueue_invariant now tasks s :
  invariant s -> invariant (addToProcessingQueue now tasks s).
Proof.
  intros Hinv. unfold addToProcessingQueue.
  set (s' := with_processingQueue _ s).
  assert (Hinv' : invariant s').
  { destruct Hinv as (Hretry & Hsched & Hdrained).
    split; [assumption|]. split; [assumption|].
    inversion Hdrained; subst;
      [apply drained_idle | apply drained_pausing
       | eapply drained_awaiting]; eassumption. }
  destruct (isProcessing s'); [assumption|].
  now apply processQueue_invariant.
Qed.

Lemma handleChange_callback_invariant now s :
  invariant s -> invariant (handleChange_callback now s).
Proof.
  intros Hinv. unfold handleChange_callback.
  destruct (Editor.getLine _ _) as [currentLine|]; [|assumption].
  destruct (Nat.leb _ 10); [assumption|].
  destruct (Nat.eqb _ 0); [assumption|].
  now apply addToProcessingQueue_invariant.
Qed.

Lemma frame_invariant s s' :
  retryQueue s' = retryQueue s -> scheduler s' = scheduler s ->
  isProcessing s' = isProcessing s -> drainers s' = drainers s ->
  processingUrls s' = processingUrls s ->
  invariant s -> invariant s'.
Proof.
  intros Hr Hs Hf Hd Hp (Hretry & Hsched & Hdrained).
  split; [congruence|]. split; [congruence|].
  inversion Hdrained as [s0 Hf0 Hd0 Hp0|s0 Hf0 Hd0 Hp0|s0 t Hf0 Hd0 Hp0];
    subst s0;
    [apply drained_idle | apply drained_pausing
     | apply (drained_awaiting _ t)]; congruence.
Qed.

Lemma handlePaste_invariant now text s :
  invariant s -> invariant (handlePaste now text s).
Proof.
  intros Hinv. unfold handlePaste.
  destruct text as [pastedText|]; [|assumption].
  destruct (String.eqb pastedText ""); [assumption|].
  destruct (Nat.ltb 0 _); [|assumption].
  match goal with
  | |- invariant (with_editor _ ?x) =>
      apply (frame_invariant x);
      [reflexivity .. | now apply addToProcessingQueue_invariant]
  end.
Qed.

Lemma nth_error_single {A} (x y : A) i :
  nth_error [x] i = Some y -> i = 0 /\ y = x.
Proof.
  destruct i as [|[|i]]; simpl; intros H; try discriminate.
  injection H as <-. now split.
Qed.

(** *** Over a resolver that raises no transient error *)

Section Steps.
Variable resolves : string -> outcome string -> Prop.

(** The resolver may fail, but not with an error that the closure of
    [addToProcessingQueue] takes for a transient one. *)
Hypothesis no_transient : forall u e, resolves u (Throw e) -> ~ transient e.

Lemma task_catch_not_transient now t e s :
  ~ transient e ->
  task_catch now t e s = with_errorLog (fun l => (l ++ [url t])%list) s.
Proof.
  intros Hnot. unfold task_catch.
  destruct (is_Error e && includes (message e) "fetch") eqn:E;
    [|reflexivity].
  exfalso. apply Hnot. now apply andb_true_iff in E.
Qed.

Lemma step_invariant s s' :
  invariant s -> step resolves s s' -> invariant s'.
Proof.
  intros Hinv Hstep.
  destruct Hstep
    as [now s | now s deadline Harmed Hdue | now text s | ed s | b s
        | now i t key r s s' Hnth Hres Hgo
        | now i s s' Hgo
        | now s Hsleep
        | rest key item r s Hawait Hres].
  - eapply frame_invariant; [| | | | | exact Hinv]; reflexivity.
  - apply handleChange_callback_invariant.
    eapply frame_invariant; [| | | | | exact Hinv]; reflexivity.
  - now apply handlePaste_invariant.
  - eapply frame_invariant; [| | | | | exact Hinv]; reflexivity.
  - eapply frame_invariant; [| | | | | exact Hinv]; reflexivity.
  - destruct Hinv as (Hretry & Hsched & Hdrained).
    unfold drainer_resolved in Hgo. rewrite Hnth in Hgo.
    injection Hgo as <-.
    inversion Hdrained as [s0 Hf Hd Hset|s0 Hf Hd Hset|s0 t0 Hf Hd Hset];
      subst s0; rewrite Hd in Hnth.
    + destruct i; discriminate.
    + apply nth_error_single in Hnth as [_ Hnth]. discriminate.
    + apply nth_error_single in Hnth as [-> [= -> ->]].
      unfold task_resume, processURL_resume.
      destruct r as [title|e].
      * establish.
        split; [exact Hretry|]. split; [exact Hsched|].
        apply drained_pausing; fields.
        -- assumption.
        -- now rewrite Hd.
        -- rewrite Hset. apply set_delete_single.
      * rewrite task_catch_not_transient by exact (no_transient _ _ Hres).
        establish.
        split; [exact Hretry|]. split; [exact Hsched|].
        apply drained_pausing; fields.
        -- assumption.
        -- now rewrite Hd.
        -- rewrite Hset. apply set_delete_single.
  - destruct Hinv as (Hretry & Hsched & Hdrained).
    unfold drainer_wakes in Hgo.
    destruct (nth_error (drainers s) i) as [[t key|]|] eqn:Hnth;
      try discriminate.
    inversion Hdrained as [s0 Hf Hd Hset|s0 Hf Hd Hset|s0 t0 Hf Hd Hset];
      subst s0; rewrite Hd in Hnth.
    + destruct i; discriminate.
    + apply nth_error_single in Hnth as [-> _].
      pose proof (drain_next_idle now (with_drainers (remove_nth 0) s))
        as Hnext.
      destruct (drain_next now (with_drainers (remove_nth 0) s)) as [s1 d].
      injection Hgo as <-.
      apply Hnext; fields; try assumption. now rewrite Hd.
    + apply nth_error_single in Hnth as [_ Hnth]. discriminate.
  - destruct Hinv as (Hretry & Hsched & Hdrained).
    unfold processRetryQueue. rewrite Hretry.
    cbn [List.filter retry_run]. establish.
    split; [assumption|]. split; [reflexivity|].
    inversion Hdrained; subst;
      [apply drained_idle | apply drained_pausing
       | eapply drained_awaiting]; eassumption.
  - destruct Hinv as (_ & Hsched & _). congruence.
Qed.

Lemma reachable_invariant s : reachable resolves s -> invariant s.
Proof.
  induction 1 as [ed|s s' _ IH Hstep].
  - split; [reflexivity|]. split; [reflexivity|].
    now apply drained_idle.
  - exact (step_invariant s s' IH Hstep).
Qed.

End Steps.

(** *** The plugin over its own resolver *)

(** [fetchPageTitleWithRetry] raises nothing at all. *)
Lemma source_resolver_returns P u r :
  source_resolver P u r -> exists title, r = Return title.
Proof.
  intros [w <-]. apply ResolverFacts.resolve_returns.
Qed.

Lemma plugin_invariant P s : plugin_reachable P s -> invariant s.
Proof.
  apply reachable_invariant. intros u e Hthrow.
  apply source_resolver_returns in Hthrow as [title Htitle]. discriminate.
Qed.

(** C3. In every state the plugin can reach at most one resolution is in
    flight, so no two are in flight for the same [(url, lineNumber,
    position, timestamp)]; the in-flight set holds exactly the keys of the
    resolutions in flight; and a queued task whose key is in the set is
    skipped: its closure returns without entering [processURL], and the
    state is unchanged. *)
Theorem one_resolution_in_flight_per_key (P : Platform.t) (s : state) :
  plugin_reachable P s ->
  NoDup (in_flight s) /\
  List.length (in_flight s) <= 1 /\
  processingUrls s = List.map inflight_key (in_flight s) /\
  (forall now t,
      set_has (inflight_key t) (processingUrls s) = true ->
      task_begin now t s = (s, None)).
Proof.
  intros Hreach. apply plugin_invariant in Hreach.
  destruct Hreach as (_ & Hsched & Hdrained).
  assert (Hflight :
            NoDup (in_flight s) /\ List.length (in_flight s) <= 1 /\
            processingUrls s = List.map inflight_key (in_flight s)).
  { unfold in_flight. rewrite Hsched.
    inversion Hdrained as [s0 Hf Hd Hset|s0 Hf Hd Hset|s0 t0 Hf Hd Hset];
      subst s0; rewrite Hd, Hset;
      cbn [flat_map drainer_task app List.map List.length].
    - split; [constructor|]. split; [lia | reflexivity].
    - split; [constructor|]. split; [lia | reflexivity].
    - split; [repeat constructor; simpl; tauto|].
      split; [lia | reflexivity]. }
  destruct Hflight as (Hnodup & Hone & Hkeys).
  repeat (split; [assumption|]).
  intros now t Hhas. unfold task_begin. now rewrite Hhas.
Qed.

(** C3 in the state reached when the debounce timer fires on a line with
    a URL: its resolution is the one in flight. *)
Lemma one_resolution_in_flight_per_key_witness :
  let ed := Editor.mk ["see https://example.com/cool-page for info"] 0 0 in
  let s :=
    handleChange_callback 600
      (with_debounceTimeout None (handleChange 100 (initial ed))) in
  in_flight s = [mkTask "https://example.com/cool-page" 0 4 600] /\
  NoDup (in_flight s) /\
  processingUrls s = ["https://example.com/cool-page-0-4-600"].
Proof.
  intros ed s.
  destruct (one_resolution_in_flight_per_key Reference.platform s)
    as (Hnodup & _ & Hkeys & _).
  - apply (reachable_step _ (handleChange 100 (initial ed))).
    + apply (reachable_step _ (initial ed)); constructor.
    + apply (step_debounce _ 600 _ 600); [reflexivity | lia].
  - split; [reflexivity|]. split; [exact Hnodup|].
    rewrite Hkeys. reflexivity.
Defined.

(** *** Over a resolver that can raise a transient error

    The invariant rests on the resolver: the retry scheduler enters
    [processURL] under the retry key and does not look into the in-flight
    set.  Over a resolver that can fail with [Failed to fetch], a task
    queued twice within one millisecond (by the debounce timer and by a
    paste at the same place) is in flight twice once the first copy has
    failed and the scheduler retries it while the second copy is being
    resolved. *)
Lemma retry_path_can_double_a_resolution :
  let u := "https://a.b/page" in
  let t := mkTask u 0 0 500 in
  exists s,
    reachable any_resolver s /\
    in_flight s = [t; t] /\
    processingUrls s = [inflight_key t; retry_key t].
Proof.
  intros u t.
  (* the debounce timer is armed and fires at 500: [t] is queued and its
     resolution starts *)
  assert (H0 : reachable any_resolver (initial (Editor.mk [u] 0 0)))
    by constructor.
  pose proof (reachable_step _ _ _ H0 (step_change _ 0 _)) as H1.
  match type of H1 with
  | reachable _ ?s1 =>
      pose proof (reachable_step _ _ _ H1
                    (step_debounce _ 500 s1 500 eq_refl (le_n 500))) as H2
  end.
  (* within the same millisecond the URL is pasted at the start of the
     line: a second copy of [t] is queued *)
  pose proof (reachable_step _ _ _ H2 (step_paste _ 500 (Some u) _)) as H3.
  (* the first resolution fails, and [t] goes to the retry queue *)
  eassert (H4 : reachable any_resolver _).
  { eapply reachable_step; [exact H3|].
    eapply (step_drain_resolved _ 600 0 _ _ (Throw failed_to_fetch));
      [vm_compute; reflexivity | exact I | vm_compute; reflexivity]. }
  (* after its pause the queue starts the second copy *)
  eassert (H5 : reachable any_resolver _).
  { eapply reachable_step; [exact H4|].
    eapply (step_drain_wakes _ 700 0). vm_compute. reflexivity. }
  (* the retry scheduler ticks and starts the first copy again *)
  eassert (H6 : reachable any_resolver _).
  { eapply reachable_step; [exact H5|].
    apply (step_tick _ 5000). reflexivity. }
  eexists. split; [exact H6|].
  split; vm_compute; reflexivity.
Qed.

End InvariantFacts.

(** ** The retry scheduler under a resolver that always fails *)

Module RetryFacts.
Import JsString Resolver Engine EngineTerms.

Lemma processURL_failing e s t key w :
  stale t (editor s) = false ->
  JsMap.has (url t) (urlCache s) = false ->
  processURL (failing_resolver e) s t key w
  = ((Throw e, release key (with_processingUrls (set_add key) s)),
     fetched (url t) w).
Proof.
  intros Hfresh Hmiss. unfold processURL.
  rewrite EngineFacts.processURL_begin_miss by assumption.
  reflexivity.
Qed.

(** One tick on a due item below the cap: the resolver is asked once
    more, and the item stays as it is. *)
Lemma run_tick_failing e key item now s w :
  holds key item s -> retries item < 3 -> nextRetry item <= now ->
  exists s',
    run_tick (failing_resolver e) now s w = (s', fetched (url (task item)) w) /\
    holds key item s'.
Proof.
  intros (Hqueue & Hactive & Hfresh & Hmiss) Hcap Hdue.
  assert (Hfilter : List.filter (due now) [(key, item)] = [(key, item)]).
  { unfold due. cbn [List.filter snd].
    destruct (Nat.leb_spec (nextRetry item) now) as [_|]; [reflexivity|lia]. }
  unfold run_tick. rewrite Hqueue, Hfilter.
  cbn [run_retries]. rewrite Hactive.
  rewrite processURL_failing by assumption.
  unfold retry_settled.
  destruct (Nat.leb_spec 3 (retries item)) as [|_]; [lia|].
  eexists. split; [reflexivity|].
  unfold holds. InvariantFacts.fields. repeat split; assumption.
Qed.

Lemma run_ticks_failing e key item ticks : forall s w,
  holds key item s -> retries item < 3 ->
  Forall (fun now => nextRetry item <= now) ticks ->
  exists s' w',
    run_ticks (failing_resolver e) ticks s w = (s', w') /\
    holds key item s' /\
    trace w'
    = (trace w ++ repeat (Fetch (url (task item))) (List.length ticks))%list.
Proof.
  induction ticks as [|now ticks IH]; intros s w Hholds Hcap Hdue.
  - exists s, w. split; [reflexivity|]. split; [assumption|].
    simpl. now rewrite app_nil_r.
  - apply Forall_cons_iff in Hdue as [Hnow Hdue].
    destruct (run_tick_failing e key item now s w Hholds Hcap Hnow)
      as (s1 & Htick & Hholds1).
    destruct (IH s1 (fetched (url (task item)) w) Hholds1 Hcap Hdue)
      as (s' & w' & Hrun & Hholds' & Htrace).
    exists s', w'. split; [|split; [assumption|]].
    + unfold run_ticks in *. simpl. rewrite Htick. exact Hrun.
    + rewrite Htrace. simpl. now rewrite <- app_assoc.
Qed.

(** The first failure, in the queued closure, creates the item. *)
Lemma run_task_failing e t now s w :
  transient e ->
  stale t (editor s) = false ->
  JsMap.has (url t) (urlCache s) = false ->
  editorActive s = true -> retryQueue s = [] ->
  set_has (inflight_key t) (processingUrls s) = false ->
  exists s1,
    run_task (failing_resolver e) now t s w = (s1, fetched (url t) w) /\
    holds (retry_key t) (mkItem t 1 (now + 2 ^ 0 * 1000)) s1.
Proof.
  intros [Herr Hfetch] Hfresh Hmiss Hactive Hempty Hfree.
  unfold run_task, task_begin. rewrite Hfree.
  rewrite EngineFacts.processURL_begin_miss by assumption.
  unfold failing_resolver, bind, emit, settle.
  unfold task_resume, processURL_resume, task_catch.
  rewrite Herr, Hfetch. cbn [andb].
  unfold addToRetryQueue.
  cbn [retryQueue with_errorLog release with_processingUrls].
  rewrite Hempty. cbn [JsMap.get].
  eexists. split; [reflexivity|].
  unfold holds. InvariantFacts.fields. cbn [task].
  rewrite Hempty. repeat split; assumption.
Qed.

(** What [addToRetryQueue] does when it is called again and again for
    one task: the count goes 1, 2, 3 with the next attempt 1, 2 and 4
    seconds ahead, and a fourth call changes nothing. *)
Lemma addToRetryQueue_first now t s :
  retryQueue s = [] ->
  retryQueue (addToRetryQueue now t s)
  = [(retry_key t, mkItem t (0 + 1) (now + 2 ^ 0 * 1000))].
Proof.
  intros Hempty. unfold addToRetryQueue. rewrite Hempty.
  cbn [JsMap.get]. InvariantFacts.fields. now rewrite Hempty.
Qed.

Lemma addToRetryQueue_again now t item s :
  retryQueue s = [(retry_key t, item)] -> retries item < 3 ->
  retryQueue (addToRetryQueue now t s)
  = [(retry_key t,
      mkItem t (retries item + 1) (now + 2 ^ retries item * 1000))].
Proof.
  intros Hqueue Hcap. unfold addToRetryQueue. rewrite Hqueue.
  cbn [JsMap.get]. rewrite String.eqb_refl.
  destruct (Nat.ltb_spec (retries item) 3); [|lia].
  InvariantFacts.fields. rewrite Hqueue.
  cbn [JsMap.set]. now rewrite String.eqb_refl.
Qed.

Lemma addToRetryQueue_capped now t item s :
  retryQueue s = [(retry_key t, item)] -> 3 <= retries item ->
  addToRetryQueue now t s = s.
Proof.
  intros Hqueue Hcap. unfold addToRetryQueue. rewrite Hqueue.
  cbn [JsMap.get]. rewrite String.eqb_refl.
  destruct (Nat.ltb_spec (retries item) 3); [lia | reflexivity].
Qed.

Lemma addToRetryQueue_backoff t s n0 n1 n2 n3 :
  retryQueue s = [] ->
  let s1 := addToRetryQueue n0 t s in
  let s2 := addToRetryQueue n1 t s1 in
  let s3 := addToRetryQueue n2 t s2 in
  retryQueue s1 = [(retry_key t, mkItem t 1 (n0 + 2 ^ 0 * 1000))] /\
  retryQueue s2 = [(retry_key t, mkItem t 2 (n1 + 2 ^ 1 * 1000))] /\
  retryQueue s3 = [(retry_key t, mkItem t 3 (n2 + 2 ^ 2 * 1000))] /\
  addToRetryQueue n3 t s3 = s3.
Proof.
  intros Hempty s1 s2 s3.
  pose proof (addToRetryQueue_first n0 t s Hempty) as H1. fold s1 in H1.
  pose proof (addToRetryQueue_again n1 t _ s1 H1) as H2. fold s2 in H2.
  cbn [retries] in H2. specialize (H2 ltac:(lia)).
  pose proof (addToRetryQueue_again n2 t _ s2 H2) as H3. fold s3 in H3.
  cbn [retries] in H3. specialize (H3 ltac:(lia)).
  split; [exact H1|]. split; [exact H2|]. split; [exact H3|].
  apply (addToRetryQueue_capped n3 t _ s3 H3). cbn [retries]. lia.
Qed.

(** C2, evaluated on the code.  With a resolver that raises a transient
    error on every attempt, the queued closure files the task with
    [retries = 1] and [nextRetry = now + 2^0 * 1000].  From then on every
    tick of the retry scheduler at which the item is due asks the resolver
    again and leaves the item exactly as it is: the scheduler's [catch]
    neither counts the failure nor recomputes [nextRetry], so [retries]
    never reaches 3 and the item is never dropped, however many ticks
    pass.  Only [addToRetryQueue] itself, called again and again for the
    task, counts 1, 2, 3 with [nextRetry = now + 2^n * 1000] for n = 0, 1,
    2 and then changes nothing any more; the scheduler never calls it. *)
Theorem failing_item_is_retried_without_end
  (e : error) (t : ProcessingTask) (now : nat) (s : state) (w : world) :
  transient e ->
  stale t (editor s) = false ->
  JsMap.has (url t) (urlCache s) = false ->
  editorActive s = true -> retryQueue s = [] ->
  set_has (inflight_key t) (processingUrls s) = false ->
  (exists s1,
      run_task (failing_resolver e) now t s w = (s1, fetched (url t) w) /\
      retryQueue s1 = [(retry_key t, mkItem t 1 (now + 2 ^ 0 * 1000))] /\
      forall ticks,
        Forall (fun tick => now + 2 ^ 0 * 1000 <= tick) ticks ->
        exists sn wn,
          run_ticks (failing_resolver e) ticks s1 (fetched (url t) w)
          = (sn, wn) /\
          retryQueue sn = [(retry_key t, mkItem t 1 (now + 2 ^ 0 * 1000))] /\
          trace wn
          = (trace w ++ repeat (Fetch (url t)) (S (List.length ticks)))%list) /\
  (forall n0 n1 n2 n3,
      let s1 := addToRetryQueue n0 t s in
      let s2 := addToRetryQueue n1 t s1 in
      let s3 := addToRetryQueue n2 t s2 in
      retryQueue s1 = [(retry_key t, mkItem t 1 (n0 + 2 ^ 0 * 1000))] /\
      retryQueue s2 = [(retry_key t, mkItem t 2 (n1 + 2 ^ 1 * 1000))] /\
      retryQueue s3 = [(retry_key t, mkItem t 3 (n2 + 2 ^ 2 * 1000))] /\
      addToRetryQueue n3 t s3 = s3).
Proof.
  intros Htransient Hfresh Hmiss Hactive Hempty Hfree.
  split; [|intros n0 n1 n2 n3; now apply addToRetryQueue_backoff].
  destruct (run_task_failing e t now s w Htransient Hfresh Hmiss Hactive
              Hempty Hfree) as (s1 & Hrun & Hholds).
  exists s1. split; [exact Hrun|]. split; [apply Hholds|].
  intros ticks Hdue.
  destruct (run_ticks_failing e _ _ ticks s1 (fetched (url t) w) Hholds)
    as (sn & wn & Hticks & Hholds_n & Htrace).
  - cbn [retries]. lia.
  - exact Hdue.
  - exists sn, wn. split; [exact Hticks|]. split; [apply Hholds_n|].
    rewrite Htrace. cbn [task url trace fetched].
    rewrite <- app_assoc. reflexivity.
Qed.

(** C2 for a task on [https://a.b/page], failing at time 0 and retried
    at five ticks: six calls of the resolver, and the item is still held
    with [retries = 1]. *)
Lemma failing_item_is_retried_without_end_witness :
  let t := mkTask "https://a.b/page" 0 0 0 in
  let s := initial (Editor.mk ["https://a.b/page"] 0 0) in
  let w := fresh_world unreachable_network in
  exists s1 sn wn,
    run_task (failing_resolver failed_to_fetch) 0 t s w
    = (s1, fetched (url t) w) /\
    run_ticks (failing_resolver failed_to_fetch)
      [1000; 2000; 3000; 4000; 5000] s1 (fetched (url t) w) = (sn, wn) /\
    retryQueue sn = [("https://a.b/page-0-0", mkItem t 1 1000)] /\
    List.length (trace wn) = 6.
Proof.
  intros t s w.
  destruct (failing_item_is_retried_without_end failed_to_fetch t 0 s w)
    as [(s1 & Hrun & _ & Hticks) _];
    try reflexivity.
  - split; reflexivity.
  - destruct (Hticks [1000; 2000; 3000; 4000; 5000])
      as (sn & wn & Hrun_n & Hqueue & Htrace).
    + repeat constructor; apply Nat.leb_le; vm_compute; reflexivity.
    + exists s1, sn, wn. split; [exact Hrun|]. split; [exact Hrun_n|].
      split; [exact Hqueue|]. rewrite Htrace. reflexivity.
Defined.

End RetryFacts.

(** ** Keys of occurrences *)

Module KeyMoreFacts.
Import JsString JsStringFacts StringTerms Engine KeyFacts.

(** X1. The three keys the plugin builds identify what they are built
    from: two tasks have the same batch key exactly when they agree on URL
    and line, the same retry key exactly when they also agree on the
    position, and the same in-flight key exactly when they also agree on
    the timestamp. *)
Theorem keys_identify_their_tasks (t u : ProcessingTask) :
  (batch_key t = batch_key u <->
   url t = url u /\ lineNumber t = lineNumber u) /\
  (retry_key t = retry_key u <->
   url t = url u /\ lineNumber t = lineNumber u /\ position t = position u) /\
  (inflight_key t = inflight_key u <-> t = u).
Proof.
  assert (Hsplit : forall a : ProcessingTask,
             retry_key a = batch_key a ++ "-" ++ of_nat (position a)).
  { intros a. unfold retry_key, batch_key. now rewrite !append_assoc. }
  assert (Hsplit' : forall a : ProcessingTask,
             inflight_key a = retry_key a ++ "-" ++ of_nat (timestamp a)).
  { intros a. unfold inflight_key, retry_key. now rewrite !append_assoc. }
  assert (Hretry : forall a b : ProcessingTask,
             retry_key a = retry_key b <->
             url a = url b /\ lineNumber a = lineNumber b /\
             position a = position b).
  { intros a b. split.
    - rewrite !Hsplit. intros H.
      apply dash_suffix_inj in H as [Hk Hp]; auto using no_dash_of_nat.
      apply batch_key_inj in Hk as [Hu Hl].
      repeat split; auto using of_nat_inj.
    - intros (Hu & Hl & Hp). unfold retry_key. now rewrite Hu, Hl, Hp. }
  split; [apply batch_key_inj|]. split; [apply Hretry|].
  split.
  - rewrite !Hsplit'. intros H.
    apply dash_suffix_inj in H as [Hk Hts]; auto using no_dash_of_nat.
    apply Hretry in Hk as (Hu & Hl & Hp). apply of_nat_inj in Hts.
    destruct t, u; simpl in *; congruence.
  - intros ->. reflexivity.
Qed.

End KeyMoreFacts.

(** ** The shape of a deduplicated batch *)

Module DedupMoreFacts.
Import JsString JsMap JsMapFacts Engine StringTerms EngineTerms OrderTerms.
Import KeyFacts DedupFacts.

#[local] Arguments batch_key : simpl never.

Lemma keep_first_seen seen seen' l :
  (forall k, In k seen <-> In k seen') ->
  keep_first seen l = keep_first seen' l.
Proof.
  revert seen seen'. induction l as [|t l IH]; intros seen seen' Hsame;
    simpl; [reflexivity|].
  assert (Hmem : existsb (String.eqb (batch_key t)) seen
                 = existsb (String.eqb (batch_key t)) seen').
  { apply eq_true_iff_eq. rewrite !existsb_exists.
    split; intros (k & Hin & Hk); exists k; (split; [|assumption]);
      now apply Hsame. }
  rewrite Hmem. destruct (existsb _ seen').
  - now apply IH.
  - f_equal. apply IH. intros k. simpl. rewrite Hsame. tauto.
Qed.

Lemma has_existsb (m : JsMap.t ProcessingTask) k :
  has k m = existsb (String.eqb k) (keys m).
Proof.
  apply eq_true_iff_eq. rewrite has_true_iff, existsb_exists. split.
  - intros Hin. exists k. split; [assumption | apply String.eqb_refl].
  - intros (k' & Hin & Hk). apply String.eqb_eq in Hk. now subst.
Qed.

(** The values of the map are the tasks already there, followed by
    the first task of each new key, in the order of the list. *)
Lemma collect_from_values l : forall acc,
  filed acc ->
  List.map snd (collect_from acc l)
  = (List.map snd acc ++ keep_first (keys acc) l)%list.
Proof.
  induction l as [|t l IH]; intros acc Hacc; simpl.
  - now rewrite app_nil_r.
  - rewrite <- has_existsb. destruct (has (batch_key t) acc) eqn:E.
    + now apply IH.
    + apply has_false_iff in E.
      destruct (set_filed_fresh acc t Hacc E) as [Hfiled Hset].
      rewrite IH by assumption. rewrite Hset, map_app, <- app_assoc. simpl.
      f_equal. f_equal. apply keep_first_seen.
      intros k. unfold keys. rewrite map_app, in_app_iff. simpl. tauto.
Qed.

Lemma unique_tasks_keep_first tasks :
  unique_tasks tasks = keep_first [] (sort_by_position tasks).
Proof.
  unfold unique_tasks, collect_unique.
  change (fold_left _ (sort_by_position tasks) empty)
    with (collect_from empty (sort_by_position tasks)).
  rewrite collect_from_values; [reflexivity|].
  split; [constructor | intros ? ? []].
Qed.

Lemma keep_first_In seen l t :
  In t (keep_first seen l) -> In t l /\ ~ In (batch_key t) seen.
Proof.
  revert seen. induction l as [|u l IH]; intros seen; simpl; [tauto|].
  destruct (existsb (String.eqb (batch_key u)) seen) eqn:E.
  - intros H. apply IH in H. tauto.
  - intros [<-|H].
    + split; [now left|]. intros Hin.
      assert (existsb (String.eqb (batch_key u)) seen = true); [|congruence].
      apply existsb_exists. exists (batch_key u).
      split; [assumption | apply String.eqb_refl].
    + apply IH in H as [Hin Hout]. split; [now right|].
      intros Hseen. apply Hout. now right.
Qed.

Lemma keep_first_sorted seen l :
  StronglySorted by_position l ->
  StronglySorted by_position (keep_first seen l).
Proof.
  intros Hsorted. revert seen.
  induction Hsorted as [|u l Hl IH Hall]; intros seen; simpl;
    [constructor|].
  destruct (existsb (String.eqb (batch_key u)) seen); [apply IH|].
  constructor; [apply IH|].
  rewrite Forall_forall in *. intros x Hx.
  apply keep_first_In in Hx as [Hx _]. now apply Hall.
Qed.

Lemma keep_first_distinct seen l :
  NoDup (List.map batch_key (keep_first seen l)).
Proof.
  revert seen. induction l as [|u l IH]; intros seen; simpl;
    [constructor|].
  destruct (existsb (String.eqb (batch_key u)) seen); [apply IH|].
  simpl. constructor; [|apply IH].
  intros Hin. apply in_map_iff in Hin as (x & Hk & Hx).
  apply keep_first_In in Hx as [_ Hout]. apply Hout. left. now symmetry.
Qed.

(** Nothing is dropped that is already the first of its key. *)
Lemma keep_first_all seen l :
  NoDup (List.map batch_key l) ->
  (forall t, In t l -> ~ In (batch_key t) seen) ->
  keep_first seen l = l.
Proof.
  revert seen. induction l as [|u l IH]; intros seen Hnd Hfresh; simpl;
    [reflexivity|].
  simpl in Hnd. apply NoDup_cons_iff in Hnd as [Hu Hnd].
  destruct (existsb (String.eqb (batch_key u)) seen) eqn:E.
  - exfalso. apply existsb_exists in E as (k & Hin & Hk).
    apply String.eqb_eq in Hk. subst k.
    exact (Hfresh u (or_introl eq_refl) Hin).
  - f_equal. apply IH; [assumption|].
    intros t Ht [Hk|Hseen].
    + apply Hu. rewrite Hk. now apply in_map.
    + exact (Hfresh t (or_intror Ht) Hseen).
Qed.

Lemma insert_by_position_last t sorted :
  Forall (fun u => position u <= position t) sorted ->
  insert_by_position t sorted = (sorted ++ [t])%list.
Proof.
  induction 1 as [|u r Hu Hr IH]; simpl; [reflexivity|].
  destruct (Nat.leb_spec (position u) (position t)); [|lia].
  now rewrite IH.
Qed.

(** Sorting a sorted list changes nothing. *)
Lemma sort_sorted l : forall acc,
  StronglySorted by_position (acc ++ l) ->
  fold_left (fun sorted t => insert_by_position t sorted) l acc
  = (acc ++ l)%list.
Proof.
  induction l as [|t l IH]; intros acc Hsorted; simpl.
  - now rewrite app_nil_r.
  - rewrite insert_by_position_last.
    + rewrite IH; rewrite <- app_assoc; [reflexivity | exact Hsorted].
    + clear IH. induction acc as [|u acc IHacc]; [constructor|].
      simpl in Hsorted. apply StronglySorted_inv in Hsorted as [Hs Hall].
      constructor; [|now apply IHacc].
      rewrite Forall_forall in Hall. apply Hall.
      apply in_or_app. right. now left.
Qed.

Lemma length_keep_first l : forall seen,
  List.length (keep_first seen l) <= List.length l.
Proof.
  induction l as [|x l IH]; intros seen; simpl; [lia|].
  destruct (existsb _ seen); simpl;
    [specialize (IH seen) | specialize (IH (batch_key x :: seen))]; lia.
Qed.

Lemma length_insert_by_position t acc :
  List.length (insert_by_position t acc) = S (List.length acc).
Proof.
  induction acc as [|u acc IH]; simpl; [reflexivity|].
  destruct (Nat.leb _ _); simpl; [now rewrite IH | reflexivity].
Qed.

Lemma length_sort_by_position tasks :
  List.length (sort_by_position tasks) = List.length tasks.
Proof.
  unfold sort_by_position.
  assert (Hgen : forall l acc,
             List.length
               (fold_left (fun sorted t => insert_by_position t sorted) l acc)
             = List.length acc + List.length l).
  { induction l as [|t l IH]; intros acc; simpl; [lia|].
    rewrite IH, length_insert_by_position. lia. }
  now rewrite Hgen.
Qed.

Lemma unique_tasks_subset tasks t :
  In t (unique_tasks tasks) -> In t tasks.
Proof.
  intros Ht. rewrite unique_tasks_keep_first in Ht.
  apply keep_first_In in Ht as [Ht _]. now apply sort_by_position_In.
Qed.

(** X2. What [addToProcessingQueue] appends for a batch: tasks of the
    batch, in ascending order of position, no two of them for the same URL
    on the same line, and one for every URL and line of the batch, at or
    before every task of the batch for that URL and line.  Deduplicating
    a second time changes nothing. *)
Theorem deduplicated_batch_shape (tasks : list ProcessingTask) :
  StronglySorted by_position (unique_tasks tasks) /\
  (forall t, In t (unique_tasks tasks) -> In t tasks) /\
  (forall t u,
      In t (unique_tasks tasks) -> In u (unique_tasks tasks) ->
      url t = url u -> lineNumber t = lineNumber u -> t = u) /\
  (forall t,
      In t tasks ->
      exists u,
        In u (unique_tasks tasks) /\ url u = url t /\
        lineNumber u = lineNumber t /\ position u <= position t) /\
  List.length (unique_tasks tasks) <= List.length tasks /\
  unique_tasks (unique_tasks tasks) = unique_tasks tasks.
Proof.
  pose proof (sort_by_position_sorted tasks) as Hsorted.
  assert (Hshape : StronglySorted by_position (unique_tasks tasks)).
  { rewrite unique_tasks_keep_first. now apply keep_first_sorted. }
  assert (Hdistinct : NoDup (List.map batch_key (unique_tasks tasks))).
  { rewrite unique_tasks_keep_first. apply keep_first_distinct. }
  split; [exact Hshape|]. split; [|split; [|split; [|split]]].
  - apply unique_tasks_subset.
  - intros t u Ht Hu Hurl Hline.
    apply unique_tasks_In in Ht. apply unique_tasks_In in Hu.
    assert (Hk : batch_key t = batch_key u)
      by (apply batch_key_inj; now split).
    rewrite Hk in Ht. congruence.
  - intros t Ht.
    destruct (first_with_key_exists (batch_key t) (sort_by_position tasks) t)
      as [u Hfirst]; [now apply sort_by_position_In | reflexivity|].
    destruct (first_with_key_Some _ _ _ Hfirst) as [Hin Hk].
    exists u. split.
    + apply unique_tasks_In. now rewrite Hk.
    + apply batch_key_inj in Hk as [Hu Hl]. repeat split; try assumption.
      apply (first_with_key_earliest _ _ _ t Hsorted Hfirst);
        [now apply sort_by_position_In | reflexivity].
  - rewrite unique_tasks_keep_first.
    rewrite <- (length_sort_by_position tasks).
    apply length_keep_first.
  - rewrite (unique_tasks_keep_first (unique_tasks tasks)).
    unfold sort_by_position. rewrite sort_sorted by exact Hshape.
    simpl. apply keep_first_all; [exact Hdistinct | intros ? ? []].
Qed.

End DedupMoreFacts.

(** ** The occurrences of a text, as a whole *)

Module MatcherMoreFacts.
Import JsString JsStringFacts Matcher StringTerms MatcherTerms OrderTerms.
Import MatcherFacts.

Lemma trim_match text j m : match_at text j = Some m -> trim m = m.
Proof.
  intros Hm. apply trim_no_space, url_char_not_space, url_token_chars.
  now apply match_at_Some in Hm.
Qed.

Lemma apart_weaken ms : forall a b, a <= b -> apart b ms -> apart a ms.
Proof. destruct ms as [|m r]; simpl; [tauto|]. intros a b Hab [H Hr]. split; [lia | assumption]. Qed.

Lemma exec_loop_apart text : forall n lastIndex,
  S (String.length text) - lastIndex <= n ->
  apart lastIndex (exec_loop text lastIndex).
Proof.
  induction n as [|n IH]; intros lastIndex Hn;
    rewrite exec_loop_unfold;
    destruct (exec text lastIndex) as [[u j]|] eqn:E;
    cbn [apart index url fst snd]; try exact I.
  - apply exec_progress in E. unfold next_lastIndex in E. simpl in E. lia.
  - pose proof (exec_progress _ _ _ E) as Hprog.
    pose proof (exec_Some _ _ _ _ E) as (Hle & Hmatch & _).
    rewrite (trim_match _ _ _ Hmatch). split; [assumption|].
    unfold next_lastIndex in *. cbn [fst snd] in *.
    apply IH. lia.
Qed.

Lemma exec_loop_covers text : forall n lastIndex k u,
  S (String.length text) - lastIndex <= n ->
  lastIndex <= k -> match_at text k = Some u ->
  exists m,
    In m (exec_loop text lastIndex) /\
    index m <= k < index m + String.length (url m).
Proof.
  induction n as [|n IH]; intros lastIndex k u Hn Hk Hu;
    rewrite exec_loop_unfold;
    destruct (exec text lastIndex) as [[m j]|] eqn:E;
    try (rewrite (exec_None _ _ k E) in Hu by lia; discriminate).
  - apply exec_progress in E. unfold next_lastIndex in E. simpl in E. lia.
  - pose proof (exec_progress _ _ _ E) as Hprog.
    pose proof (exec_Some _ _ _ _ E) as (Hle & Hmatch & Hnone).
    unfold next_lastIndex in Hprog. simpl in Hprog.
    assert (j <= k).
    { destruct (Nat.le_gt_cases j k); [assumption|].
      rewrite (Hnone k) in Hu by lia. discriminate. }
    simpl fst. simpl snd.
    destruct (Nat.lt_ge_cases k (j + String.length m)) as [Hin|Hout].
    + exists (mkURLMatch (trim m) j). split; [now left|].
      rewrite (trim_match _ _ _ Hmatch). simpl. lia.
    + assert (Hrest : exists x,
                 In x (exec_loop text (next_lastIndex (m, j))) /\
                 index x <= k < index x + String.length (url x)).
      { apply (IH _ k u); unfold next_lastIndex; cbn [fst snd];
          [lia | lia | assumption]. }
      destruct Hrest as (x & Hx & Hrange).
      exists x. split; [now right | assumption].
Qed.

(** X3. The occurrences [findURLsInText] reports come in reading order
    and do not overlap: each starts at or after the end of the one before
    it, and ends inside the text.  And no match of the pattern is lost:
    a position at which the pattern matches is the start of a reported
    occurrence or lies inside one. *)
Theorem occurrences_in_reading_order_cover_all_matches (text : string) :
  apart 0 (findURLsInText text) /\
  (forall m, In m (findURLsInText text) ->
             0 < String.length (url m) /\
             index m + String.length (url m) <= String.length text) /\
  (forall k u,
      match_at text k = Some u ->
      In (mkURLMatch u k) (findURLsInText text) \/
      exists m,
        In m (findURLsInText text) /\
        index m < k < index m + String.length (url m)).
Proof.
  unfold findURLsInText. split; [|split].
  - apply (exec_loop_apart text (S (String.length text))). lia.
  - intros m Hin.
    apply (exec_loop_sound _ (S (String.length text))) in Hin as [_ Hm];
      [|lia].
    apply match_at_bounds in Hm. lia.
  - intros k u Hu.
    destruct (exec_loop_covers text (S (String.length text)) 0 k u)
      as (m & Hin & Hrange); [lia | lia | assumption|].
    destruct (Nat.eq_dec (index m) k) as [Heq|Hne].
    + left.
      pose proof Hin as Hm.
      apply (exec_loop_sound _ (S (String.length text))) in Hm as [_ Hm];
        [|lia].
      rewrite Heq, Hu in Hm. injection Hm as Hm.
      destruct m as [mu mi]. simpl in *. now subst.
    + right. exists m. split; [assumption | lia].
Qed.

End MatcherMoreFacts.

(** ** More on maps *)

Module JsMapMoreFacts.
Import JsMap JsMapFacts.
Section WithValue.
Context {V : Type}.
Implicit Type m : JsMap.t V.

Lemma NoDup_keys_set k (v : V) m :
  NoDup (keys m) -> NoDup (keys (set k v m)).
Proof.
  intros Hnd. destruct (in_dec string_dec k (keys m)) as [Hin|Hout].
  - now rewrite keys_set_present.
  - rewrite keys_set_fresh by assumption.
    apply NoDup_app; [assumption | repeat constructor; intros [] |].
    intros x Hx [<-|[]]. contradiction.
Qed.

Lemma In_set k (v : V) m e :
  In e (set k v m) -> e = (k, v) \/ In e m.
Proof.
  induction m as [|[k' v'] m IH]; simpl.
  - intros [<-|[]]. now left.
  - destruct (String.eqb_spec k' k) as [->|Hne]; simpl.
    + intros [<-|H]; auto.
    + intros [<-|H]; auto. apply IH in H. tauto.
Qed.

Lemma In_delete k m e : In e (delete k m) -> In e m.
Proof.
  induction m as [|[k' v'] m IH]; simpl; [auto|].
  destruct (String.eqb k' k); simpl; [auto|]. intros [<-|H]; auto.
Qed.

Lemma NoDup_keys_delete k m :
  NoDup (keys m) -> NoDup (keys (delete k m)).
Proof.
  induction m as [|[k' v'] m IH]; simpl; [auto|].
  intros Hnd. apply NoDup_cons_iff in Hnd as [Hout Hnd].
  destruct (String.eqb k' k); simpl; [assumption|].
  constructor; [|now apply IH].
  intros Hin. apply Hout. apply in_map_iff in Hin as ([k0 v0] & <- & Hin).
  apply In_delete in Hin. now apply (in_map fst) in Hin.
Qed.

End WithValue.
End JsMapMoreFacts.

(** ** What the cache remembers *)

Module CacheMoreFacts.
Import JsMap JsMapFacts JsMapMoreFacts Cache CacheTerms CacheFacts.

#[local] Opaque MAX_CACHE_SIZE.

Lemma NoDup_keys_tl (m : cache) : NoDup (keys m) -> NoDup (keys (List.tl m)).
Proof.
  destruct m as [|[k v] m]; simpl; [auto|].
  intros Hnd. now apply NoDup_cons_iff in Hnd.
Qed.

Lemma updateCache_NoDup url title (c : cache) :
  NoDup (keys c) -> NoDup (keys (updateCache url title c)).
Proof.
  intros Hnd. destruct (Nat.lt_ge_cases (size c) MAX_CACHE_SIZE) as [Hlt|Hge].
  - rewrite updateCache_below by assumption. now apply NoDup_keys_set.
  - rewrite updateCache_full by assumption.
    now apply NoDup_keys_set, NoDup_keys_tl.
Qed.

Lemma get_tl (c : cache) u :
  NoDup (keys c) ->
  get u (List.tl c)
  = if match first_key c with
       | Some k => String.eqb k u
       | None => false
       end
    then None else get u c.
Proof.
  destruct c as [|[k v] c]; simpl; [reflexivity|].
  intros Hnd. apply NoDup_cons_iff in Hnd as [Hout _].
  destruct (String.eqb_spec k u) as [->|Hne]; [|reflexivity].
  now apply get_None_iff.
Qed.

(** X4. A lookup after [updateCache]: the URL just stored has the new
    title; every other URL has the title it had, except the oldest one
    when the cache was full, which is forgotten.  The cache never holds a
    URL twice, in any state the plugin can reach. *)
Theorem cache_lookup_after_update :
  (forall (c : cache) url title,
      NoDup (keys c) ->
      NoDup (keys (updateCache url title c)) /\
      get url (updateCache url title c) = Some title /\
      (forall u,
          u <> url ->
          size c < MAX_CACHE_SIZE \/ first_key c <> Some u ->
          get u (updateCache url title c) = get u c) /\
      (forall u,
          u <> url ->
          MAX_CACHE_SIZE <= size c -> first_key c = Some u ->
          get u (updateCache url title c) = None)) /\
  (forall resolves s,
      Engine.reachable resolves s -> NoDup (keys (Engine.urlCache s))).
Proof.
  split.
  - intros c url title Hnd.
    split; [now apply updateCache_NoDup|].
    split; [apply updateCache_get|]. split.
    + intros u Hne Hkept.
      destruct (Nat.lt_ge_cases (size c) MAX_CACHE_SIZE) as [Hlt|Hge].
      * rewrite updateCache_below by assumption.
        apply get_set_other. congruence.
      * rewrite updateCache_full by assumption.
        rewrite get_set_other by congruence.
        rewrite get_tl by assumption.
        destruct Hkept as [Hlt|Hfirst]; [lia|].
        destruct (first_key c) as [k|]; [|reflexivity].
        destruct (String.eqb_spec k u) as [->|_]; [congruence | reflexivity].
    + intros u Hne Hge Hfirst.
      rewrite updateCache_full by assumption.
      rewrite get_set_other by congruence.
      rewrite get_tl by assumption.
      rewrite Hfirst. now rewrite String.eqb_refl.
  - intros R s Hreach. induction Hreach as [ed|s s' _ IH Hstep].
    + constructor.
    + apply EngineCacheFacts.step_cache in Hstep as [->|(u & title & ->)];
        [assumption | now apply updateCache_NoDup].
Qed.

(** X4 on a cache of two pages, far from full. *)
Lemma cache_lookup_after_update_witness :
  get "https://a.org" (updateCache "https://c.org" "C"
                         [("https://a.org", "A"); ("https://b.org", "B")])
  = Some "A".
Proof.
  destruct cache_lookup_after_update as [Hlookup _].
  destruct (Hlookup [("https://a.org", "A"); ("https://b.org", "B")]
                    "https://c.org" "C") as (_ & _ & Hkept & _).
  - repeat constructor; simpl; intuition discriminate.
  - rewrite Hkept; [reflexivity | discriminate |].
    left. rewrite MAX_CACHE_SIZE_value. simpl. lia.
Defined.



End CacheMoreFacts.

(** ** The edit of the document *)

Module EditFacts.
Import JsString JsStringFacts Matcher Resolver Engine.
Import StringTerms MatcherTerms EngineTerms EngineFacts.

Lemma getLine_setLine_same n text ed :
  n < List.length (Editor.lines ed) ->
  Editor.getLine n (Editor.setLine n text ed) = Some text.
Proof.
  unfold Editor.getLine, Editor.setLine. cbn [Editor.lines].
  generalize (Editor.lines ed). clear ed.
  induction n as [|n IH]; intros [|x l]; simpl; intros Hn;
    try lia; [reflexivity | apply IH; lia].
Qed.

Lemma getLine_setLine_other n k text ed :
  k <> n ->
  Editor.getLine k (Editor.setLine n text ed) = Editor.getLine k ed.
Proof.
  unfold Editor.getLine, Editor.setLine. cbn [Editor.lines].
  generalize (Editor.lines ed). clear ed. revert k.
  induction n as [|n IH]; intros [|k] [|x l] Hne; simpl;
    try reflexivity; try congruence.
  apply IH. congruence.
Qed.

Lemma length_setLine n text ed :
  List.length (Editor.lines (Editor.setLine n text ed))
  = List.length (Editor.lines ed).
Proof.
  unfold Editor.setLine. cbn [Editor.lines].
  generalize (Editor.lines ed). clear ed.
  induction n as [|n IH]; intros [|x l]; simpl; auto.
Qed.

Lemma getLine_Some_lt n ed line :
  Editor.getLine n ed = Some line -> n < List.length (Editor.lines ed).
Proof.
  unfold Editor.getLine. intros H. apply nth_error_Some. congruence.
Qed.

Lemma append_same_length a : forall b x y,
  a ++ x = b ++ y -> String.length a = String.length b -> a = b /\ x = y.
Proof.
  induction a as [|c a IH]; intros [|d b] x y; simpl; intros Heq Hlen;
    try discriminate; [auto|].
  injection Heq as -> Heq. destruct (IH b x y Heq) as [-> ->]; [lia|].
  auto.
Qed.

Lemma append_not_empty a b : b <> "" -> a ++ b <> "".
Proof. destruct a; simpl; [auto | discriminate]. Qed.

Lemma url_token_starts u : url_token u -> exists r, u = String "h" r.
Proof. intros (body & [->| ->] & _); eexists; reflexivity. Qed.

(** What [replaceURLWithMarkdown] writes on a line of at least
    [position t] characters. *)
Lemma replaceURLWithMarkdown_line t link ed line :
  Editor.getLine (lineNumber t) ed = Some line -> line <> "" ->
  replaceURLWithMarkdown t link ed
  = Editor.setLine (lineNumber t)
      (take (position t) line ++ link
         ++ drop (position t + String.length (url t)) line) ed.
Proof.
  intros Hline Hne. unfold replaceURLWithMarkdown. rewrite Hline.
  apply String.eqb_neq in Hne. now rewrite Hne.
Qed.

(** The replacement on a line that carries the URL at the task's
    position. *)
Lemma replaceURLWithMarkdown_in_place t title ed before after :
  Editor.getLine (lineNumber t) ed = Some (before ++ url t ++ after) ->
  String.length before = position t ->
  url_token (url t) ->
  replaceURLWithMarkdown t (markdownLink title t) ed
  = Editor.setLine (lineNumber t)
      (before ++ "[" ++ title ++ "](" ++ url t ++ ")" ++ after) ed.
Proof.
  intros Hline Hlen Htok.
  destruct (url_token_starts _ Htok) as [r Hr].
  assert (Hne : before ++ url t ++ after <> "").
  { apply append_not_empty. rewrite Hr. discriminate. }
  rewrite (replaceURLWithMarkdown_line _ _ _ _ Hline Hne).
  f_equal. rewrite <- Hlen, take_append.
  rewrite <- drop_drop, drop_append, drop_append.
  unfold markdownLink. now rewrite !append_assoc.
Qed.

(** X6. [replaceURLWithMarkdown] on a line that carries the URL at the
    task's position: the URL, and nothing else, is replaced by
    [[title](url)]; the text before and after it and all other lines stay
    as they are.  The line then no longer carries the bare URL at that
    position, so a second run of the same task finds it stale and does not
    wrap the link again. *)
Theorem replacement_wraps_the_url_in_place
  (t : ProcessingTask) (title : string) (ed : Editor.t)
  (before after : string) :
  Editor.getLine (lineNumber t) ed = Some (before ++ url t ++ after) ->
  String.length before = position t ->
  url_token (url t) ->
  let ed' := replaceURLWithMarkdown t (markdownLink title t) ed in
  Editor.getLine (lineNumber t) ed'
  = Some (before ++ "[" ++ title ++ "](" ++ url t ++ ")" ++ after) /\
  (forall n, n <> lineNumber t -> Editor.getLine n ed' = Editor.getLine n ed) /\
  List.length (Editor.lines ed') = List.length (Editor.lines ed) /\
  stale t ed' = true.
Proof.
  intros Hline Hlen Htok ed'.
  destruct (url_token_starts _ Htok) as [r Hr].
  assert (Hed : ed'
                = Editor.setLine (lineNumber t)
                    (before ++ "[" ++ title ++ "](" ++ url t ++ ")" ++ after)
                    ed)
    by now apply replaceURLWithMarkdown_in_place.
  assert (Hnew : Editor.getLine (lineNumber t) ed'
                 = Some (before ++ "[" ++ title ++ "](" ++ url t ++ ")"
                           ++ after)).
  { rewrite Hed. apply getLine_setLine_same.
    now apply getLine_Some_lt in Hline. }
  split; [exact Hnew|]. split; [|split].
  - intros n Hn. rewrite Hed. now apply getLine_setLine_other.
  - rewrite Hed. apply length_setLine.
  - apply stale_when_moved. right. eexists. split; [exact Hnew|].
    intros (b & a & Heq & Hb).
    apply append_same_length in Heq as [_ Heq]; [|congruence].
    rewrite Hr in Heq. discriminate.
Qed.

(** X6 on [see https://a.b/c now], for the page title [Page]. *)
Lemma replacement_wraps_the_url_in_place_witness :
  Editor.getLine 0
    (replaceURLWithMarkdown (mkTask "https://a.b/c" 0 4 7)
       (markdownLink "Page" (mkTask "https://a.b/c" 0 4 7))
       (Editor.mk ["see https://a.b/c now"; "next"] 0 0))
  = Some "see [Page](https://a.b/c) now".
Proof.
  apply (replacement_wraps_the_url_in_place
           (mkTask "https://a.b/c" 0 4 7) "Page"
           (Editor.mk ["see https://a.b/c now"; "next"] 0 0)
           "see " " now").
  - reflexivity.
  - reflexivity.
  - exists "a.b/c". split; [now right|]. split; [discriminate|].
    simpl. repeat split.
Defined.

Lemma set_has_delete_same key l : set_has key (set_delete key l) = false.
Proof.
  unfold set_has, set_delete. induction l as [|x l IH]; simpl; [reflexivity|].
  destruct (String.eqb_spec key x) as [->|Hne]; simpl; [exact IH|].
  apply String.eqb_neq in Hne. now rewrite Hne.
Qed.

Lemma set_has_delete_other k key l :
  k <> key -> set_has k (set_delete key l) = set_has k l.
Proof.
  intros Hne. unfold set_has, set_delete.
  induction l as [|x l IH]; simpl; [reflexivity|].
  destruct (String.eqb_spec key x) as [->|Hx]; simpl.
  - apply String.eqb_neq in Hne. now rewrite Hne.
  - now rewrite IH.
Qed.

Lemma set_has_add_other k key l :
  k <> key -> set_has k (set_add key l) = set_has k l.
Proof.
  intros Hne. unfold set_add. destruct (set_has key l); [reflexivity|].
  unfold set_has. rewrite existsb_app. simpl.
  apply String.eqb_neq in Hne. rewrite Hne. now rewrite !orb_false_r.
Qed.

(** X7. The [finally] block of [processURL]: however the call ends (the
    task is stale, the title is cached, the resolver answers or throws),
    the key is no longer marked as in flight afterwards, and the marks of
    all other keys are as they were. *)
Theorem in_flight_mark_is_always_released
  (resolver : string -> M string) (s : state) (t : ProcessingTask)
  (key : string) (w : world) :
  let s' := snd (fst (processURL resolver s t key w)) in
  set_has key (processingUrls s') = false /\
  forall k, k <> key ->
            set_has k (processingUrls s') = set_has k (processingUrls s).
Proof.
  assert (Hrelease : forall s0,
             processingUrls s0 = set_add key (processingUrls s) ->
             set_has key (processingUrls (release key s0)) = false /\
             forall k, k <> key ->
                       set_has k (processingUrls (release key s0))
                       = set_has k (processingUrls s)).
  { intros s0 Hs0. cbn [release with_processingUrls processingUrls].
    rewrite Hs0. split; [apply set_has_delete_same|].
    intros k Hk. rewrite set_has_delete_other by assumption.
    now apply set_has_add_other. }
  cbn zeta. unfold processURL, processURL_begin.
  destruct (stale t _); [now apply Hrelease|].
  destruct (JsMap.has (url t) _).
  - destruct (JsMap.get (url t) _); now apply Hrelease.
  - destruct (resolver (url t) w) as [[title|e] w1]; now apply Hrelease.
Qed.

End EditFacts.

(** ** From a change of the document to the link *)

Module PipelineFacts.
Import JsString JsStringFacts Matcher Resolver Engine.
Import StringTerms MatcherTerms EngineTerms OrderTerms.
Import EngineFacts MatcherFacts MatcherMoreFacts DedupMoreFacts EditFacts.
Import InvariantFacts.

#[local] Arguments batch_key : simpl never.
#[local] Arguments inflight_key : simpl never.

Lemma apart_from ms : forall from,
  apart from ms -> Forall (fun m => from <= index m) ms.
Proof.
  induction ms as [|m ms IH]; simpl; intros from; [constructor|].
  intros [Hm Hrest]. constructor; [assumption|].
  apply IH in Hrest. rewrite Forall_forall in *.
  intros x Hx. specialize (Hrest x Hx). lia.
Qed.

(** Tasks made from occurrences in reading order are sorted already. *)
Lemma tasks_sorted (f : URLMatch -> ProcessingTask) c ms :
  (forall m, position (f m) = c + index m) ->
  forall from, apart from ms -> StronglySorted by_position (List.map f ms).
Proof.
  intros Hf. induction ms as [|m ms IH]; simpl; intros from;
    [constructor|].
  intros [Hm Hrest]. constructor; [now apply (IH _ Hrest)|].
  apply apart_from in Hrest. rewrite Forall_forall in *.
  intros x Hx. apply in_map_iff in Hx as (y & <- & Hy).
  unfold by_position. rewrite !Hf. specialize (Hrest y Hy). lia.
Qed.

(** The first occurrence of the text is the first task of the batch. *)
Lemma unique_tasks_head (f : URLMatch -> ProcessingTask) c text m rest :
  (forall m, position (f m) = c + index m) ->
  findURLsInText text = m :: rest ->
  exists others,
    unique_tasks (List.map f (m :: rest)) = f m :: others /\
    forall u, In u others -> batch_key u <> batch_key (f m).
Proof.
  intros Hf Hfound.
  assert (Hsorted : StronglySorted by_position (List.map f (m :: rest))).
  { apply (tasks_sorted f c _ Hf 0). rewrite <- Hfound.
    apply (exec_loop_apart text (S (String.length text))). lia. }
  rewrite unique_tasks_keep_first. unfold sort_by_position.
  rewrite sort_sorted by exact Hsorted.
  simpl. eexists. split; [reflexivity|].
  intros u Hu Hkey. apply keep_first_In in Hu as [_ Hout].
  apply Hout. now left.
Qed.

Lemma findURLsInText_sound text m :
  In m (findURLsInText text) ->
  url_token (Matcher.url m) /\ occurs_at (Matcher.url m) (index m) text.
Proof.
  intros Hin.
  apply (exec_loop_sound text (S (String.length text)) 0 m) in Hin as [_ Hm];
    [|lia].
  pose proof (match_at_inside _ _ _ Hm) as Hlt.
  apply match_at_Some in Hm as (_ & Htok & rest & Hdrop).
  split; [assumption|].
  exists (take (index m) text), rest. split.
  - rewrite <- Hdrop. symmetry. apply take_drop.
  - rewrite length_take. lia.
Qed.

(** X8. From a change of the document to the link.  When the debounce
    timer fires on a line of more than 10 characters while the plugin is
    idle, the first URL of the line that is not cached goes to the
    resolver; the document is untouched while the resolver works.  When
    the resolver answers with a title, that URL, where it stands, is
    replaced by [[title](url)], the title is cached under the URL, and
    nothing is left in flight. *)
Theorem change_on_a_line_links_its_first_url
  (now later : nat) (s : state) (line : string)
  (m : URLMatch) (rest : list URLMatch) (title : string) :
  Editor.getLine (Editor.cursor_line (editor s)) (editor s) = Some line ->
  10 < String.length line ->
  findURLsInText line = m :: rest ->
  isProcessing s = false -> processingQueue s = [] ->
  processingUrls s = [] -> drainers s = [] ->
  JsMap.has (Matcher.url m) (urlCache s) = false ->
  let n := Editor.cursor_line (editor s) in
  let t := mkTask (Matcher.url m) n (index m) now in
  let s1 := handleChange_callback now s in
  drainers s1 = [DrainAwait t (inflight_key t)] /\
  processingUrls s1 = [inflight_key t] /\
  editor s1 = editor s /\
  exists s2 before after,
    drainer_resolved later 0 (Return title) s1 = Some s2 /\
    line = before ++ Matcher.url m ++ after /\
    String.length before = index m /\
    Editor.getLine n (editor s2)
    = Some (before ++ "[" ++ title ++ "](" ++ Matcher.url m ++ ")" ++ after) /\
    JsMap.get (Matcher.url m) (urlCache s2) = Some title /\
    processingUrls s2 = [] /\
    drainers s2 = [DrainPause].
Proof.
  intros Hline Hlong Hfound Hidle Hqueue Hset Hdrainers Hmiss n t s1.
  destruct (findURLsInText_sound line m) as [Htok (before & after & Hsplit & Hlen)];
    [rewrite Hfound; now left|].
  set (f := fun x : URLMatch => mkTask (Matcher.url x) n (index x) now).
  destruct (unique_tasks_head f 0 line m rest) as (others & Hunique & _);
    [reflexivity | assumption|].
  change (f m) with t in Hunique.
  assert (Hfresh : forall s0, editor s0 = editor s -> stale t (editor s0) = false).
  { intros s0 ->. apply stale_false_iff. exists line. split; [exact Hline|].
    split; [intros ->; simpl in Hlong; lia|].
    exists before, after. now split. }
  assert (Hs1 : s1
                = with_drainers
                    (fun l => (l ++ [DrainAwait t (inflight_key t)])%list)
                    (with_processingUrls (set_add (inflight_key t))
                       (with_processingQueue (fun _ => others)
                          (with_isProcessing true
                             (with_processingQueue
                                (fun q => (q ++ t :: others)%list) s))))).
  { unfold s1, handleChange_callback. rewrite Hline.
    destruct (Nat.leb_spec (String.length line) 10) as [|_]; [lia|].
    rewrite Hfound. cbn [List.length Nat.eqb].
    change (List.map _ (m :: rest)) with (List.map f (m :: rest)).
    unfold addToProcessingQueue. rewrite Hunique.
    cbn [isProcessing with_processingQueue]. rewrite Hidle.
    unfold processQueue.
    cbn [isProcessing with_processingQueue processingQueue]. rewrite Hidle, Hqueue.
    cbn [app List.length Nat.eqb orb].
    unfold drain_next.
    cbn [processingQueue with_isProcessing with_processingQueue].
    rewrite Hqueue. cbn [app].
    unfold task_begin.
    cbn [processingUrls with_isProcessing with_processingQueue].
    rewrite Hset. cbn [set_has existsb].
    rewrite processURL_begin_miss; [reflexivity | now apply Hfresh | exact Hmiss]. }
  rewrite Hs1. fields. rewrite Hdrainers, Hset.
  split; [reflexivity|]. split; [reflexivity|]. split; [reflexivity|].
  eexists. exists before, after.
  split.
  { unfold drainer_resolved. fields. rewrite Hdrainers.
    cbn [app nth_error]. reflexivity. }
  split; [exact Hsplit|]. split; [exact Hlen|].
  unfold task_resume, processURL_resume. fields.
  rewrite Hset.
  split; [|split; [apply CacheFacts.updateCache_get|split]].
  - rewrite (replaceURLWithMarkdown_in_place t title (editor s) before after);
      [|rewrite Hsplit in Hline; exact Hline | exact Hlen | exact Htok].
    apply getLine_setLine_same. now apply getLine_Some_lt in Hline.
  - apply set_delete_add_empty.
  - now rewrite Hdrainers.
Qed.

(** X8 on [see https://example.com/cool-page for info], for the page
    title [Cool page]. *)
Lemma change_on_a_line_links_its_first_url_witness :
  let u := "https://example.com/cool-page" in
  let s := initial (Editor.mk ["see " ++ u ++ " for info"] 0 0) in
  let t := mkTask u 0 4 600 in
  drainers (handleChange_callback 600 s) = [DrainAwait t (inflight_key t)] /\
  exists s2,
    drainer_resolved 900 0 (Return "Cool page") (handleChange_callback 600 s)
    = Some s2 /\
    JsMap.get u (urlCache s2) = Some "Cool page" /\
    drainers s2 = [DrainPause].
Proof.
  intros u s t.
  destruct (change_on_a_line_links_its_first_url
              600 900 s ("see " ++ u ++ " for info")
              (mkURLMatch u 4) [] "Cool page")
    as (Hd & _ & _ & s2 & before & after & Hgo & _ & _ & _ & Hget & _ & Hd2);
    try reflexivity.
  - simpl. lia.
  - split; [exact Hd|]. exists s2. repeat split; assumption.
Defined.

End PipelineFacts.

(** ** The plugin over its own resolver: no error, no retry, no stall *)

Module LivenessFacts.
Import JsString Resolver Engine EngineTerms RunTerms.
Import InvariantFacts.

(** Steps whose resolver always answers with a title leave the error log
    alone. *)
Section Steps.
Variable resolves : string -> outcome string -> Prop.
Hypothesis always_returns :
  forall u r, resolves u r -> exists title, r = Return title.

Lemma returns_no_transient u e : resolves u (Throw e) -> ~ transient e.
Proof. intros H. apply always_returns in H as [title H]. discriminate. Qed.

Lemma drain_next_errorLog now s :
  processingUrls s = [] ->
  errorLog (fst (drain_next now s)) = errorLog s.
Proof.
  intros Hset. unfold drain_next.
  destruct (processingQueue s) as [|t rest]; [reflexivity|].
  pose proof (task_begin_idle now t
                (with_processingQueue (fun _ => rest) s) Hset) as Hbegin.
  destruct (task_begin now t (with_processingQueue (fun _ => rest) s))
    as [s1 [key|]]; fields; tauto.
Qed.

Lemma addToProcessingQueue_errorLog now tasks s :
  drained s ->
  errorLog (addToProcessingQueue now tasks s) = errorLog s.
Proof.
  intros Hdrained. unfold addToProcessingQueue. fields.
  destruct (isProcessing s) eqn:Eflag; [reflexivity|].
  unfold processQueue. fields. rewrite Eflag. cbn [orb].
  destruct (Nat.eqb _ 0); [reflexivity|].
  inversion Hdrained as [s0 Hf Hd Hset|s0 Hf|s0 t Hf]; subst s0;
    try congruence.
  match goal with
  | |- context [drain_next now ?x] =>
      pose proof (drain_next_errorLog now x Hset) as Hnext;
      destruct (drain_next now x) as [s1 d]
  end.
  destruct d; fields; exact Hnext.
Qed.

Lemma step_errorLog s s' :
  invariant s -> step resolves s s' -> errorLog s' = errorLog s.
Proof.
  intros (Hretry & Hsched & Hdrained) Hstep.
  destruct Hstep
    as [now s | now s deadline Harmed Hdue | now text s | ed s | b s
        | now i t key r s s' Hnth Hres Hgo
        | now i s s' Hgo
        | now s Hsleep
        | rest key item r s Hawait Hres].
  - reflexivity.
  - unfold handleChange_callback. fields.
    destruct (Editor.getLine _ _) as [currentLine|]; [|reflexivity].
    destruct (Nat.leb _ 10); [reflexivity|].
    destruct (Nat.eqb _ 0); [reflexivity|].
    rewrite addToProcessingQueue_errorLog; [reflexivity|].
    inversion Hdrained; subst;
      [apply drained_idle | apply drained_pausing
       | eapply drained_awaiting]; eassumption.
  - unfold handlePaste. destruct text as [pastedText|]; [|reflexivity].
    destruct (String.eqb pastedText ""); [reflexivity|].
    destruct (Nat.ltb 0 _); [|reflexivity].
    fields. now apply addToProcessingQueue_errorLog.
  - reflexivity.
  - reflexivity.
  - unfold drainer_resolved in Hgo. rewrite Hnth in Hgo.
    injection Hgo as <-.
    apply always_returns in Hres as [title ->].
    reflexivity.
  - unfold drainer_wakes in Hgo.
    destruct (nth_error (drainers s) i) as [[t key|]|] eqn:Hnth;
      try discriminate.
    inversion Hdrained as [s0 Hf Hd Hset|s0 Hf Hd Hset|s0 t0 Hf Hd Hset];
      subst s0; rewrite Hd in Hnth.
    + destruct i; discriminate.
    + match type of Hgo with
      | context [drain_next now ?x] =>
          pose proof (drain_next_errorLog now x Hset) as Hnext;
          destruct (drain_next now x) as [s1 d]
      end.
      injection Hgo as <-. destruct d; fields; exact Hnext.
    + apply nth_error_single in Hnth as [_ Hnth]. discriminate.
  - unfold processRetryQueue. rewrite Hretry. reflexivity.
  - congruence.
Qed.

Lemma reachable_errorLog s : reachable resolves s -> errorLog s = [].
Proof.
  induction 1 as [ed|s s' Hreach IH Hstep]; [reflexivity|].
  rewrite <- IH. apply step_errorLog; [|assumption].
  now apply (reachable_invariant resolves returns_no_transient).
Qed.

(** *** The queue is empty whenever no consumer runs *)

Lemma drain_next_turn now s :
  processingUrls s = [] -> isProcessing s = true ->
  match processingQueue s with
  | [] =>
      drain_next now s = (with_isProcessing false s, None)
  | t :: rest =>
      exists s1 d,
        drain_next now s = (s1, Some d) /\
        processingQueue s1 = rest /\ isProcessing s1 = true /\
        drainers s1 = drainers s
  end.
Proof.
  intros Hset Hflag. unfold drain_next.
  destruct (processingQueue s) as [|t rest]; [reflexivity|].
  pose proof (task_begin_idle now t
                (with_processingQueue (fun _ => rest) s) Hset) as Hbegin.
  destruct (task_begin now t (with_processingQueue (fun _ => rest) s))
    as [s1 [key|]]; fields;
    destruct Hbegin as (_ & _ & Hd & Hf & _ & Hq & _);
    do 2 eexists; (split; [reflexivity|]); repeat split; congruence.
Qed.

Lemma addToProcessingQueue_settled now tasks s :
  drained s ->
  (isProcessing s = false -> processingQueue s = []) ->
  isProcessing (addToProcessingQueue now tasks s) = false ->
  processingQueue (addToProcessingQueue now tasks s) = [].
Proof.
  intros Hdrained Hidle. unfold addToProcessingQueue. fields.
  destruct (isProcessing s) eqn:Eflag; [fields; congruence|].
  unfold processQueue. fields. rewrite Eflag. cbn [orb].
  destruct (Nat.eqb _ 0) eqn:Elen.
  - intros _. fields. apply Nat.eqb_eq in Elen.
    now apply length_zero_iff_nil.
  - inversion Hdrained as [s0 Hf Hd Hset|s0 Hf|s0 t Hf]; subst s0;
      try congruence.
    match goal with
    | |- context [drain_next now ?x] =>
        pose proof (drain_next_turn now x Hset eq_refl) as Hturn;
        destruct (processingQueue x) as [|t rest] eqn:Equeue
    end.
    + fields. rewrite Equeue in Elen. discriminate.
    + destruct Hturn as (s1 & d & -> & _ & Hflag & _).
      fields. congruence.
Qed.

Lemma step_settled s s' :
  invariant s ->
  (isProcessing s = false -> processingQueue s = []) ->
  step resolves s s' ->
  isProcessing s' = false -> processingQueue s' = [].
Proof.
  intros (Hretry & Hsched & Hdrained) Hidle Hstep.
  destruct Hstep
    as [now s | now s deadline Harmed Hdue | now text s | ed s | b s
        | now i t key r s s' Hnth Hres Hgo
        | now i s s' Hgo
        | now s Hsleep
        | rest key item r s Hawait Hres].
  - exact Hidle.
  - unfold handleChange_callback. fields.
    destruct (Editor.getLine _ _) as [currentLine|]; [|exact Hidle].
    destruct (Nat.leb _ 10); [exact Hidle|].
    destruct (Nat.eqb _ 0); [exact Hidle|].
    apply addToProcessingQueue_settled; [|exact Hidle].
    inversion Hdrained; subst;
      [apply drained_idle | apply drained_pausing
       | eapply drained_awaiting]; eassumption.
  - unfold handlePaste. destruct text as [pastedText|]; [|exact Hidle].
    destruct (String.eqb pastedText ""); [exact Hidle|].
    destruct (Nat.ltb 0 _); [|exact Hidle].
    fields. now apply addToProcessingQueue_settled.
  - exact Hidle.
  - exact Hidle.
  - unfold drainer_resolved in Hgo. rewrite Hnth in Hgo.
    injection Hgo as <-.
    apply always_returns in Hres as [title ->].
    exact Hidle.
  - unfold drainer_wakes in Hgo.
    destruct (nth_error (drainers s) i) as [[t key|]|] eqn:Hnth;
      try discriminate.
    inversion Hdrained as [s0 Hf Hd Hset|s0 Hf Hd Hset|s0 t0 Hf Hd Hset];
      subst s0; rewrite Hd in Hnth.
    + destruct i; discriminate.
    + match type of Hgo with
      | context [drain_next now ?x] =>
          pose proof (drain_next_turn now x Hset Hf) as Hturn;
          destruct (processingQueue x) as [|t rest] eqn:Equeue
      end.
      * rewrite Hturn in Hgo. injection Hgo as <-. intros _. exact Equeue.
      * destruct Hturn as (s1 & d & Hnext & _ & Hflag & _).
        rewrite Hnext in Hgo. injection Hgo as <-. fields. congruence.
    + apply nth_error_single in Hnth as [_ Hnth]. discriminate.
  - unfold processRetryQueue. rewrite Hretry. exact Hidle.
  - congruence.
Qed.

Lemma reachable_settled s :
  reachable resolves s -> isProcessing s = false -> processingQueue s = [].
Proof.
  induction 1 as [ed|s s' Hreach IH Hstep]; [reflexivity|].
  apply (step_settled s); [|assumption|assumption].
  now apply (reachable_invariant resolves returns_no_transient).
Qed.

(** *** The queue is drained *)

Hypothesis answers : forall u, exists r, resolves u r.

Lemma runs_reachable s s' :
  runs resolves s s' -> reachable resolves s -> reachable resolves s'.
Proof.
  induction 1 as [s|s s1 s' Hstep _ IH]; [auto|].
  intros Hreach. apply IH. now apply (reachable_step _ s).
Qed.

Lemma drains_within n : forall s,
  reachable resolves s -> pending s <= n ->
  exists s', runs resolves s s' /\ quiet s'.
Proof.
  induction n as [|n IH]; intros s Hreach Hn;
    pose proof (reachable_invariant resolves returns_no_transient s Hreach)
      as (Hretry & Hsched & Hdrained);
    pose proof (reachable_settled s Hreach) as Hidle;
    inversion Hdrained as [s0 Hf Hd Hset|s0 Hf Hd Hset|s0 t Hf Hd Hset];
    subst s0;
    try (exists s; split; [constructor | repeat split; auto]; fail);
    try (unfold pending in Hn; rewrite Hd in Hn; lia).
  - (* the pause ends *)
    assert (Hwakes : exists s1,
               drainer_wakes 0 0 s = Some s1 /\ pending s1 <= n).
    { unfold drainer_wakes. rewrite Hd. cbn [nth_error].
      pose proof (drain_next_turn 0 (with_drainers (remove_nth 0) s) Hset Hf)
        as Hturn.
      unfold pending in Hn. rewrite Hd in Hn.
      destruct (processingQueue (with_drainers (remove_nth 0) s))
        as [|t rest] eqn:Equeue; fields.
      - rewrite Hturn. eexists. split; [reflexivity|].
        unfold pending. fields. rewrite Equeue, Hd. simpl. lia.
      - destruct Hturn as (s1 & d & -> & Hq & _ & Hdr).
        eexists. split; [reflexivity|].
        rewrite Hd in Hdr.
        unfold pending. fields. rewrite Hq, Hdr. rewrite Equeue in Hn.
        cbn [app List.length] in *. destruct d; lia. }
    destruct Hwakes as (s1 & Hgo & Hless).
    assert (Hstep : step resolves s s1) by exact (step_drain_wakes _ 0 0 s s1 Hgo).
    destruct (IH s1) as (s' & Hruns & Hquiet);
      [now apply (reachable_step _ s) | assumption|].
    exists s'. split; [now apply (runs_step _ s s1) | assumption].
  - (* the resolver answers *)
    destruct (answers (url t)) as [r Hr].
    pose proof Hr as Hret. apply always_returns in Hret as [title ->].
    assert (Hgo : exists s1,
               drainer_resolved 0 0 (Return title) s = Some s1 /\
               pending s1 <= n).
    { unfold drainer_resolved. rewrite Hd. cbn [nth_error].
      eexists. split; [reflexivity|].
      unfold pending in *. rewrite Hd in Hn.
      unfold task_resume, processURL_resume. fields. rewrite Hd.
      cbn [remove_nth app]. lia. }
    destruct Hgo as (s1 & Hgo & Hless).
    assert (Hstep : step resolves s s1).
    { apply (step_drain_resolved _ 0 0 t (inflight_key t) (Return title));
        [now rewrite Hd | assumption | assumption]. }
    destruct (IH s1) as (s' & Hruns & Hquiet);
      [now apply (reachable_step _ s) | assumption|].
    exists s'. split; [now apply (runs_step _ s s1) | assumption].
Qed.

End Steps.

(** X9. In the plugin as it is, the error path and the retry machinery
    never run: in every state the plugin can reach no [Failed to process
    URL] error has been logged, the retry queue is empty, and a tick of
    [processRetryQueue] finds nothing to do and leaves the state as it
    is. *)
Theorem plugin_never_logs_an_error_nor_schedules_a_retry
  (P : Platform.t) (s : state) :
  plugin_reachable P s ->
  errorLog s = [] /\ retryQueue s = [] /\ scheduler s = RetrySleep /\
  forall now, processRetryQueue now s = s.
Proof.
  intros Hreach.
  destruct (plugin_invariant P s Hreach) as (Hretry & Hsched & _).
  split; [|split; [assumption|split; [assumption|]]].
  - apply (reachable_errorLog (source_resolver P)); [|assumption].
    apply source_resolver_returns.
  - intros now. unfold processRetryQueue. rewrite Hretry.
    cbn [List.filter retry_run install fst snd].
    destruct s; cbn in *. now subst.
Qed.

(** X9 in the state reached when the debounce timer has fired on a line
    with a URL and the resolver, finding the network down, has answered
    with the fallback title. *)
Lemma plugin_never_logs_an_error_nor_schedules_a_retry_witness :
  let ed := Editor.mk ["see https://example.org/My_Report.html"] 0 0 in
  exists s,
    plugin_reachable Reference.platform s /\
    Editor.lines (editor s)
    = ["see [My Report](https://example.org/My_Report.html)"] /\
    errorLog s = [] /\ retryQueue s = [].
Proof.
  intros ed.
  assert (H0 : plugin_reachable Reference.platform (initial ed))
    by constructor.
  pose proof (reachable_step _ _ _ H0 (step_change _ 100 _)) as H1.
  match type of H1 with
  | reachable _ ?s1 =>
      pose proof (reachable_step _ _ _ H1
                    (step_debounce _ 600 s1 600 eq_refl (le_n 600))) as H2
  end.
  eassert (H3 : plugin_reachable Reference.platform _).
  { eapply reachable_step; [exact H2|].
    eapply (step_drain_resolved _ 900 0 _ _ (Return "My Report"));
      [vm_compute; reflexivity
      | exists (fresh_world unreachable_network); vm_compute; reflexivity
      | vm_compute; reflexivity]. }
  eexists. split; [exact H3|]. split; [vm_compute; reflexivity|].
  destruct (plugin_never_logs_an_error_nor_schedules_a_retry _ _ H3)
    as (Hlog & Hretry & _).
  split; assumption.
Defined.

(** X10. The queue never stalls.  In every state the plugin can reach
    there is at most one consumer of the queue, [isProcessing] is true
    exactly while there is one, and the queue is empty whenever there is
    none: no task waits without a consumer.  And letting the resolver
    answer and the pauses of [processQueue] end brings the plugin to rest:
    every queued task has been taken from the queue, nothing is in flight,
    and [isProcessing] is false again. *)
Theorem queue_is_always_drained (P : Platform.t) (s : state) :
  plugin_reachable P s ->
  List.length (drainers s) <= 1 /\
  (isProcessing s = true <-> drainers s <> []) /\
  (isProcessing s = false -> processingQueue s = []) /\
  exists s',
    runs (source_resolver P) s s' /\ plugin_reachable P s' /\ quiet s'.
Proof.
  intros Hreach.
  assert (Hreturns : forall u r,
             source_resolver P u r -> exists title, r = Return title)
    by apply source_resolver_returns.
  destruct (plugin_invariant P s Hreach) as (_ & _ & Hdrained).
  split; [|split; [|split]].
  - inversion Hdrained as [s0 Hf Hd Hset|s0 Hf Hd Hset|s0 t0 Hf Hd Hset];
      subst s0; rewrite Hd; simpl; lia.
  - inversion Hdrained as [s0 Hf Hd Hset|s0 Hf Hd Hset|s0 t0 Hf Hd Hset];
      subst s0; rewrite Hd, Hf; split; congruence.
  - now apply (reachable_settled (source_resolver P) Hreturns).
  - destruct (drains_within (source_resolver P) Hreturns) with
      (n := pending s) (s := s) as (s' & Hruns & Hquiet).
    + intros u. eexists. exists (fresh_world unreachable_network).
      reflexivity.
    + assumption.
    + lia.
    + exists s'. split; [assumption|]. split; [|assumption].
      now apply (runs_reachable (source_resolver P) s).
Qed.

(** X10 in the state reached when the debounce timer has fired on a line
    with a URL: the resolution in flight ends and the plugin comes to
    rest. *)
Lemma queue_is_always_drained_witness :
  let ed := Editor.mk ["see https://example.org/My_Report.html"] 0 0 in
  let s :=
    handleChange_callback 600
      (with_debounceTimeout None (handleChange 100 (initial ed))) in
  isProcessing s = true /\
  exists s', runs (source_resolver Reference.platform) s s' /\ quiet s'.
Proof.
  intros ed s.
  destruct (queue_is_always_drained Reference.platform s)
    as (_ & _ & _ & s' & Hruns & _ & Hquiet).
  - apply (reachable_step _ (handleChange 100 (initial ed))).
    + apply (reachable_step _ (initial ed)); constructor.
    + apply (step_debounce _ 600 _ 600); [reflexivity | lia].
  - split; [reflexivity|]. exists s'. split; assumption.
Defined.

End LivenessFacts.

(** ** What the resolver answers *)

Module AnswerFacts.
Import JsString JsStringFacts Resolver StringTerms ResolverTerms AnswerTerms.

Lemma fetches_app a b : fetches (a ++ b) = (fetches a ++ fetches b)%list.
Proof.
  induction a as [|[u|ms|level] a IH]; simpl; [reflexivity | | |];
    now rewrite IH.
Qed.

Section WithPlatform.
Variable P : Platform.t.

(** The embed lookup: the answer, one [fetch], no wait, no exception. *)
Lemma oEmbed_answer url w :
  exists w' added,
    oEmbed url w
    = (Return (embed_title (network w (calls w) (embed_url url))), w') /\
    network w' = network w /\ calls w' = S (calls w) /\
    trace w' = (trace w ++ added)%list /\
    Forall no_wait added /\ fetches added = [embed_url url].
Proof.
  unfold oEmbed, bind, try_catch, fetcher, fetch, console, emit, ret,
    settle, bind, embed_title.
  cbn [network calls trace].
  change ("https://noembed.com/embed?url=" ++ url) with (embed_url url).
  destruct (network w (calls w) (embed_url url)) as [response|e];
    cbn [network calls trace].
  - destruct (ok response).
    + destruct (json response) as [data|e]; cbn [network calls trace].
      * destruct (title data) as [t|], (provider_name data) as [p|];
          cbn [truthy andb negb or_empty];
          try destruct (String.eqb t ""); try destruct (String.eqb p "");
          cbn [truthy andb negb orb];
          do 2 eexists; (split; [reflexivity|]);
          cbn [network calls trace]; rewrite <- ?app_assoc;
          repeat split; repeat constructor.
      * do 2 eexists. split; [reflexivity|].
        cbn [network calls trace]. rewrite <- ?app_assoc.
        repeat split; repeat constructor.
    + do 2 eexists. split; [reflexivity|].
      cbn [network calls trace]. rewrite <- ?app_assoc.
      repeat split; repeat constructor.
  - do 2 eexists. split; [reflexivity|].
    cbn [network calls trace]. rewrite <- ?app_assoc.
    repeat split; repeat constructor.
Qed.

(** One turn of the loop: the page's title or the fallback title, one
    [fetch], no wait, no exception. *)
Lemma attempt_body_answer url w :
  exists w' added,
    attempt_body P url w
    = (Return (match page_title (network w (calls w) url) with
               | Some t => t
               | None => Fallback.getTitleFromURL P url
               end), w') /\
    network w' = network w /\ calls w' = S (calls w) /\
    trace w' = (trace w ++ added)%list /\
    Forall no_wait added /\ fetches added = [url].
Proof.
  unfold attempt_body, bind, try_catch, fetch, getTitleFromURL, console,
    emit, ret, settle, bind, page_title.
  cbn [network calls trace].
  destruct (network w (calls w) url) as [response|e];
    cbn [network calls trace].
  - destruct (opaque response); cbn [network calls trace].
    + do 2 eexists. split; [reflexivity|].
      cbn [network calls trace]. rewrite <- ?app_assoc.
      repeat split; repeat constructor.
    + destruct (ok response); cbn [network calls trace].
      * destruct (text response) as [html|e]; cbn [network calls trace].
        -- destruct (match_title html); cbn [option_map];
             do 2 eexists; (split; [reflexivity|]);
             cbn [network calls trace]; rewrite <- ?app_assoc;
             repeat split; repeat constructor.
        -- do 2 eexists. split; [reflexivity|].
           cbn [network calls trace]. rewrite <- ?app_assoc.
           repeat split; repeat constructor.
      * do 2 eexists. split; [reflexivity|].
        cbn [network calls trace]. rewrite <- ?app_assoc.
        repeat split; repeat constructor.
  - do 2 eexists. split; [reflexivity|].
    cbn [network calls trace]. rewrite <- ?app_assoc.
    repeat split; repeat constructor.
Qed.

End WithPlatform.

(** X11. What [fetchPageTitleWithRetry] answers, on any network.  The
    title is decided by the answers to at most two requests: the one the
    embed service gives, and, when that yields no title, the one the page
    itself gives; when the page yields none either, it is the fallback
    title.  The arguments [retries] and [delay] have no part in it: there
    is no third request and no wait, and the call never throws. *)
Theorem title_is_decided_by_the_first_two_answers
  (P : Platform.t) (url : string) (retries delay : nat) (w : world) :
  let embed := embed_title (network w (calls w) (embed_url url)) in
  let page := page_title (network w (S (calls w)) url) in
  exists w' added,
    fetchPageTitleWithRetry P url retries delay w
    = (Return (match embed, page with
               | Some t, _ => t
               | None, Some t => t
               | None, None => Fallback.getTitleFromURL P url
               end), w') /\
    network w' = network w /\
    trace w' = (trace w ++ added)%list /\
    Forall no_wait added /\
    fetches added = match embed with
                    | Some _ => [embed_url url]
                    | None => [embed_url url; url]
                    end.
Proof.
  intros embed page. unfold fetchPageTitleWithRetry, bind.
  destruct (oEmbed_answer url w)
    as (w1 & a1 & -> & Hnet1 & Hcalls1 & Htrace1 & Hwait1 & Hfetch1).
  fold embed. destruct embed as [t|].
  - exists w1, a1. unfold ret. repeat split; assumption.
  - cbn [attempts]. unfold try_catch.
    destruct (attempt_body_answer P url w1)
      as (w2 & a2 & -> & Hnet2 & Hcalls2 & Htrace2 & Hwait2 & Hfetch2).
    rewrite Hnet1, Hcalls1. fold page.
    exists w2, (a1 ++ a2)%list. split; [reflexivity|].
    split; [congruence|]. split; [now rewrite Htrace2, Htrace1, app_assoc|].
    split; [now apply Forall_app|].
    now rewrite fetches_app, Hfetch1, Hfetch2.
Qed.

End AnswerFacts.

(** ** The title of a page *)

Module TitleFacts.
Import JsString JsStringFacts Resolver StringTerms AnswerTerms.

Lemma startsWith_ci_append p : forall s x,
  startsWith_ci p s = true -> startsWith_ci p (s ++ x) = true.
Proof.
  induction p as [|a p IH]; intros [|b s] x; simpl; try congruence.
  intros H. apply andb_true_iff in H as [Hab Hs].
  now rewrite Hab, IH.
Qed.

Lemma startsWith_ci_split p : forall s,
  startsWith_ci p s = true ->
  exists o x,
    s = o ++ x /\ to_lower o = to_lower p /\
    String.length o = String.length p.
Proof.
  induction p as [|a p IH]; intros s; simpl.
  - intros _. exists "", s. auto.
  - destruct s as [|b s]; [discriminate|].
    intros H. apply andb_true_iff in H as [Hab Hs].
    destruct (IH s Hs) as (o & x & -> & Hlow & Hlen).
    exists (String b o), x. apply Ascii.eqb_eq in Hab.
    split; [reflexivity|]. split.
    + unfold to_lower in *. cbn [map_chars]. now rewrite Hab, Hlow.
    + cbn [String.length]. now rewrite Hlen.
Qed.

Lemma startsWith_ci_lower p : forall o x,
  to_lower o = to_lower p -> startsWith_ci p (o ++ x) = true.
Proof.
  induction p as [|a p IH]; intros [|b o] x; simpl; try discriminate;
    [reflexivity|].
  intros [= Hab Hlow]. rewrite (IH o x Hlow), Hab.
  now rewrite Ascii.eqb_refl.
Qed.

Lemma length_to_lower s : String.length (to_lower s) = String.length s.
Proof.
  unfold to_lower. induction s as [|c s IH]; simpl; [reflexivity|].
  now rewrite IH.
Qed.

(** A tag cannot begin before a [<] and run across it: behind its first
    character a tag holds no [<]. *)
Lemma startsWith_ci_before q : forall s r,
  all_chars (fun c => negb (Ascii.eqb (lower c) "<")) q ->
  startsWith_ci q (s ++ String "<" r) = true ->
  startsWith_ci q s = true.
Proof.
  induction q as [|a q IH]; intros s r Hq; simpl; [reflexivity|].
  destruct Hq as [Ha Hq]. destruct s as [|b s]; simpl.
  - apply negb_true_iff in Ha. change (lower "<") with "<"%char.
    now rewrite Ha.
  - intros H. apply andb_true_iff in H as [Hab Hs].
    rewrite Hab. now apply (IH s r).
Qed.

Lemma tag_not_across a q s r :
  all_chars (fun c => negb (Ascii.eqb (lower c) "<")) q ->
  s <> "" ->
  startsWith_ci (String a q) s = false ->
  startsWith_ci (String a q) (s ++ String "<" r) = false.
Proof.
  intros Hq Hne Hs.
  destruct (startsWith_ci (String a q) (s ++ String "<" r)) eqn:E;
    [|reflexivity].
  destruct s as [|b s]; [congruence|].
  simpl in E, Hs. apply andb_true_iff in E as [Hab E].
  rewrite Hab in Hs. simpl in Hs.
  now rewrite (startsWith_ci_before q s r Hq E) in Hs.
Qed.

Lemma lower_tag_starts o p :
  to_lower o = String "<" p -> exists o', o = String "<" o'.
Proof.
  destruct o as [|c o]; simpl; [discriminate|].
  intros [= Hc _]. exists o. f_equal.
  unfold lower in Hc.
  destruct (Nat.leb 65 (nat_of_ascii c) && Nat.leb (nat_of_ascii c) 90)
    eqn:E; [|assumption].
  exfalso. apply andb_true_iff in E as [H1 H2].
  apply Nat.leb_le in H1, H2.
  apply (f_equal nat_of_ascii) in Hc.
  rewrite nat_ascii_embedding in Hc by lia.
  change (nat_of_ascii "<") with 60 in Hc. lia.
Qed.

(** *** The closing tag *)

Lemma title_body_Some s : forall body,
  title_body s = Some body ->
  exists close post,
    s = body ++ close ++ post /\ to_lower close = "</title>" /\
    all_chars no_line_terminator body /\
    occurs_ci "</title>" body = false.
Proof.
  induction s as [|c s IH]; intros body.
  - cbn. discriminate.
  - cbn [title_body].
    destruct (startsWith_ci "</title>" (String c s)) eqn:E.
    + intros [= <-]. apply startsWith_ci_split in E as (o & x & -> & Hlow & _).
      exists o, x. repeat split; auto.
    + destruct (is_line_terminator c) eqn:Ec; [discriminate|].
      destruct (title_body s) as [b|]; [|discriminate].
      intros [= <-].
      destruct (IH b eq_refl) as (close & post & -> & Hlow & Hline & Hnone).
      exists close, post. repeat split; [assumption | | assumption |].
      * unfold no_line_terminator. now rewrite Ec.
      * cbn [occurs_ci]. rewrite Hnone, orb_false_r.
        destruct (startsWith_ci "</title>" (String c b)) eqn:Eb;
          [|reflexivity].
        apply (startsWith_ci_append _ _ (close ++ post)) in Eb.
        simpl in Eb, E. congruence.
Qed.

Lemma title_body_unfold s :
  title_body s
  = if startsWith_ci "</title>" s then Some EmptyString
    else match s with
         | EmptyString => None
         | String c r =>
             if is_line_terminator c then None
             else option_map (String c) (title_body r)
         end.
Proof. destruct s; reflexivity. Qed.

Lemma title_body_found body : forall close post,
  to_lower close = "</title>" ->
  all_chars no_line_terminator body ->
  occurs_ci "</title>" body = false ->
  title_body (body ++ close ++ post) = Some body.
Proof.
  intros close post Hclose.
  destruct (lower_tag_starts close _ Hclose) as [close' ->].
  induction body as [|c body IH]; intros Hline Hnone.
  - change ("" ++ String "<" close' ++ post)
      with (String "<" close' ++ post).
    rewrite title_body_unfold.
    now rewrite (startsWith_ci_lower "</title>" _ post Hclose).
  - cbn [occurs_ci] in Hnone. apply orb_false_iff in Hnone as [Hhere Hnone].
    destruct Hline as [Hc Hline].
    rewrite title_body_unfold.
    change (String c body ++ String "<" close' ++ post)
      with (String c body ++ String "<" (close' ++ post)) at 1.
    rewrite tag_not_across;
      [| simpl; repeat split | discriminate | assumption].
    change (String c body ++ String "<" close' ++ post)
      with (String c (body ++ String "<" close' ++ post)).
    unfold no_line_terminator in Hc. apply negb_true_iff in Hc.
    cbv iota. rewrite Hc.
    now rewrite IH.
Qed.

(** *** The opening tag *)

Lemma match_title_unfold html :
  match_title html
  = match (if startsWith_ci "<title>" html
           then title_body (drop 7 html) else None) with
    | Some body => Some body
    | None =>
        match html with
        | EmptyString => None
        | String _ r => match_title r
        end
    end.
Proof. destruct html; reflexivity. Qed.

Lemma match_title_Some html : forall body,
  match_title html = Some body ->
  exists pre open close post,
    html = pre ++ open ++ body ++ close ++ post /\
    to_lower open = "<title>" /\ to_lower close = "</title>" /\
    all_chars no_line_terminator body /\
    occurs_ci "</title>" body = false.
Proof.
  induction html as [|c html IH]; intros body; rewrite match_title_unfold.
  - cbn. discriminate.
  - destruct (startsWith_ci "<title>" (String c html)) eqn:E.
    + destruct (title_body (drop 7 (String c html))) as [b|] eqn:Eb.
      * intros [= <-].
        apply startsWith_ci_split in E as (o & x & Hs & Hlow & Hlen).
        rewrite Hs in Eb. change 7 with (String.length "<title>") in Eb.
        rewrite <- Hlen, drop_append in Eb.
        apply title_body_Some in Eb as (close & post & -> & Hclose & H).
        exists "", o, close, post. rewrite Hs. repeat split; tauto.
      * intros H. apply IH in H
          as (pre & open & close & post & -> & H).
        exists (String c pre), open, close, post. split; [reflexivity|].
        exact H.
    + intros H. apply IH in H as (pre & open & close & post & -> & H).
      exists (String c pre), open, close, post. split; [reflexivity|].
      exact H.
Qed.

Lemma match_title_found pre : forall open body close post,
  to_lower open = "<title>" -> to_lower close = "</title>" ->
  occurs_ci "<title>" pre = false ->
  all_chars no_line_terminator body ->
  occurs_ci "</title>" body = false ->
  match_title (pre ++ open ++ body ++ close ++ post) = Some body.
Proof.
  intros open body close post Hopen Hclose Hpre Hline Hnone.
  destruct (lower_tag_starts open _ Hopen) as [open' Hopen'].
  induction pre as [|c pre IH].
  - cbn [append]. rewrite match_title_unfold.
    rewrite (startsWith_ci_lower "<title>" open _ Hopen).
    assert (Hlen : String.length open = 7).
    { rewrite <- length_to_lower, Hopen. reflexivity. }
    change 7 with 7 at 1. rewrite <- Hlen at 1. rewrite drop_append.
    now rewrite title_body_found.
  - cbn [occurs_ci] in Hpre. apply orb_false_iff in Hpre as [Hhere Hpre].
    rewrite match_title_unfold.
    assert (E : startsWith_ci "<title>"
                  (String c pre ++ open ++ body ++ close ++ post) = false).
    { rewrite Hopen'.
      change (String c pre ++ String "<" open' ++ body ++ close ++ post)
        with (String c pre ++ String "<" (open' ++ body ++ close ++ post)).
      apply tag_not_across;
        [simpl; repeat split | discriminate | assumption]. }
    rewrite E. now apply IH.
Qed.

(** X12. The page title the resolver reads from an HTML text is what
    stands between a [<title>] tag and the next [</title>] tag, in any mix
    of upper and lower case; it never holds a line break, so a title
    written over several lines is not found.  And the first title element
    is found when it stands on one line: no [<title>] tag before it, no
    line break and no closing tag inside it. *)
Theorem page_title_is_the_first_title_element :
  (forall html body,
      match_title html = Some body ->
      exists pre open close post,
        html = pre ++ open ++ body ++ close ++ post /\
        to_lower open = "<title>" /\ to_lower close = "</title>" /\
        all_chars no_line_terminator body /\
        occurs_ci "</title>" body = false) /\
  (forall pre open body close post,
      to_lower open = "<title>" -> to_lower close = "</title>" ->
      occurs_ci "<title>" pre = false ->
      all_chars no_line_terminator body ->
      occurs_ci "</title>" body = false ->
      match_title (pre ++ open ++ body ++ close ++ post) = Some body).
Proof.
  split; [apply match_title_Some | intros; now apply match_title_found].
Qed.

(** X12 on a small page. *)
Lemma page_title_is_the_first_title_element_witness :
  match_title "<html><head><TITLE> Cool page </Title></head></html>"
  = Some " Cool page ".
Proof.
  destruct page_title_is_the_first_title_element as [_ Hfound].
  apply (Hfound "<html><head>" "<TITLE>" " Cool page " "</Title>"
                "</head></html>");
    try reflexivity.
  simpl. repeat split.
Defined.

End TitleFacts.

(** ** A paste *)

Module PasteFacts.
Import JsString JsStringFacts Matcher Resolver Engine.
Import StringTerms MatcherTerms EngineTerms OrderTerms.
Import EngineFacts KeyFacts PipelineFacts InvariantFacts.

#[local] Arguments batch_key : simpl never.
#[local] Arguments inflight_key : simpl never.

(** X13. [handlePaste] queues its tasks before it inserts the pasted
    text, and the queue, when idle, takes the first task at once.  So the
    first URL of the paste is checked against the document as it was
    before the paste: unless the line already carried that URL at the place
    of the cursor, the task is given up, no request is made for it, no
    task for that URL remains in the queue, and the text is inserted as it
    was pasted.  The other URLs of the paste wait in the queue. *)
Theorem paste_checks_its_first_url_before_inserting
  (now : nat) (s : state) (text : string)
  (m : URLMatch) (rest : list URLMatch) :
  findURLsInText text = m :: rest ->
  isProcessing s = false -> processingQueue s = [] ->
  processingUrls s = [] -> drainers s = [] ->
  let line := Editor.cursor_line (editor s) in
  let ch := Editor.cursor_ch (editor s) in
  stale (mkTask (Matcher.url m) line (ch + index m) now) (editor s) = true ->
  let s' := handlePaste now (Some text) s in
  editor s' = Editor.replaceSelection text (editor s) /\
  urlCache s' = urlCache s /\
  processingUrls s' = [] /\ drainers s' = [DrainPause] /\
  List.length (processingQueue s') <= List.length rest /\
  forall u, In u (processingQueue s') -> url u <> Matcher.url m.
Proof.
  intros Hfound Hidle Hqueue Hset Hdrainers line ch Hstale s'.
  set (f := fun x : URLMatch => mkTask (Matcher.url x) line (ch + index x) now).
  set (t := mkTask (Matcher.url m) line (ch + index m) now) in *.
  destruct (unique_tasks_head f ch text m rest) as (others & Hunique & Hothers);
    [reflexivity | assumption|].
  change (f m) with t in Hunique, Hothers.
  assert (Hlength : List.length others <= List.length rest).
  { pose proof (DedupMoreFacts.unique_tasks_keep_first (List.map f (m :: rest)))
      as Hk.
    assert (Hlen : List.length (unique_tasks (List.map f (m :: rest)))
                   <= List.length (List.map f (m :: rest))).
    { clear. generalize (List.map f (m :: rest)). intros tasks.
      rewrite DedupMoreFacts.unique_tasks_keep_first.
      rewrite <- (DedupMoreFacts.length_sort_by_position tasks).
      apply DedupMoreFacts.length_keep_first. }
    rewrite Hunique in Hlen. cbn [List.length List.map] in Hlen.
    rewrite length_map in Hlen. lia. }
  assert (Hne : String.eqb text "" = false).
  { apply String.eqb_neq. intros ->. discriminate. }
  assert (Hs' : s'
                = with_editor (Editor.replaceSelection text)
                    (with_drainers (fun l => (l ++ [DrainPause])%list)
                       (abandoned (inflight_key t)
                          (with_processingQueue (fun _ => others)
                             (with_isProcessing true
                                (with_processingQueue
                                   (fun q => (q ++ t :: others)%list) s)))))).
  { unfold s', handlePaste. rewrite Hne, Hfound.
    cbn [List.length Nat.ltb Nat.leb].
    change (List.map _ (m :: rest)) with (List.map f (m :: rest)).
    f_equal.
    unfold addToProcessingQueue. rewrite Hunique.
    cbn [isProcessing with_processingQueue]. rewrite Hidle.
    unfold processQueue.
    cbn [isProcessing with_processingQueue processingQueue].
    rewrite Hidle, Hqueue. cbn [app List.length Nat.eqb orb].
    unfold drain_next.
    cbn [processingQueue with_isProcessing with_processingQueue].
    rewrite Hqueue. cbn [app].
    unfold task_begin.
    cbn [processingUrls with_isProcessing with_processingQueue].
    rewrite Hset. cbn [set_has existsb].
    rewrite processURL_begin_stale; [reflexivity | exact Hstale]. }
  rewrite Hs'. unfold abandoned. fields. rewrite Hset, Hdrainers.
  split; [reflexivity|]. split; [reflexivity|].
  split; [apply set_delete_add_empty|]. split; [reflexivity|].
  split; [exact Hlength|].
  intros u Hu Hurl. apply (Hothers u Hu).
  apply batch_key_inj. split; [exact Hurl|].
  assert (Hin : In u (unique_tasks (List.map f (m :: rest))))
    by (rewrite Hunique; now right).
  apply DedupMoreFacts.unique_tasks_subset in Hin.
  apply in_map_iff in Hin as (x & <- & _). reflexivity.
Qed.

(** X13 when [https://a.b/c] is pasted into an empty line of an idle
    plugin: the text is inserted, and nothing is queued or requested. *)
Lemma paste_checks_its_first_url_before_inserting_witness :
  let s := initial (Editor.mk [""] 0 0) in
  let s' := handlePaste 100 (Some "https://a.b/c") s in
  Editor.lines (editor s') = ["https://a.b/c"] /\
  processingQueue s' = [] /\ processingUrls s' = [] /\
  drainers s' = [DrainPause].
Proof.
  intros s s'.
  destruct (paste_checks_its_first_url_before_inserting
              100 s "https://a.b/c" (mkURLMatch "https://a.b/c" 0) [])
    as (Hed & _ & Hset & Hd & Hlen & _); try reflexivity.
  fold s' in Hed, Hset, Hd, Hlen.
  split; [rewrite Hed; reflexivity|].
  split; [|split; assumption].
  destruct (processingQueue s'); [reflexivity | simpl in Hlen; lia].
Defined.

End PasteFacts.

(** ** The retry scheduler, over any resolver *)

Module RetryMoreFacts.
Import JsString JsMap JsMapFacts JsMapMoreFacts Resolver Engine EngineTerms.
Import RetryTerms.
Import EngineFacts InvariantFacts.

#[local] Arguments retry_key : simpl never.

Lemma well_filed_delete k q : well_filed q -> well_filed (delete k q).
Proof.
  intros [Hnd Hitems]. split; [now apply NoDup_keys_delete|].
  intros k0 item Hin. apply Hitems. now apply In_delete in Hin.
Qed.

(** *** What each method does to the retry queue *)

Lemma addToRetryQueue_well_filed now t s :
  well_filed (retryQueue s) ->
  well_filed (retryQueue (addToRetryQueue now t s)).
Proof.
  intros Hwf. unfold addToRetryQueue.
  destruct (get (retry_key t) (retryQueue s)) as [existing|] eqn:Eget.
  - destruct (Nat.ltb_spec (retries existing) 3) as [Hlt|Hge]; [|assumption].
    fields. destruct Hwf as [Hnd Hitems].
    split; [now apply NoDup_keys_set|].
    intros k item Hin. apply In_set in Hin as [[= -> ->]|Hin]; [|auto].
    cbn [task retries]. split; [reflexivity | lia].
  - fields. destruct Hwf as [Hnd Hitems].
    split; [now apply NoDup_keys_set|].
    intros k item Hin. apply In_set in Hin as [[= -> ->]|Hin]; [|auto].
    cbn [task retries]. split; [reflexivity | lia].
Qed.

Lemma task_catch_well_filed now t e s :
  well_filed (retryQueue s) ->
  well_filed (retryQueue (task_catch now t e s)).
Proof.
  intros Hwf. unfold task_catch.
  destruct (is_Error e && includes (message e) "fetch"); [|exact Hwf].
  now apply addToRetryQueue_well_filed.
Qed.

Lemma processURL_begin_retryQueue s t key :
  match processURL_begin s t key with
  | Finished _ s1 => retryQueue s1 = retryQueue s
  | Awaiting s1 => retryQueue s1 = retryQueue s
  end.
Proof.
  unfold processURL_begin.
  destruct (stale t _); [reflexivity|].
  destruct (has (url t) _); [|reflexivity].
  destruct (get (url t) _); reflexivity.
Qed.

Lemma processURL_resume_retryQueue s t key r :
  retryQueue (snd (processURL_resume s t key r)) = retryQueue s.
Proof. destruct r; reflexivity. Qed.

Lemma task_begin_well_filed now t s :
  well_filed (retryQueue s) ->
  well_filed (retryQueue (fst (task_begin now t s))).
Proof.
  intros Hwf. unfold task_begin.
  destruct (set_has _ _); [exact Hwf|].
  pose proof (processURL_begin_retryQueue s t (inflight_key t)) as Hframe.
  destruct (processURL_begin s t (inflight_key t)) as [[[]|e] s1|s1];
    cbn [fst]; try (now rewrite Hframe).
  apply task_catch_well_filed. now rewrite Hframe.
Qed.

Lemma task_resume_well_filed now t key r s :
  well_filed (retryQueue s) ->
  well_filed (retryQueue (task_resume now t key r s)).
Proof.
  intros Hwf. unfold task_resume.
  pose proof (processURL_resume_retryQueue s t key r) as Hframe.
  destruct (processURL_resume s t key r) as [[[]|e] s1]; cbn [snd] in Hframe.
  - now rewrite Hframe.
  - apply task_catch_well_filed. now rewrite Hframe.
Qed.

Lemma drain_next_well_filed now s :
  well_filed (retryQueue s) ->
  well_filed (retryQueue (fst (drain_next now s))).
Proof.
  intros Hwf. unfold drain_next.
  destruct (processingQueue s) as [|t rest]; [exact Hwf|].
  pose proof (task_begin_well_filed now t
                (with_processingQueue (fun _ => rest) s) Hwf) as Hbegin.
  destruct (task_begin now t _) as [s1 [key|]]; exact Hbegin.
Qed.

Lemma spawn_retryQueue d s : retryQueue (spawn d s) = retryQueue s.
Proof. destruct d; reflexivity. Qed.

Lemma addToProcessingQueue_well_filed now tasks s :
  well_filed (retryQueue s) ->
  well_filed (retryQueue (addToProcessingQueue now tasks s)).
Proof.
  intros Hwf. unfold addToProcessingQueue.
  destruct (isProcessing _); [exact Hwf|].
  unfold processQueue.
  destruct (isProcessing _ || _); [exact Hwf|].
  match goal with
  | |- context [drain_next now ?x] =>
      pose proof (drain_next_well_filed now x Hwf) as Hnext;
      destruct (drain_next now x) as [s1 d]
  end.
  now rewrite spawn_retryQueue.
Qed.

Lemma retry_settled_well_filed key item r s :
  well_filed (retryQueue s) ->
  well_filed (retryQueue (retry_settled key item r s)).
Proof.
  intros Hwf. unfold retry_settled.
  destruct r; [now apply well_filed_delete|].
  destruct (Nat.leb 3 _); [now apply well_filed_delete | exact Hwf].
Qed.

Lemma retry_run_well_filed entries : forall s,
  well_filed (retryQueue s) ->
  well_filed (retryQueue (fst (retry_run entries s))).
Proof.
  induction entries as [|[key item] rest IH]; intros s Hwf;
    cbn [retry_run]; [exact Hwf|].
  destruct (editorActive s); [|now apply IH].
  pose proof (processURL_begin_retryQueue s (task item) key) as Hframe.
  destruct (processURL_begin s (task item) key) as [r s1|s1].
  - apply IH, retry_settled_well_filed. now rewrite Hframe.
  - cbn [fst]. now rewrite Hframe.
Qed.

Lemma step_well_filed R s s' :
  step R s s' ->
  well_filed (retryQueue s) -> well_filed (retryQueue s').
Proof.
  intros Hstep Hwf.
  destruct Hstep
    as [now s | now s deadline Harmed Hdue | now text s | ed s | b s
        | now i t key r s s' Hnth Hres Hgo
        | now i s s' Hgo
        | now s Hsleep
        | rest key item r s Hawait Hres].
  - exact Hwf.
  - unfold handleChange_callback.
    destruct (Editor.getLine _ _) as [currentLine|]; [|exact Hwf].
    destruct (Nat.leb _ 10); [exact Hwf|].
    destruct (Nat.eqb _ 0); [exact Hwf|].
    now apply addToProcessingQueue_well_filed.
  - unfold handlePaste. destruct text as [pastedText|]; [|exact Hwf].
    destruct (String.eqb pastedText ""); [exact Hwf|].
    destruct (Nat.ltb 0 _); [|exact Hwf].
    cbn [retryQueue with_editor]. now apply addToProcessingQueue_well_filed.
  - exact Hwf.
  - exact Hwf.
  - unfold drainer_resolved in Hgo. rewrite Hnth in Hgo.
    injection Hgo as <-. cbn [retryQueue with_drainers].
    now apply task_resume_well_filed.
  - unfold drainer_wakes in Hgo.
    destruct (nth_error (drainers s) i) as [[t key|]|]; try discriminate.
    match type of Hgo with
    | context [drain_next now ?x] =>
        pose proof (drain_next_well_filed now x Hwf) as Hnext;
        destruct (drain_next now x) as [s1 d]
    end.
    injection Hgo as <-. now rewrite spawn_retryQueue.
  - unfold processRetryQueue, install. cbn [retryQueue with_scheduler].
    now apply retry_run_well_filed.
  - unfold retry_resume.
    pose proof (processURL_resume_retryQueue s (task item) key r) as Hframe.
    destruct (processURL_resume s (task item) key r) as [o s1].
    cbn [snd] in Hframe. unfold install. cbn [retryQueue with_scheduler].
    apply retry_run_well_filed, retry_settled_well_filed.
    now rewrite Hframe.
Qed.

(** X14. The retry queue stays well filed whatever the resolver does:
    in every state the engine can reach over any resolver, each item of
    the retry queue sits once under the key made of its task's URL, line
    and position, and its count of failures is 1, 2 or 3. *)
Theorem retry_queue_is_well_filed (s : state) :
  reachable any_resolver s ->
  NoDup (keys (retryQueue s)) /\
  forall k item,
    In (k, item) (retryQueue s) ->
    k = retry_key (task item) /\ 1 <= retries item <= 3.
Proof.
  induction 1 as [ed|s s' _ IH Hstep].
  - split; [constructor | intros k item []].
  - exact (step_well_filed any_resolver s s' Hstep IH).
Qed.

(** X14 once a resolution has failed with [Failed to fetch]: the task
    is filed under its retry key with a count of 1. *)
Lemma retry_queue_is_well_filed_witness :
  let u := "https://a.b/page" in
  let t := mkTask u 0 0 500 in
  exists s,
    reachable any_resolver s /\
    retryQueue s = [("https://a.b/page-0-0", mkItem t 1 1600)] /\
    NoDup (keys (retryQueue s)).
Proof.
  intros u t.
  assert (H0 : reachable any_resolver (initial (Editor.mk [u] 0 0)))
    by constructor.
  pose proof (reachable_step _ _ _ H0 (step_change _ 0 _)) as H1.
  match type of H1 with
  | reachable _ ?s1 =>
      pose proof (reachable_step _ _ _ H1
                    (step_debounce _ 500 s1 500 eq_refl (le_n 500))) as H2
  end.
  eassert (H3 : reachable any_resolver _).
  { eapply reachable_step; [exact H2|].
    eapply (step_drain_resolved _ 600 0 _ _ (Throw failed_to_fetch));
      [vm_compute; reflexivity | exact I | vm_compute; reflexivity]. }
  eexists. split; [exact H3|]. split; [vm_compute; reflexivity|].
  exact (proj1 (retry_queue_is_well_filed _ H3)).
Defined.

(** *** One tick *)



Lemma filter_due_single now key item :
  nextRetry item <= now ->
  List.filter (due now) [(key, item)] = [(key, item)].
Proof.
  intros Hdue. unfold due. cbn [List.filter snd].
  destruct (Nat.leb_spec (nextRetry item) now); [reflexivity | lia].
Qed.









End RetryMoreFacts.

(** ** What the plugin does not look at again *)

Module BlindFacts.
Import JsString JsStringFacts Matcher Resolver Engine Unload.
Import StringTerms MatcherTerms EngineTerms.
Import EngineFacts EditFacts InvariantFacts.

#[local] Arguments inflight_key : simpl never.

(** X16. After the resolver has answered, [processURL] does not look at
    the line again: the link is written over whatever then stands at the
    task's position, for the length of the URL.  Text typed over the URL
    while the resolution was in flight is lost, and the text before and
    behind that stretch is kept. *)
Theorem answer_overwrites_what_stands_at_the_position
  (s : state) (t : ProcessingTask) (key title : string)
  (before middle after : string) :
  Editor.getLine (lineNumber t) (editor s)
  = Some (before ++ middle ++ after) ->
  String.length before = position t ->
  String.length middle = String.length (url t) ->
  middle <> "" ->
  let s' := snd (processURL_resume s t key (Return title)) in
  Editor.getLine (lineNumber t) (editor s')
  = Some (before ++ "[" ++ title ++ "](" ++ url t ++ ")" ++ after) /\
  forall n, n <> lineNumber t ->
            Editor.getLine n (editor s') = Editor.getLine n (editor s).
Proof.
  intros Hline Hbefore Hmiddle Hne s'.
  assert (Hed : editor s'
                = Editor.setLine (lineNumber t)
                    (before ++ "[" ++ title ++ "](" ++ url t ++ ")" ++ after)
                    (editor s)).
  { unfold s'. cbn [processURL_resume snd]. fields.
    rewrite (replaceURLWithMarkdown_line _ _ _ _ Hline)
      by (apply append_not_empty; destruct middle; [congruence | discriminate]).
    f_equal. rewrite <- Hbefore, take_append.
    rewrite <- drop_drop, drop_append, <- Hmiddle, drop_append.
    unfold markdownLink. now rewrite !append_assoc. }
  rewrite Hed. split.
  - apply getLine_setLine_same. now apply getLine_Some_lt in Hline.
  - intros n Hn. now apply getLine_setLine_other.
Qed.

(** X16 when [https://a.b/c] on [see https://a.b/c] has been replaced
    by [hello, world!] while the resolver worked. *)
Lemma answer_overwrites_what_stands_at_the_position_witness :
  let s := initial (Editor.mk ["see hello, world!"] 0 0) in
  let t := mkTask "https://a.b/c" 0 4 100 in
  Editor.getLine 0
    (editor (snd (processURL_resume s t (inflight_key t) (Return "Page"))))
  = Some "see [Page](https://a.b/c)".
Proof.
  intros s t.
  apply (answer_overwrites_what_stands_at_the_position
           s t (inflight_key t) "Page" "see " "hello, world!" "");
    try reflexivity.
  discriminate.
Defined.

(** X17. [onunload] empties the cache and the queues, but it does not
    stop a resolution that is in flight: when the resolver answers after
    the plugin was unloaded, the title is stored in the cache that was
    just cleared and the link is written into the document; then the
    consumer of the queue, finding the queue empty, ends. *)
Theorem unload_does_not_stop_the_resolution_in_flight
  (P : Platform.t) (s : state) (t : ProcessingTask)
  (title : string) (now later : nat) :
  plugin_reachable P s -> in_flight s = [t] ->
  urlCache (onunload s) = [] /\ processingQueue (onunload s) = [] /\
  exists s1 s2,
    drainer_resolved now 0 (Return title) (onunload s) = Some s1 /\
    urlCache s1 = [(url t, title)] /\
    editor s1 = replaceURLWithMarkdown t (markdownLink title t) (editor s) /\
    drainer_wakes later 0 s1 = Some s2 /\
    drainers s2 = [] /\ isProcessing s2 = false /\
    urlCache s2 = [(url t, title)].
Proof.
  intros Hreach Hflight.
  destruct (plugin_invariant P s Hreach) as (Hretry & Hsched & Hdrained).
  assert (Hd : drainers s = [DrainAwait t (inflight_key t)]).
  { unfold in_flight in Hflight. rewrite Hsched, app_nil_r in Hflight.
    inversion Hdrained as [s0 Hf Hd Hset|s0 Hf Hd Hset|s0 t0 Hf Hd Hset];
      subst s0; rewrite Hd in Hflight; cbn in Hflight; try discriminate.
    injection Hflight as ->. exact Hd. }
  split; [reflexivity|]. split; [reflexivity|].
  unfold drainer_resolved, onunload. fields. rewrite Hd. cbn [nth_error].
  do 2 eexists. split; [reflexivity|].
  unfold task_resume, processURL_resume. fields.
  split; [reflexivity|]. split; [reflexivity|].
  unfold drainer_wakes. fields. rewrite Hd. cbn [remove_nth app nth_error].
  unfold drain_next. fields. cbn [spawn].
  split; [reflexivity|]. fields. rewrite Hd. repeat split.
Qed.

(** X17 when the plugin is unloaded while the title of
    [https://a.b/c] is being resolved. *)
Lemma unload_does_not_stop_the_resolution_in_flight_witness :
  let u := "https://a.b/c" in
  let ed := Editor.mk ["see " ++ u ++ " now"] 0 0 in
  let s :=
    handleChange_callback 600
      (with_debounceTimeout None (handleChange 100 (initial ed))) in
  urlCache (onunload s) = [] /\
  exists s1,
    drainer_resolved 900 0 (Return "Page") (onunload s) = Some s1 /\
    urlCache s1 = [(u, "Page")] /\
    Editor.lines (editor s1) = ["see [Page](https://a.b/c) now"].
Proof.
  intros u ed s.
  destruct (unload_does_not_stop_the_resolution_in_flight
              Reference.platform s (mkTask u 0 4 600) "Page" 900 1000)
    as (Hcleared & _ & s1 & s2 & Hgo & Hcache & Hed & _).
  - apply (reachable_step _ (handleChange 100 (initial ed))).
    + apply (reachable_step _ (initial ed)); constructor.
    + apply (step_debounce _ 600 _ 600); [reflexivity | lia].
  - reflexivity.
  - split; [exact Hcleared|]. exists s1.
    split; [exact Hgo|]. split; [exact Hcache|].
    rewrite Hed. reflexivity.
Defined.

End BlindFacts.

(** ** The shape of a fallback title *)

Module FallbackMoreFacts.
Import JsString JsStringFacts StringTerms Fallback FallbackTerms.
Import MatcherFacts FallbackFacts.

Lemma all_chars_trimStart p s : all_chars p s -> all_chars p (trimStart s).
Proof.
  induction s as [|c s IH]; simpl; [auto|].
  intros [Hc Hs]. destruct (is_space c); simpl; auto.
Qed.

Lemma all_chars_rev_string p s : all_chars p s -> all_chars p (rev_string s).
Proof. intros Hs. apply all_chars_rev_onto; simpl; auto. Qed.

Lemma all_chars_trim p s : all_chars p s -> all_chars p (trim s).
Proof.
  intros Hs. unfold trim, trimEnd.
  now apply all_chars_rev_string, all_chars_trimStart, all_chars_rev_string,
    all_chars_trimStart.
Qed.

Lemma all_chars_split_onto p sep s : forall cur,
  all_chars p s -> all_chars p cur ->
  Forall (all_chars p) (split_onto sep s cur).
Proof.
  induction s as [|c s IH]; simpl; intros cur Hs Hcur.
  - constructor; [now apply all_chars_rev_string | constructor].
  - destruct Hs as [Hc Hs]. destruct (Ascii.eqb c sep).
    + constructor; [now apply all_chars_rev_string|].
      apply IH; simpl; auto.
    + apply IH; simpl; auto.
Qed.

Lemma all_chars_join p sep parts :
  all_chars p sep -> Forall (all_chars p) parts ->
  all_chars p (join sep parts).
Proof.
  intros Hsep Hparts. unfold join.
  induction Hparts as [|x parts Hx Hparts IH]; simpl; [exact I|].
  destruct parts as [|y parts]; [assumption|].
  apply all_chars_append. split; [assumption|].
  apply all_chars_append. split; [assumption | exact IH].
Qed.

Lemma separators_to_spaces_clean s :
  all_chars (fun c => negb (is_separator c)) (separators_to_spaces s).
Proof.
  unfold separators_to_spaces. induction s as [|c s IH]; simpl; [exact I|].
  split; [|exact IH]. destruct (is_separator c) eqn:E; [reflexivity|].
  now rewrite E.
Qed.

Lemma tidy_clean s : all_chars (fun c => negb (is_separator c)) (tidy s).
Proof.
  unfold tidy. apply all_chars_trim, all_chars_join; [simpl; auto|].
  apply Forall_forall. intros x Hx. apply in_map_iff in Hx as (y & <- & Hy).
  apply all_chars_trim.
  pose proof (all_chars_split_onto (fun c => negb (is_separator c)) " "
                (separators_to_spaces s) ""
                (separators_to_spaces_clean s) I) as Hall.
  rewrite Forall_forall in Hall. now apply Hall.
Qed.

(** X18. The shape of a fallback title: it is the URL as it was given
    (when the URL does not parse or its last segment cannot be decoded),
    or the host name as the platform reports it, or a text that is not
    empty and holds neither [-] nor [_]. *)
Theorem fallback_title_shape (P : Platform.t) (url : string) :
  getTitleFromURL P url = url \/
  exists urlObj,
    Platform.parseURL P url = Some urlObj /\
    (getTitleFromURL P url = Platform.hostname urlObj \/
     getTitleFromURL P url <> "" /\
     all_chars (fun c => negb (is_separator c)) (getTitleFromURL P url)).
Proof.
  unfold getTitleFromURL.
  destruct (Platform.parseURL P url) as [urlObj|]; [|now left].
  destruct (Platform.decodeURIComponent P _) as [decoded|]; [|now left].
  right. exists urlObj. split; [reflexivity|].
  match goal with
  | |- context [String.eqb (tidy ?x) ""] =>
      destruct (String.eqb_spec (tidy x) "") as [Hempty|Hne];
      [now left | right; split; [exact Hne | apply tidy_clean]]
  end.
Qed.

End FallbackMoreFacts.

(** ** Where the cached titles come from *)

Module CacheSoundFacts.
Import JsMap JsMapFacts JsMapMoreFacts Cache Resolver Engine.
Import EngineCacheFacts.

#[local] Opaque MAX_CACHE_SIZE.

Lemma In_updateCache u title (c : cache) e :
  In e (updateCache u title c) -> e = (u, title) \/ In e c.
Proof.
  unfold updateCache. intros Hin. apply In_set in Hin as [->|Hin]; [now left|].
  right. destruct (Nat.leb MAX_CACHE_SIZE (size c)); [|exact Hin].
  destruct (first_key c) as [k|]; [|exact Hin].
  now apply In_delete in Hin.
Qed.

Lemma get_In (c : cache) u title : get u c = Some title -> In (u, title) c.
Proof.
  induction c as [|[k v] c IH]; simpl; [discriminate|].
  destruct (String.eqb_spec k u) as [->|Hne].
  - intros [= ->]. now left.
  - intros H. right. now apply IH.
Qed.

Section Steps.
Variable resolves : string -> outcome string -> Prop.

Lemma processURL_resume_answers s t key r :
  resolves (url t) r ->
  (forall u title, In (u, title) (urlCache s) -> resolves u (Return title)) ->
  forall u title,
    In (u, title) (urlCache (snd (processURL_resume s t key r))) ->
    resolves u (Return title).
Proof.
  intros Hres Hsound u title. destruct r as [answer|e]; cbn.
  - intros Hin. apply In_updateCache in Hin as [[= -> ->]|Hin]; auto.
  - apply Hsound.
Qed.

Lemma step_answers s s' :
  step resolves s s' ->
  (forall u title, In (u, title) (urlCache s) -> resolves u (Return title)) ->
  forall u title, In (u, title) (urlCache s') -> resolves u (Return title).
Proof.
  intros Hstep Hsound.
  destruct Hstep
    as [now s | now s deadline Harmed Hdue | now text s | ed s | b s
        | now i t key r s s' Hnth Hres Hgo
        | now i s s' Hgo
        | now s Hsleep
        | rest key item r s Hawait Hres].
  - exact Hsound.
  - now rewrite handleChange_callback_cache.
  - now rewrite handlePaste_cache.
  - exact Hsound.
  - exact Hsound.
  - unfold drainer_resolved in Hgo. rewrite Hnth in Hgo.
    injection Hgo as <-. cbn [urlCache with_drainers].
    unfold task_resume.
    pose proof (processURL_resume_answers s t key r Hres Hsound) as Hnext.
    destruct (processURL_resume s t key r) as [[[]|e] s1]; cbn [snd] in Hnext;
      [exact Hnext | now rewrite task_catch_cache].
  - unfold drainer_wakes in Hgo.
    destruct (nth_error (drainers s) i) as [[t key|]|]; try discriminate.
    match type of Hgo with
    | context [drain_next now ?x] =>
        pose proof (drain_next_cache now x) as Hnext;
        destruct (drain_next now x) as [s1 d]
    end.
    injection Hgo as <-. rewrite spawn_cache. cbn [fst] in Hnext.
    now rewrite Hnext.
  - unfold processRetryQueue, install. cbn [urlCache with_scheduler].
    now rewrite retry_run_cache.
  - unfold retry_resume.
    pose proof (processURL_resume_answers s (task item) key r Hres Hsound)
      as Hnext.
    destruct (processURL_resume s (task item) key r) as [o s1].
    cbn [snd] in Hnext. unfold install. cbn [urlCache with_scheduler].
    now rewrite retry_run_cache, retry_settled_cache.
Qed.

Lemma reachable_answers s :
  reachable resolves s ->
  forall u title, In (u, title) (urlCache s) -> resolves u (Return title).
Proof.
  induction 1 as [ed|s s' _ IH Hstep]; [intros u title []|].
  now apply (step_answers s s').
Qed.

End Steps.

(** X19. The cache holds nothing but answers of the resolver, each under
    the URL it was given for: in every state the engine can reach, over
    any resolver, a title the cache returns for a URL is a title the
    resolver has answered for that very URL.  For the plugin it is what
    [fetchPageTitleWithRetry] returns for that URL on some network. *)
Theorem cached_title_is_an_answer_for_its_url :
  (forall resolves s u title,
      reachable resolves s ->
      get u (urlCache s) = Some title -> resolves u (Return title)) /\
  (forall P s u title,
      plugin_reachable P s ->
      get u (urlCache s) = Some title ->
      exists w, fst (resolve P u w) = Return title).
Proof.
  split.
  - intros resolves s u title Hreach Hget.
    apply (reachable_answers resolves s Hreach). now apply get_In.
  - intros P s u title Hreach Hget.
    apply (reachable_answers (source_resolver P) s Hreach). now apply get_In.
Qed.

(** X19 in the state reached when the debounce timer has fired on a line
    with a URL and the resolver, finding the network down, has answered
    with the fallback title. *)
Lemma cached_title_is_an_answer_for_its_url_witness :
  let u := "https://example.org/My_Report.html" in
  exists s w,
    plugin_reachable Reference.platform s /\
    get u (urlCache s) = Some "My Report" /\
    fst (resolve Reference.platform u w) = Return "My Report".
Proof.
  intros u.
  assert (H0 : plugin_reachable Reference.platform
                 (initial (Editor.mk ["see " ++ u] 0 0)))
    by constructor.
  pose proof (reachable_step _ _ _ H0 (step_change _ 100 _)) as H1.
  match type of H1 with
  | reachable _ ?s1 =>
      pose proof (reachable_step _ _ _ H1
                    (step_debounce _ 600 s1 600 eq_refl (le_n 600))) as H2
  end.
  eassert (H3 : plugin_reachable Reference.platform _).
  { eapply reachable_step; [exact H2|].
    eapply (step_drain_resolved _ 900 0 _ _ (Return "My Report"));
      [vm_compute; reflexivity
      | exists (fresh_world unreachable_network); vm_compute; reflexivity
      | vm_compute; reflexivity]. }
  match type of H3 with
  | plugin_reachable _ ?s3 =>
      assert (Hget : get u (urlCache s3) = Some "My Report")
        by (vm_compute; reflexivity);
      destruct (proj2 cached_title_is_an_answer_for_its_url
                  Reference.platform s3 u "My Report" H3 Hget) as [w Hw];
      exists s3, w
  end.
  split; [exact H3|]. split; [exact Hget | exact Hw].
Defined.

End CacheSoundFacts.
